(** * Trade graph and export-restriction deficits (src/trade_graph.py)

    A shallow embedding of the class [TradeGraph]: the construction of the
    directed trade graph from trade records ([__init__]), the queries on
    it, the deficit computation that opens
    [plot_export_restriction_scenario] and the lines that this method and
    [plot_overall_trade_graph] then draw.  The calls into the plotting
    libraries are not modelled.

    Conventions of the embedding.
    - Numbers.  The source is one text for every kind of Python number, and
      it is read twice.  In the main development the numbers are exact
      rationals ([Q]).  The properties stated there are chosen not to
      depend on rounding: which exception is raised and when, which fields
      are written, which terms a sum adds and in which order, which sign a
      result has.  The few statements that hold only when nothing is
      rounded (the equality of two sums that group their terms differently,
      an upper bound by such a sum) begin with the words Exact
      arithmetic.  The module [Binary64] is the same text on IEEE 754
      binary64 numbers, Python's [float]; it is evaluated on concrete
      inputs, where it gives the numbers that the program computes and the
      inputs on which rounding breaks an equality of exact arithmetic.
      Division is the one partial operation: dividing by zero raises
      [ZeroDivisionError], as it does for Python ints and floats.
    - Dictionaries that are iterated (the node table, the adjacency of the
      networkx [DiGraph], the scenario) are association lists in insertion
      order.
    - Exceptions.  A query returns a [result]; a method that mutates [self]
      returns an [outcome], which keeps the state reached when the exception
      was raised, since Python does not roll mutations back.
    - Printing appends lines to an explicit [stdout] list. *)

From Stdlib Require Import String List Bool QArith Lqa Lia Permutation.
From Corelib Require Import PrimFloat.
Import ListNotations.

Local Open Scope string_scope.
Local Open Scope list_scope.
Local Open Scope Q_scope.

(** ** Exceptions and fallible queries *)

Inductive exn : Type :=
| KeyError (key : string)
| TypeError
| ValueError (msg : string)
| ZeroDivisionError.

Inductive result (A : Type) : Type :=
| Val (a : A)
| Exc (e : exn).

Arguments Val {A} a.
Arguments Exc {A} e.

Definition rbind {A B} (r : result A) (k : A -> result B) : result B :=
  match r with
  | Val a => k a
  | Exc e => Exc e
  end.

Notation "x <~ r ;; k" := (rbind r (fun x => k))
  (at level 61, r at next level, right associativity).

(** [x / y] on Python numbers. *)
Definition py_div (x y : Q) : result Q :=
  if Qeq_bool y 0 then Exc ZeroDivisionError else Val (x / y).

(** [sum(f(x) for x in l)]: the accumulator starts at 0 and the generator is
    consumed from the left; an exception of [f] ends the sum. *)
Fixpoint sum_gen {A} (f : A -> result Q) (l : list A) (acc : Q) : result Q :=
  match l with
  | [] => Val acc
  | x :: rest => a <~ f x ;; sum_gen f rest (acc + a)
  end.

(** [sum(l)] on a list of numbers. *)
Definition py_sum (l : list Q) : Q := fold_left Qplus l 0.

(** ** Data *)

(** A row of the [trade_data] frame. *)
Record TradeRow : Type := mkRow {
  partner : string;
  reporter : string;
  element : string;
  value : Q
}.

(** The attribute dictionary of a node.  A key that is absent from the
    dictionary is [None]: nodes that networkx creates on [add_edge] start
    with no attribute at all. *)
Record NodeData : Type := mkNodeData {
  name : option string;
  iso : option string;
  centroid : option (Q * Q);
  production : option Q;
  population : option Q;
  deficit : option Q;
  deficit_relative : option Q;
  locust_start : option string;
  locust_end : option string;
  covid_start : option string;
  covid_end : option string
}.

Definition no_attributes : NodeData :=
  mkNodeData None None None None None None None None None None None.

Definition set_deficit (v : Q) (d : NodeData) : NodeData :=
  mkNodeData (name d) (iso d) (centroid d) (production d) (population d)
             (Some v) (deficit_relative d)
             (locust_start d) (locust_end d) (covid_start d) (covid_end d).

Definition set_deficit_relative (v : Q) (d : NodeData) : NodeData :=
  mkNodeData (name d) (iso d) (centroid d) (production d) (population d)
             (deficit d) (Some v)
             (locust_start d) (locust_end d) (covid_start d) (covid_end d).

Definition Edge : Type := (string * string * Q)%type.

Definition src (e : Edge) : string := fst (fst e).
Definition dst (e : Edge) : string := snd (fst e).
Definition amount (e : Edge) : Q := snd e.

(** [nx.DiGraph]: the node table and the edges, both in insertion order.
    Each edge carries its one attribute, [amount]. *)
Record DiGraph : Type := mkDiGraph {
  nodes : list (string * NodeData);
  edges : list Edge
}.

(** The fields of a [TradeGraph] instance that the computation uses. *)
Record TradeGraph : Type := mkTradeGraph {
  G : DiGraph;
  sum_of_trade : Q
}.

(** ** networkx operations *)

Definition empty_graph : DiGraph := mkDiGraph [] [].

Definition node_is (n : string) (p : string * NodeData) : bool := fst p =? n.

(** [n in G.nodes] *)
Definition has_node (g : DiGraph) (n : string) : bool :=
  existsb (node_is n) (nodes g).

(** [G.nodes[n]] *)
Definition node_data (g : DiGraph) (n : string) : option NodeData :=
  option_map snd (find (node_is n) (nodes g)).

(** [G.add_node(n, **attr)] where [attr] gives every key of [NodeData]: a new
    node is appended, the dictionary of an existing one is overwritten. *)
Definition add_node (g : DiGraph) (n : string) (d : NodeData) : DiGraph :=
  if has_node g n
  then mkDiGraph (map (fun p => if node_is n p then (n, d) else p) (nodes g))
                 (edges g)
  else mkDiGraph (nodes g ++ [(n, d)]) (edges g).

(** What [add_edge] does to an end point: created without attributes when it
    is not a node yet. *)
Definition ensure_node (g : DiGraph) (n : string) : DiGraph :=
  if has_node g n then g
  else mkDiGraph (nodes g ++ [(n, no_attributes)]) (edges g).

Definition edge_is (u v : string) (e : Edge) : bool :=
  (src e =? u) && (dst e =? v).

(** [G.has_edge(u, v)] *)
Definition has_edge (g : DiGraph) (u v : string) : bool :=
  existsb (edge_is u v) (edges g).

(** [G.get_edge_data(u, v)]: the edge's attributes, [None] without edge. *)
Definition get_edge_data (g : DiGraph) (u v : string) : option Q :=
  option_map amount (find (edge_is u v) (edges g)).

(** [G.add_edge(u, v, amount=a)]: both end points become nodes; the
    attribute of an existing edge is updated in place, a new edge is
    appended. *)
Definition add_edge (g : DiGraph) (u v : string) (a : Q) : DiGraph :=
  let g' := ensure_node (ensure_node g u) v in
  if has_edge g' u v
  then mkDiGraph (nodes g')
                 (map (fun e => if edge_is u v e then (u, v, a) else e)
                      (edges g'))
  else mkDiGraph (nodes g') (edges g' ++ [(u, v, a)]).

(** [G.out_edges(country)] and [G.in_edges(country)], for a node [country]:
    the pairs of end points. *)
Definition out_edges (g : DiGraph) (country : string) : list (string * string) :=
  map fst (filter (fun e => src e =? country) (edges g)).

Definition in_edges (g : DiGraph) (country : string) : list (string * string) :=
  map fst (filter (fun e => dst e =? country) (edges g)).

(** [G.edges(data=True)]: networkx walks the nodes in order and, for each,
    its outgoing edges. *)
Definition edges_data (g : DiGraph) : list Edge :=
  flat_map (fun p => filter (fun e => src e =? fst p) (edges g)) (nodes g).

(** [nx.set_node_attributes(G, value, attr)] with a constant [value]. *)
Definition set_all_nodes (f : NodeData -> NodeData) (g : DiGraph) : DiGraph :=
  mkDiGraph (map (fun p => (fst p, f (snd p))) (nodes g)) (edges g).

(** One assignment [G.nodes[n][attr] = v]; networkx ignores an [n] that is
    not a node. *)
Definition set_node (f : NodeData -> NodeData) (n : string) (g : DiGraph)
  : DiGraph :=
  mkDiGraph (map (fun p => if node_is n p then (fst p, f (snd p)) else p)
                 (nodes g))
            (edges g).

(** [nx.set_node_attributes(G, values, 'deficit')] with a dictionary, given
    as its items in order. *)
Definition set_node_deficits (values : list (string * Q)) (g : DiGraph)
  : DiGraph :=
  fold_left (fun g' kv => set_node (set_deficit (snd kv)) (fst kv) g') values g.

(** [nx.get_node_attributes(G, 'deficit')[n]] *)
Definition node_deficit (g : DiGraph) (n : string) : result Q :=
  match node_data g n with
  | Some d =>
      match deficit d with
      | Some x => Val x
      | None => Exc (KeyError n)
      end
  | None => Exc (KeyError n)
  end.

(** ** Construction *)

Definition unspecified_area : string := "Unspecified Area".

(** [Series.unique()]: the distinct values in order of first appearance. *)
Fixpoint unique_from (seen l : list string) : list string :=
  match l with
  | [] => []
  | x :: rest =>
      if existsb (String.eqb x) seen then unique_from seen rest
      else x :: unique_from (x :: seen) rest
  end.

Definition unique (l : list string) : list string := unique_from [] l.

(** [create_nx_edge_from_trade_row]: the returned pair, or Python's [None]
    when the function falls off its last branch, and the lines printed. *)
Definition create_nx_edge_from_trade_row (row : TradeRow)
  : option (string * string) * list string :=
  if element row =? "Import Quantity" then (Some (partner row, reporter row), [])
  else if element row =? "Export Quantity"
       then (Some (reporter row, partner row), [])
       else (None, ["Unknown edge type: " ++ element row]%string).

(** [get_combined_trade_estimate]: subscripting the [None] that
    [get_edge_data] returns without edge is a [TypeError]. *)
Definition get_combined_trade_estimate (g : DiGraph) (u v : string)
           (new_amount : Q) : result Q :=
  match get_edge_data g u v with
  | Some a => Val ((a + new_amount) / 2)
  | None => Exc TypeError
  end.

(** The second loop of [__init__], over the rows of [trade_data]. *)
Fixpoint add_trade_rows (rows : list TradeRow) (g : DiGraph)
         (stdout : list string) : result DiGraph * list string :=
  match rows with
  | [] => (Val g, stdout)
  | row :: rest =>
      let (edge, printed) := create_nx_edge_from_trade_row row in
      let stdout' := stdout ++ printed in
      match edge with
      | None => (Exc TypeError, stdout')   (* ['Unspecified Area' in None] *)
      | Some (u, v) =>
          if (unspecified_area =? u) || (unspecified_area =? v)
          then add_trade_rows rest g stdout'
          else if has_edge g u v
               then match get_combined_trade_estimate g u v (value row) with
                    | Val a => add_trade_rows rest (add_edge g u v a) stdout'
                    | Exc e => (Exc e, stdout')
                    end
               else add_trade_rows rest (add_edge g u v (value row)) stdout'
      end
  end.

Section Construction.

(** The two lookup tables unpickled at import time, with the manual
    entries added to them; the data files are not part of the sources. *)
Variable name_to_iso_alpha : string -> option string.
Variable name_to_centroid : string -> option (Q * Q).

Definition get_iso_alpha_from_country_name (n : string) : result string :=
  match name_to_iso_alpha n with
  | Some i => Val i
  | None => Exc (KeyError n)
  end.

Definition get_lon_lat_from_country_name (n : string) : result (Q * Q) :=
  match name_to_centroid n with
  | Some c => Val c
  | None => Exc (KeyError n)
  end.

Definition country_attributes (country i : string) (c : Q * Q) : NodeData :=
  mkNodeData (Some country) (Some i) (Some c) (Some 0) (Some 0)
             (Some 0) (Some 0) (Some "") (Some "") (Some "") (Some "").

(** The first loop of [__init__], over [trade_data.partner.unique()]. *)
Fixpoint add_country_nodes (countries : list string) (g : DiGraph)
  : result DiGraph :=
  match countries with
  | [] => Val g
  | country :: rest =>
      if country =? unspecified_area then add_country_nodes rest g
      else
        i <~ get_iso_alpha_from_country_name country ;;
        c <~ get_lon_lat_from_country_name country ;;
        add_country_nodes rest
          (add_node g country (country_attributes country i c))
  end.

(** [TradeGraph.__init__]: the instance, or the exception that ended the
    construction, and what was printed. *)
Definition __init__ (trade_data : list TradeRow)
  : result TradeGraph * list string :=
  match add_country_nodes (unique (map partner trade_data)) empty_graph with
  | Exc e => (Exc e, [])
  | Val g0 =>
      match add_trade_rows trade_data g0 [] with
      | (Exc e, out) => (Exc e, out)
      | (Val g, out) =>
          (Val (mkTradeGraph g (py_sum (map amount (edges_data g)))), out)
      end
  end.

End Construction.

(** ** Queries *)

(** [self.G.get_edge_data(u, v)['amount']] *)
Definition edge_amount (g : DiGraph) (u v : string) : result Q :=
  match get_edge_data g u v with
  | Some a => Val a
  | None => Exc TypeError
  end.

Definition get_import_sum (g : DiGraph) (country : string) : result Q :=
  sum_gen (fun e => edge_amount g (fst e) country) (in_edges g country) 0.

Definition get_export_sum (g : DiGraph) (country : string) : result Q :=
  sum_gen (fun e => edge_amount g country (snd e)) (out_edges g country) 0.

Definition get_absolute_deficit (g : DiGraph) (source partner' : string)
           (reduction : Q) : result Q :=
  a <~ edge_amount g source partner' ;; Val (a * reduction).

Definition get_relative_deficit (g : DiGraph) (source partner' : string)
           (reduction : Q) : result Q :=
  a <~ get_absolute_deficit g source partner' reduction ;;
  s <~ get_import_sum g partner' ;;
  q <~ py_div a s ;;
  Val (q * 100).

(** [list_node_attributes('deficit')]: the values of the nodes that have the
    attribute, in node order. *)
Definition list_node_deficits (g : DiGraph) : list Q :=
  flat_map (fun p => match deficit (snd p) with
                     | Some x => [x]
                     | None => []
                     end) (nodes g).

(** ** Methods that mutate the instance *)

Inductive outcome (A : Type) : Type :=
| Ok (a : A) (self : TradeGraph)
| Raise (e : exn) (self : TradeGraph).

Arguments Ok {A} a self.
Arguments Raise {A} e self.

Definition M (A : Type) : Type := TradeGraph -> outcome A.

Definition ret {A} (a : A) : M A := fun self => Ok a self.

Definition bind {A B} (m : M A) (k : A -> M B) : M B :=
  fun self =>
    match m self with
    | Ok a self' => k a self'
    | Raise e self' => Raise e self'
    end.

Definition raise {A} (e : exn) : M A := fun self => Raise e self.

(** A query on the current graph. *)
Definition query {A} (q : DiGraph -> result A) : M A :=
  fun self =>
    match q (G self) with
    | Val a => Ok a self
    | Exc e => Raise e self
    end.

(** A networkx call that updates [self.G]. *)
Definition update (f : DiGraph -> DiGraph) : M unit :=
  fun self => Ok tt (mkTradeGraph (f (G self)) (sum_of_trade self)).

Notation "x <- m ;; k" := (bind m (fun x => k))
  (at level 61, m at next level, right associativity).
Notation "m ;;; k" := (bind m (fun _ => k))
  (at level 61, right associativity).

(** [for x in l: body(x)] *)
Fixpoint for_each {A} (l : list A) (body : A -> M unit) : M unit :=
  match l with
  | [] => ret tt
  | x :: rest => body x ;;; for_each rest body
  end.

(** The state in which a call leaves the instance, returned or raised. *)
Definition state_of {A} (o : outcome A) : TradeGraph :=
  match o with
  | Ok _ self => self
  | Raise _ self => self
  end.

Definition reset_deficits : M unit :=
  update (set_all_nodes (set_deficit 0)) ;;;
  update (set_all_nodes (set_deficit_relative 0)).

(** The dictionary comprehension of [apply_deficits], as its items. *)
Fixpoint deficit_items (g : DiGraph) (source : string) (reduction : Q)
         (out : list (string * string)) : result (list (string * Q)) :=
  match out with
  | [] => Val []
  | e :: rest =>
      d <~ node_deficit g (snd e) ;;
      a <~ get_absolute_deficit g source (snd e) reduction ;;
      items <~ deficit_items g source reduction rest ;;
      Val ((snd e, d + a) :: items)
  end.

Definition apply_deficits (source : string) (reduction : Q) : M unit :=
  values <- query (fun g => deficit_items g source reduction (out_edges g source)) ;;
  update (set_node_deficits values).

(** [(data['deficit'] / self.get_import_sum(country)) * 100], for the node
    [country] and its attributes [data]. *)
Definition relative_deficit_value (g : DiGraph) (country : string) : result Q :=
  match node_data g country with
  | None => Exc (KeyError country)
  | Some data =>
      match deficit data with
      | None => Exc (KeyError "deficit")
      | Some d =>
          s <~ get_import_sum g country ;;
          q <~ py_div d s ;;
          Val (q * 100)
      end
  end.

(** The body of the loop of [update_relative_deficits], for one node. *)
Definition update_relative_deficit (country : string) : M unit :=
  v <- query (fun g => relative_deficit_value g country) ;;
  update (set_node (set_deficit_relative v) country).

Definition update_relative_deficits : M unit :=
  fun self => for_each (map fst (nodes (G self))) update_relative_deficit self.

(** A scenario: the items of the dictionary, in order. *)
Definition Scenario : Type := list (string * Q).

(** The loop of [plot_export_restriction_scenario] over [scenario.items()]. *)
Definition restrict_source (item : string * Q) : M unit :=
  let (source, export_fraction) := item in
  fun self =>
    if has_node (G self) source
    then apply_deficits source (1 - export_fraction) self
    else raise (ValueError (source ++ " is not in graph")%string) self.

(** The first statements of [plot_export_restriction_scenario], up to the
    assignment of [total_relative_deficit]: the values of [total_deficits]
    and [total_relative_deficit]. *)
Definition scenario_totals (scenario : Scenario) : M (Q * Q) :=
  reset_deficits ;;;
  for_each scenario restrict_source ;;;
  total_deficits <- (fun self => Ok (py_sum (list_node_deficits (G self))) self) ;;
  q <- (fun self => match py_div total_deficits (sum_of_trade self) with
                   | Val q => Ok q self
                   | Exc e => Raise e self
                   end) ;;
  ret (total_deficits, q * 100).

(** [plot_export_restriction_scenario], up to the drawing of the figure; the
    two totals are what the figure is then drawn from. *)
Definition plot_export_restriction_scenario (scenario : Scenario) : M (Q * Q) :=
  totals <- scenario_totals scenario ;;
  update_relative_deficits ;;;
  ret totals.

(** ** Notions used in the statements *)

(** The mathematical sum of a list. *)
Definition Qsum (l : list Q) : Q := fold_right Qplus 0 l.

Definition node_names (g : DiGraph) : list string := map fst (nodes g).

(** What networkx guarantees of a [DiGraph]: the node table and the
    adjacency are dictionaries, and the end points of an edge are nodes. *)
Definition wf_graph (g : DiGraph) : Prop :=
  NoDup (node_names g) /\
  NoDup (map fst (edges g)) /\
  Forall (fun e => In (src e) (node_names g) /\ In (dst e) (node_names g))
         (edges g).

(** A node's attributes without the two deficit fields. *)
Definition erase_deficits (d : NodeData) : NodeData :=
  mkNodeData (name d) (iso d) (centroid d) (production d) (population d)
             None None
             (locust_start d) (locust_end d) (covid_start d) (covid_end d).

(** The graph without its deficit state: the nodes in order with their other
    attributes, and the edges with their amounts. *)
Definition skeleton (g : DiGraph) : DiGraph := set_all_nodes erase_deficits g.

(** A row whose element is one of the two that
    [create_nx_edge_from_trade_row] knows. *)
Definition recognised (row : TradeRow) : Prop :=
  element row = "Import Quantity" \/ element row = "Export Quantity".

(** Every source of the scenario is a node. *)
Definition valid_scenario (g : DiGraph) (scenario : Scenario) : Prop :=
  Forall (fun item => has_node g (fst item) = true) scenario.

(** The amount on the edge [s -> n], 0 without edge. *)
Definition contribution (g : DiGraph) (s n : string) : Q :=
  match get_edge_data g s n with
  | Some a => a
  | None => 0
  end.

(** What the sources of [scenario] withhold from [n], on the amounts of
    [g]. *)
Definition expected_deficit (g : DiGraph) (scenario : Scenario) (n : string)
  : Q :=
  Qsum (map (fun item => contribution g (fst item) n * (1 - snd item))
            scenario).

(** Every node carries a deficit, and it is the one [delta] gives. *)
Definition deficits_are (g : DiGraph) (delta : string -> Q) : Prop :=
  Forall (fun p => exists x, deficit (snd p) = Some x /\ x == delta (fst p))
         (nodes g).

(** ** Notions used in the proofs *)

(** What an evaluation must not change: everything but the deficit
    fields. *)
Definition static_view (self : TradeGraph) : DiGraph * Q :=
  (skeleton (G self), sum_of_trade self).

(** The deficit of every node, in order. *)
Definition deficit_view (self : TradeGraph) : list (string * option Q) :=
  map (fun p => (fst p, deficit (snd p))) (nodes (G self)).

(** Two instances that differ in their deficit fields only. *)
Definition same_static (self self' : TradeGraph) : Prop :=
  static_view self' = static_view self.

(** A method that leaves [view] as it finds it, whether it returns or
    raises. *)
Definition keeps {A V} (view : TradeGraph -> V) (m : M A) : Prop :=
  forall self, view (state_of (m self)) = view self.

(** The lookup tables and the graphs of the examples. *)
Definition example_iso (n : string) : option string := Some n.
Definition example_centroid (n : string) : option (Q * Q) := Some (0, 0).

Definition graph_of (trade_data : list TradeRow) : TradeGraph :=
  match fst (__init__ example_iso example_centroid trade_data) with
  | Val tg => tg
  | Exc _ => mkTradeGraph empty_graph 0
  end.

(** A exports 100 to B and 50 to C, as A reports it. *)
Definition example_rows : list TradeRow :=
  [mkRow "B" "A" "Export Quantity" 100; mkRow "C" "A" "Export Quantity" 50].

(** A exports 100 to B and nothing else is traded. *)
Definition one_edge_rows : list TradeRow :=
  [mkRow "B" "A" "Export Quantity" 100].

(** A exports 100 to B and B exports 40 to A. *)
Definition two_way_rows : list TradeRow :=
  [mkRow "B" "A" "Export Quantity" 100; mkRow "A" "B" "Export Quantity" 40].

(** Three reports of what A exports to B: by A, by B, and by A again. *)
Definition three_reports : list TradeRow :=
  [mkRow "B" "A" "Export Quantity" 100;
   mkRow "A" "B" "Import Quantity" 50;
   mkRow "B" "A" "Export Quantity" 30].

(** A and B both export to C, and C to both. *)
Definition shared_partner_rows : list TradeRow :=
  [mkRow "C" "A" "Export Quantity" 100;
   mkRow "C" "B" "Export Quantity" 60;
   mkRow "A" "C" "Export Quantity" 10;
   mkRow "B" "C" "Export Quantity" 20].

(** A row with an element that is neither an import nor an export. *)
Definition reexport_row : TradeRow := mkRow "B" "A" "Re-export" 5.

(** ** Further queries, and the numbers the figures are drawn from *)

(** A Python dictionary of numbers: its items in insertion order, with
    distinct keys. *)
Definition Dict : Type := list (string * Q).

(** [d[k] = v]: the value of an existing key is replaced where it stands, a
    new key goes to the end. *)
Fixpoint dict_set (k : string) (v : Q) (d : Dict) : Dict :=
  match d with
  | [] => [(k, v)]
  | kv :: rest =>
      if fst kv =? k then (fst kv, v) :: rest else kv :: dict_set k v rest
  end.

(** [d.get(k)] *)
Definition dict_get (k : string) (d : Dict) : option Q :=
  option_map snd (find (fun kv => fst kv =? k) d).

(** [{key(e): val(e) for e in l}], continued from the dictionary [d]. *)
Fixpoint dict_comprehension {A} (key : A -> string) (val : A -> result Q)
         (l : list A) (d : Dict) : result Dict :=
  match l with
  | [] => Val d
  | e :: rest =>
      v <~ val e ;; dict_comprehension key val rest (dict_set (key e) v d)
  end.

(** [[f(x) for x in l]] *)
Fixpoint list_comprehension {A B} (f : A -> result B) (l : list A)
  : result (list B) :=
  match l with
  | [] => Val []
  | x :: rest =>
      y <~ f x ;; ys <~ list_comprehension f rest ;; Val (y :: ys)
  end.

Definition get_export_dict (g : DiGraph) (country : string) : result Dict :=
  dict_comprehension snd (fun e => edge_amount g country (snd e))
                     (out_edges g country) [].

Definition get_import_dict (g : DiGraph) (country : string) : result Dict :=
  dict_comprehension fst (fun e => edge_amount g (fst e) country)
                     (in_edges g country) [].

(** [max(a, b)]: the second argument is returned only when it is greater. *)
Definition py_max2 (a b : Q) : Q := if Qle_bool b a then a else b.

(** [max(l)] with [best] the greatest item met so far. *)
Fixpoint py_max_from (best : Q) (l : list Q) : Q :=
  match l with
  | [] => best
  | x :: rest => py_max_from (if Qle_bool x best then best else x) rest
  end.

(** [max(l)]: a [ValueError] on the empty list. *)
Definition py_max (l : list Q) : result Q :=
  match l with
  | [] => Exc (ValueError "max() arg is an empty sequence")
  | x :: rest => Val (py_max_from x rest)
  end.

(** [plot_overall_trade_graph], up to the drawing: the list [weights], one
    width per edge of [self.G.edges()]. *)
Definition plot_overall_trade_graph (g : DiGraph) : result (list Q) :=
  let amounts := map amount (edges_data g) in
  max_amount <~ py_max amounts ;;
  list_comprehension
    (fun i => q <~ py_div (50 * i) max_amount ;; Val (py_max2 q (5 # 1000)))
    amounts.

(** [get_trade_line_width], the helper of
    [plot_export_restriction_scenario]: [self.G[u][v]] is a [KeyError] for
    a [u] that is not a node and for a [v] that [u] has no edge to. *)
Definition get_trade_line_width (g : DiGraph) (u v : string) : result Q :=
  if has_node g u
  then match get_edge_data g u v with
       | Some a => Val (py_max2 (a / 1000000) (1 # 100))
       | None => Exc (KeyError v)
       end
  else Exc (KeyError u).

(** One [go.Scattergeo] line of the figure: the two longitudes, the two
    latitudes and the width. *)
Record Trace : Type := mkTrace {
  lon : Q * Q;
  lat : Q * Q;
  line_width : Q
}.

(** [source in scenario] *)
Definition in_scenario (scenario : Scenario) (source : string) : bool :=
  existsb (fun item => fst item =? source) scenario.

Section Figure.

Variable name_to_centroid : string -> option (Q * Q).

(** The line drawn for one edge; the centroids are looked up for the source
    first and the partner second. *)
Definition trade_line (g : DiGraph) (e : Edge) : result Trace :=
  s <~ get_lon_lat_from_country_name name_to_centroid (src e) ;;
  p <~ get_lon_lat_from_country_name name_to_centroid (dst e) ;;
  w <~ get_trade_line_width g (src e) (dst e) ;;
  Val (mkTrace (fst s, fst p) (snd s, snd p) w).

(** The loop of [plot_export_restriction_scenario] over [self.G.edges()]
    that adds a line for every edge whose source is in the scenario. *)
Definition trade_lines (g : DiGraph) (scenario : Scenario)
  : result (list Trace) :=
  list_comprehension (trade_line g)
    (filter (fun e => in_scenario scenario (src e)) (edges_data g)).

End Figure.

(** The [deficit_relative] of every node, in order. *)
Definition relative_view (self : TradeGraph) : list (string * option Q) :=
  map (fun p => (fst p, deficit_relative (snd p))) (nodes (G self)).

(** The pair of countries a row reports on, when its element is known. *)
Definition reported_pair (row : TradeRow) : option (string * string) :=
  fst (create_nx_edge_from_trade_row row).

(** The row reports on the pair [u -> v] and [__init__] keeps it: neither
    country is the unspecified area. *)
Definition kept_pair (row : TradeRow) (u v : string) : Prop :=
  reported_pair row = Some (u, v) /\
  u <> unspecified_area /\ v <> unspecified_area.

(** The edge a kept row reports, with the reported value. *)
Definition report (row : TradeRow) : list Edge :=
  match reported_pair row with
  | Some (u, v) =>
      if (unspecified_area =? u) || (unspecified_area =? v) then []
      else [(u, v, value row)]
  | None => []
  end.

Definition reports (trade_data : list TradeRow) : list Edge :=
  flat_map report trade_data.

(** The attributes of a node of a constructed graph: those [__init__] gives
    to a partner, or none for a country that is never a partner. *)
Definition attributes_as_constructed
           (name_to_iso_alpha : string -> option string)
           (name_to_centroid : string -> option (Q * Q))
           (partners : list string) (p : string * NodeData) : Prop :=
  (In (fst p) partners /\
   exists i c, name_to_iso_alpha (fst p) = Some i /\
               name_to_centroid (fst p) = Some c /\
               snd p = country_attributes (fst p) i c) \/
  (~ In (fst p) partners /\ snd p = no_attributes).

(** A country that both lookup tables know. *)
Definition resolved (name_to_iso_alpha : string -> option string)
           (name_to_centroid : string -> option (Q * Q)) (c : string) : Prop :=
  name_to_iso_alpha c <> None /\ name_to_centroid c <> None.

(** B reports what it imports from A; B is never a partner. *)
Definition import_report_rows : list TradeRow :=
  [mkRow "A" "B" "Import Quantity" 100].

(** A table of iso codes that does not know C. *)
Definition iso_without_C (n : string) : option string :=
  if n =? "C" then None else Some n.

(** A is the only partner; C reports an import from A and an export to A. *)
Definition reporter_only_rows : list TradeRow :=
  [mkRow "A" "C" "Import Quantity" 100; mkRow "A" "C" "Export Quantity" 5].

(** Three reports of what A exports to B, with reports on other pairs in
    between. *)
Definition interleaved_reports : list TradeRow :=
  [mkRow "B" "A" "Export Quantity" 100;
   mkRow "C" "A" "Export Quantity" 7;
   mkRow "A" "B" "Import Quantity" 50;
   mkRow "A" "C" "Export Quantity" 1;
   mkRow "B" "A" "Export Quantity" 30].

(** ** The terms of the sums *)

(** The amounts on the outgoing edges of [country], in the order of
    [G.out_edges(country)], and on its incoming edges, in the order of
    [G.in_edges(country)]: the terms that [get_export_sum] and
    [get_import_sum] add from the left. *)
Definition out_amounts (g : DiGraph) (country : string) : list Q :=
  map amount (filter (fun e => src e =? country) (edges g)).

Definition in_amounts (g : DiGraph) (country : string) : list Q :=
  map amount (filter (fun e => dst e =? country) (edges g)).

(** The terms that an evaluation adds, one after the other, to the deficit
    of [n]: for every item of the scenario whose source has an edge to [n],
    in the order of the scenario, the amount of that edge times the share
    withheld. *)
Definition deficit_terms (g : DiGraph) (scenario : Scenario) (n : string)
  : list Q :=
  flat_map (fun item => match get_edge_data g (fst item) n with
                        | Some a => [a * (1 - snd item)]
                        | None => []
                        end) scenario.

(** The terms that one item of the scenario gives rise to: one for every
    outgoing edge of its source. *)
Definition withheld_terms (g : DiGraph) (item : string * Q) : list Q :=
  map (fun a => a * (1 - snd item)) (out_amounts g (fst item)).

(** Every node carries a deficit, and it is the very number [delta]
    gives. *)
Definition deficits_exactly (g : DiGraph) (delta : string -> Q) : Prop :=
  Forall (fun p => deficit (snd p) = Some (delta (fst p))) (nodes g).

(** ** The reports of one pair of countries *)

(** The row reports on the pair [u -> v] and [__init__] keeps it. *)
Definition reports_on (u v : string) (row : TradeRow) : bool :=
  match reported_pair row with
  | Some (x, y) =>
      (x =? u) && (y =? v) &&
      negb ((unspecified_area =? x) || (unspecified_area =? y))
  | None => false
  end.

(** The values that the rows report for [u -> v], in row order. *)
Definition reported_values (trade_data : list TradeRow) (u v : string)
  : list Q :=
  map value (filter (reports_on u v) trade_data).

(** What successive reports leave on an edge that carries [start] ([None]
    without edge): the first report as it is, every later one averaged with
    the amount reached so far. *)
Definition merge_reports (start : option Q) (values : list Q) : option Q :=
  fold_left (fun acc b => match acc with
                          | Some a => Some ((a + b) / 2)
                          | None => Some b
                          end) values start.

(** ** The evaluation followed by the lines of its figure *)

(** [plot_export_restriction_scenario] up to the lines of the figure: the
    evaluation, and then the loop over [self.G.edges()].  The choropleth
    built in between reads the node attributes that are present and cannot
    raise.  What is returned is the two totals and the lines drawn. *)
Definition plot_export_restriction_scenario_lines
           (name_to_centroid : string -> option (Q * Q)) (scenario : Scenario)
  : M (Q * Q * list Trace) :=
  totals <- plot_export_restriction_scenario scenario ;;
  traces <- query (fun g => trade_lines name_to_centroid g scenario) ;;
  ret (totals, traces).

(** ** The same program on binary64 numbers *)

(** Python's [float] is IEEE 754 binary64 and every operation rounds to
    nearest.  The definitions of this module are the definitions above,
    text for text, with [float] in the place of [Q]: the Python source is
    one text for both.  An int that the program mixes with floats (the 0
    that [deficit] starts from and that [sum] starts from, the 2 and the
    100) is the float of the same value, which is what Python converts it
    to before the operation.  [sum] adds from the left with one rounding
    per addition, as CPython does up to version 3.11.  The module is used
    to evaluate the program on concrete inputs. *)
Module Binary64.

#[local] Set Warnings "-inexact-float,-notation-overridden".

Local Open Scope float_scope.

(** [x / y]: Python tests the divisor with [== 0], which holds of both
    zeros. *)
Definition py_div (x y : float) : result float :=
  if (y =? 0) then Exc ZeroDivisionError else Val (x / y).

Fixpoint sum_gen {A} (f : A -> result float) (l : list A) (acc : float)
  : result float :=
  match l with
  | [] => Val acc
  | x :: rest => a <~ f x ;; sum_gen f rest (acc + a)
  end.

Definition py_sum (l : list float) : float := fold_left add l 0.

Record TradeRow : Type := mkRow {
  partner : string;
  reporter : string;
  element : string;
  value : float
}.

Record NodeData : Type := mkNodeData {
  name : option string;
  iso : option string;
  centroid : option (float * float);
  production : option float;
  population : option float;
  deficit : option float;
  deficit_relative : option float;
  locust_start : option string;
  locust_end : option string;
  covid_start : option string;
  covid_end : option string
}.

Definition no_attributes : NodeData :=
  mkNodeData None None None None None None None None None None None.

Definition set_deficit (v : float) (d : NodeData) : NodeData :=
  mkNodeData (name d) (iso d) (centroid d) (production d) (population d)
             (Some v) (deficit_relative d)
             (locust_start d) (locust_end d) (covid_start d) (covid_end d).

Definition set_deficit_relative (v : float) (d : NodeData) : NodeData :=
  mkNodeData (name d) (iso d) (centroid d) (production d) (population d)
             (deficit d) (Some v)
             (locust_start d) (locust_end d) (covid_start d) (covid_end d).

Definition Edge : Type := (string * string * float)%type.

Definition src (e : Edge) : string := fst (fst e).
Definition dst (e : Edge) : string := snd (fst e).
Definition amount (e : Edge) : float := snd e.

Record DiGraph : Type := mkDiGraph {
  nodes : list (string * NodeData);
  edges : list Edge
}.

Record TradeGraph : Type := mkTradeGraph {
  G : DiGraph;
  sum_of_trade : float
}.

Definition empty_graph : DiGraph := mkDiGraph [] [].

Definition node_is (n : string) (p : string * NodeData) : bool :=
  (fst p =? n)%string.

Definition has_node (g : DiGraph) (n : string) : bool :=
  existsb (node_is n) (nodes g).

Definition node_data (g : DiGraph) (n : string) : option NodeData :=
  option_map snd (find (node_is n) (nodes g)).

Definition add_node (g : DiGraph) (n : string) (d : NodeData) : DiGraph :=
  if has_node g n
  then mkDiGraph (map (fun p => if node_is n p then (n, d) else p) (nodes g))
                 (edges g)
  else mkDiGraph (nodes g ++ [(n, d)]) (edges g).

Definition ensure_node (g : DiGraph) (n : string) : DiGraph :=
  if has_node g n then g
  else mkDiGraph (nodes g ++ [(n, no_attributes)]) (edges g).

Definition edge_is (u v : string) (e : Edge) : bool :=
  ((src e =? u) && (dst e =? v))%string.

Definition has_edge (g : DiGraph) (u v : string) : bool :=
  existsb (edge_is u v) (edges g).

Definition get_edge_data (g : DiGraph) (u v : string) : option float :=
  option_map amount (find (edge_is u v) (edges g)).

Definition add_edge (g : DiGraph) (u v : string) (a : float) : DiGraph :=
  let g' := ensure_node (ensure_node g u) v in
  if has_edge g' u v
  then mkDiGraph (nodes g')
                 (map (fun e => if edge_is u v e then (u, v, a) else e)
                      (edges g'))
  else mkDiGraph (nodes g') (edges g' ++ [(u, v, a)]).

Definition out_edges (g : DiGraph) (country : string) : list (string * string) :=
  map fst (filter (fun e => (src e =? country)%string) (edges g)).

Definition in_edges (g : DiGraph) (country : string) : list (string * string) :=
  map fst (filter (fun e => (dst e =? country)%string) (edges g)).

Definition edges_data (g : DiGraph) : list Edge :=
  flat_map (fun p => filter (fun e => (src e =? fst p)%string) (edges g))
           (nodes g).

Definition set_all_nodes (f : NodeData -> NodeData) (g : DiGraph) : DiGraph :=
  mkDiGraph (map (fun p => (fst p, f (snd p))) (nodes g)) (edges g).

Definition set_node (f : NodeData -> NodeData) (n : string) (g : DiGraph)
  : DiGraph :=
  mkDiGraph (map (fun p => if node_is n p then (fst p, f (snd p)) else p)
                 (nodes g))
            (edges g).

Definition set_node_deficits (values : list (string * float)) (g : DiGraph)
  : DiGraph :=
  fold_left (fun g' kv => set_node (set_deficit (snd kv)) (fst kv) g') values g.

Definition node_deficit (g : DiGraph) (n : string) : result float :=
  match node_data g n with
  | Some d =>
      match deficit d with
      | Some x => Val x
      | None => Exc (KeyError n)
      end
  | None => Exc (KeyError n)
  end.

Definition create_nx_edge_from_trade_row (row : TradeRow)
  : option (string * string) * list string :=
  if (element row =? "Import Quantity")%string
  then (Some (partner row, reporter row), [])
  else if (element row =? "Export Quantity")%string
       then (Some (reporter row, partner row), [])
       else (None, ["Unknown edge type: " ++ element row]%string).

Definition get_combined_trade_estimate (g : DiGraph) (u v : string)
           (new_amount : float) : result float :=
  match get_edge_data g u v with
  | Some a => Val ((a + new_amount) / 2)
  | None => Exc TypeError
  end.

Fixpoint add_trade_rows (rows : list TradeRow) (g : DiGraph)
         (stdout : list string) : result DiGraph * list string :=
  match rows with
  | [] => (Val g, stdout)
  | row :: rest =>
      let (edge, printed) := create_nx_edge_from_trade_row row in
      let stdout' := stdout ++ printed in
      match edge with
      | None => (Exc TypeError, stdout')
      | Some (u, v) =>
          if ((unspecified_area =? u) || (unspecified_area =? v))%string
          then add_trade_rows rest g stdout'
          else if has_edge g u v
               then match get_combined_trade_estimate g u v (value row) with
                    | Val a => add_trade_rows rest (add_edge g u v a) stdout'
                    | Exc e => (Exc e, stdout')
                    end
               else add_trade_rows rest (add_edge g u v (value row)) stdout'
      end
  end.

Section Construction.

Variable name_to_iso_alpha : string -> option string.
Variable name_to_centroid : string -> option (float * float).

Definition get_lon_lat_from_country_name (n : string)
  : result (float * float) :=
  match name_to_centroid n with
  | Some c => Val c
  | None => Exc (KeyError n)
  end.

Definition country_attributes (country i : string) (c : float * float)
  : NodeData :=
  mkNodeData (Some country) (Some i) (Some c) (Some 0) (Some 0)
             (Some 0) (Some 0) (Some "") (Some "") (Some "") (Some "")%string.

Fixpoint add_country_nodes (countries : list string) (g : DiGraph)
  : result DiGraph :=
  match countries with
  | [] => Val g
  | country :: rest =>
      if (country =? unspecified_area)%string then add_country_nodes rest g
      else
        i <~ get_iso_alpha_from_country_name name_to_iso_alpha country ;;
        c <~ get_lon_lat_from_country_name country ;;
        add_country_nodes rest
          (add_node g country (country_attributes country i c))
  end.

Definition __init__ (trade_data : list TradeRow)
  : result TradeGraph * list string :=
  match add_country_nodes (unique (map partner trade_data)) empty_graph with
  | Exc e => (Exc e, [])
  | Val g0 =>
      match add_trade_rows trade_data g0 [] with
      | (Exc e, out) => (Exc e, out)
      | (Val g, out) =>
          (Val (mkTradeGraph g (py_sum (map amount (edges_data g)))), out)
      end
  end.

End Construction.

Definition edge_amount (g : DiGraph) (u v : string) : result float :=
  match get_edge_data g u v with
  | Some a => Val a
  | None => Exc TypeError
  end.

Definition get_import_sum (g : DiGraph) (country : string) : result float :=
  sum_gen (fun e => edge_amount g (fst e) country) (in_edges g country) 0.

Definition get_export_sum (g : DiGraph) (country : string) : result float :=
  sum_gen (fun e => edge_amount g country (snd e)) (out_edges g country) 0.

Definition get_absolute_deficit (g : DiGraph) (source partner' : string)
           (reduction : float) : result float :=
  a <~ edge_amount g source partner' ;; Val (a * reduction).

Definition get_relative_deficit (g : DiGraph) (source partner' : string)
           (reduction : float) : result float :=
  a <~ get_absolute_deficit g source partner' reduction ;;
  s <~ get_import_sum g partner' ;;
  q <~ py_div a s ;;
  Val (q * 100).

Definition list_node_deficits (g : DiGraph) : list float :=
  flat_map (fun p => match deficit (snd p) with
                     | Some x => [x]
                     | None => []
                     end) (nodes g).

Inductive outcome (A : Type) : Type :=
| Ok (a : A) (self : TradeGraph)
| Raise (e : exn) (self : TradeGraph).

Arguments Ok {A} a self.
Arguments Raise {A} e self.

Definition M (A : Type) : Type := TradeGraph -> outcome A.

Definition ret {A} (a : A) : M A := fun self => Ok a self.

Definition bind {A B} (m : M A) (k : A -> M B) : M B :=
  fun self =>
    match m self with
    | Ok a self' => k a self'
    | Raise e self' => Raise e self'
    end.

Definition raise {A} (e : exn) : M A := fun self => Raise e self.

Definition query {A} (q : DiGraph -> result A) : M A :=
  fun self =>
    match q (G self) with
    | Val a => Ok a self
    | Exc e => Raise e self
    end.

Definition update (f : DiGraph -> DiGraph) : M unit :=
  fun self => Ok tt (mkTradeGraph (f (G self)) (sum_of_trade self)).

#[local] Notation "x <- m ;; k" := (bind m (fun x => k))
  (at level 61, m at next level, right associativity).
#[local] Notation "m ;;; k" := (bind m (fun _ => k))
  (at level 61, right associativity).

Fixpoint for_each {A} (l : list A) (body : A -> M unit) : M unit :=
  match l with
  | [] => ret tt
  | x :: rest => body x ;;; for_each rest body
  end.

Definition state_of {A} (o : outcome A) : TradeGraph :=
  match o with
  | Ok _ self => self
  | Raise _ self => self
  end.

Definition reset_deficits : M unit :=
  update (set_all_nodes (set_deficit 0)) ;;;
  update (set_all_nodes (set_deficit_relative 0)).

Fixpoint deficit_items (g : DiGraph) (source : string) (reduction : float)
         (out : list (string * string)) : result (list (string * float)) :=
  match out with
  | [] => Val []
  | e :: rest =>
      d <~ node_deficit g (snd e) ;;
      a <~ get_absolute_deficit g source (snd e) reduction ;;
      items <~ deficit_items g source reduction rest ;;
      Val ((snd e, d + a) :: items)
  end.

Definition apply_deficits (source : string) (reduction : float) : M unit :=
  values <- query (fun g => deficit_items g source reduction (out_edges g source)) ;;
  update (set_node_deficits values).

Definition relative_deficit_value (g : DiGraph) (country : string)
  : result float :=
  match node_data g country with
  | None => Exc (KeyError country)
  | Some data =>
      match deficit data with
      | None => Exc (KeyError "deficit")
      | Some d =>
          s <~ get_import_sum g country ;;
          q <~ py_div d s ;;
          Val (q * 100)
      end
  end.

Definition update_relative_deficit (country : string) : M unit :=
  v <- query (fun g => relative_deficit_value g country) ;;
  update (set_node (set_deficit_relative v) country).

Definition update_relative_deficits : M unit :=
  fun self => for_each (map fst (nodes (G self))) update_relative_deficit self.

Definition Scenario : Type := list (string * float).

Definition restrict_source (item : string * float) : M unit :=
  let (source, export_fraction) := item in
  fun self =>
    if has_node (G self) source
    then apply_deficits source (1 - export_fraction) self
    else raise (ValueError (source ++ " is not in graph")%string) self.

Definition scenario_totals (scenario : Scenario) : M (float * float) :=
  reset_deficits ;;;
  for_each scenario restrict_source ;;;
  total_deficits <- (fun self => Ok (py_sum (list_node_deficits (G self))) self) ;;
  q <- (fun self => match py_div total_deficits (sum_of_trade self) with
                   | Val q => Ok q self
                   | Exc e => Raise e self
                   end) ;;
  ret (total_deficits, q * 100).

Definition plot_export_restriction_scenario (scenario : Scenario)
  : M (float * float) :=
  totals <- scenario_totals scenario ;;
  update_relative_deficits ;;;
  ret totals.

(** The graphs of the examples, with the lookup tables of the examples
    above. *)
Definition graph_of (trade_data : list TradeRow) : TradeGraph :=
  match fst (__init__ example_iso (fun _ => Some (0, 0)) trade_data) with
  | Val tg => tg
  | Exc _ => mkTradeGraph empty_graph 0
  end.

(** A exports 100 to B and 50 to C, as A reports it. *)
Definition example_rows : list TradeRow :=
  [mkRow "B" "A" "Export Quantity" 100; mkRow "C" "A" "Export Quantity" 50].

(** S1, S2 and S3 each export 100 to P, and P exports 1 to each of them. *)
Definition three_sources_rows : list TradeRow :=
  [mkRow "P" "S1" "Export Quantity" 100;
   mkRow "P" "S2" "Export Quantity" 100;
   mkRow "P" "S3" "Export Quantity" 100;
   mkRow "S1" "P" "Export Quantity" 1;
   mkRow "S2" "P" "Export Quantity" 1;
   mkRow "S3" "P" "Export Quantity" 1].

(** A exports 0.3 to D, 0.2 to C and 0.1 to B, in this order, and imports 1
    from B, which A reports after its export to D: the nodes are D, B, C
    and A. *)
Definition rounding_rows : list TradeRow :=
  [mkRow "D" "A" "Export Quantity" 0.3;
   mkRow "B" "A" "Import Quantity" 1;
   mkRow "C" "A" "Export Quantity" 0.2;
   mkRow "B" "A" "Export Quantity" 0.1].

(** A exports 0.3 to P and 0.2 to R, and B exports 0.1 to P. *)
Definition grouping_rows : list TradeRow :=
  [mkRow "P" "A" "Export Quantity" 0.3;
   mkRow "R" "A" "Export Quantity" 0.2;
   mkRow "P" "B" "Export Quantity" 0.1].

End Binary64.

(** * Properties *)

(** ** The deficit computation leaves the rest of the instance alone *)

Lemma same_static_refl self : same_static self self.
Proof. reflexivity. Qed.

Lemma same_static_trans a b c :
  same_static a b -> same_static b c -> same_static a c.
Proof. unfold same_static. congruence. Qed.

Lemma same_static_fields self self' :
  same_static self self' <->
  skeleton (G self') = skeleton (G self) /\
  sum_of_trade self' = sum_of_trade self.
Proof.
  unfold same_static, static_view. split.
  - intro H. split; [exact (f_equal fst H) | exact (f_equal snd H)].
  - intros [H1 H2]. now rewrite H1, H2.
Qed.

Section Keeps.

Context {V : Type} (view : TradeGraph -> V).

Lemma keeps_ret {A} (a : A) : keeps view (ret a).
Proof. intro self. reflexivity. Qed.

Lemma keeps_bind {A B} (m : M A) (k : A -> M B) :
  keeps view m -> (forall a, keeps view (k a)) -> keeps view (bind m k).
Proof.
  intros Hm Hk self. unfold bind.
  specialize (Hm self). destruct (m self) as [a s1 | e s1]; simpl in *.
  - now rewrite Hk.
  - exact Hm.
Qed.

Lemma keeps_query {A} (q : DiGraph -> result A) : keeps view (query q).
Proof. intro self. unfold query. now destruct (q (G self)). Qed.

Lemma keeps_update (f : DiGraph -> DiGraph) :
  (forall self, view (mkTradeGraph (f (G self)) (sum_of_trade self)) =
                view self) ->
  keeps view (update f).
Proof. intros Hf self. apply Hf. Qed.

Lemma keeps_for_each {A} (l : list A) (body : A -> M unit) :
  (forall x, keeps view (body x)) -> keeps view (for_each l body).
Proof.
  intro Hb. induction l as [| x l IH]; simpl.
  - apply keeps_ret.
  - apply keeps_bind; auto.
Qed.

End Keeps.

Lemma static_update (f : DiGraph -> DiGraph) :
  (forall g, skeleton (f g) = skeleton g) -> keeps static_view (update f).
Proof.
  intro Hf. apply keeps_update. intro self. unfold static_view. simpl.
  now rewrite Hf.
Qed.

Lemma skeleton_set_all (f : NodeData -> NodeData) g :
  (forall d, erase_deficits (f d) = erase_deficits d) ->
  skeleton (set_all_nodes f g) = skeleton g.
Proof.
  intro Hf. unfold skeleton, set_all_nodes. simpl. f_equal.
  rewrite map_map. apply map_ext. intros [n d]. simpl. now rewrite Hf.
Qed.

Lemma skeleton_set_node (f : NodeData -> NodeData) n g :
  (forall d, erase_deficits (f d) = erase_deficits d) ->
  skeleton (set_node f n g) = skeleton g.
Proof.
  intro Hf. unfold skeleton, set_node, set_all_nodes. simpl. f_equal.
  rewrite map_map. apply map_ext. intros [m d].
  destruct (node_is n (m, d)); simpl; [now rewrite Hf | reflexivity].
Qed.

Lemma skeleton_set_node_deficits values g :
  skeleton (set_node_deficits values g) = skeleton g.
Proof.
  unfold set_node_deficits. revert g.
  induction values as [| kv values IH]; intro g; simpl.
  - reflexivity.
  - rewrite IH. now apply skeleton_set_node.
Qed.

Lemma preserves_reset_deficits : keeps static_view reset_deficits.
Proof.
  unfold reset_deficits. apply keeps_bind; [| intros _];
    apply static_update; intro g; now apply skeleton_set_all.
Qed.

Lemma preserves_apply_deficits source reduction :
  keeps static_view (apply_deficits source reduction).
Proof.
  unfold apply_deficits. apply keeps_bind.
  - apply keeps_query.
  - intro values. apply static_update. apply skeleton_set_node_deficits.
Qed.

Lemma preserves_restrict_source item : keeps static_view (restrict_source item).
Proof.
  destruct item as [source f]. intro self. simpl.
  destruct (has_node (G self) source).
  - apply preserves_apply_deficits.
  - reflexivity.
Qed.

Lemma preserves_update_relative_deficits : keeps static_view update_relative_deficits.
Proof.
  intro self. unfold update_relative_deficits.
  apply keeps_for_each. intro country.
  unfold update_relative_deficit. apply keeps_bind.
  - apply keeps_query.
  - intro v. apply static_update. intro g. now apply skeleton_set_node.
Qed.

Lemma preserves_scenario_totals scenario : keeps static_view (scenario_totals scenario).
Proof.
  unfold scenario_totals.
  apply keeps_bind; [apply preserves_reset_deficits | intros _].
  apply keeps_bind;
    [apply keeps_for_each, preserves_restrict_source | intros _].
  apply keeps_bind; [intro self; reflexivity | intro t].
  apply keeps_bind; [| intro q; apply keeps_ret].
  intro self. destruct (py_div t (sum_of_trade self)); reflexivity.
Qed.

Lemma preserves_plot scenario :
  keeps static_view (plot_export_restriction_scenario scenario).
Proof.
  unfold plot_export_restriction_scenario.
  apply keeps_bind; [apply preserves_scenario_totals | intro totals].
  apply keeps_bind; [apply preserves_update_relative_deficits | intros _].
  apply keeps_ret.
Qed.

(** What equal skeletons mean, field by field. *)
Lemma skeleton_fields g g' :
  skeleton g' = skeleton g ->
  edges g' = edges g /\
  Forall2 (fun p p' =>
             fst p' = fst p /\
             name (snd p') = name (snd p) /\
             iso (snd p') = iso (snd p) /\
             centroid (snd p') = centroid (snd p) /\
             production (snd p') = production (snd p) /\
             population (snd p') = population (snd p) /\
             locust_start (snd p') = locust_start (snd p) /\
             locust_end (snd p') = locust_end (snd p) /\
             covid_start (snd p') = covid_start (snd p) /\
             covid_end (snd p') = covid_end (snd p))
          (nodes g) (nodes g').
Proof.
  unfold skeleton, set_all_nodes. intro H. injection H as Hn He.
  split; [exact He |]. clear He.
  remember (nodes g) as l eqn:El. remember (nodes g') as l' eqn:El'.
  clear El El'. revert l' Hn.
  induction l as [| [n d] l IH]; intros [| [n' d'] l'] Hn; simpl in Hn;
    try discriminate; constructor.
  - injection Hn; intros. simpl. repeat split; assumption.
  - apply IH. injection Hn; intros; assumption.
Qed.

Lemma skeleton_edges_data g g' :
  skeleton g' = skeleton g -> edges_data g' = edges_data g.
Proof.
  intro H. unfold edges_data.
  assert (He : edges g' = edges g) by (apply skeleton_fields, H).
  rewrite He.
  assert (Hn : map fst (nodes g') = map fst (nodes g)).
  { unfold skeleton, set_all_nodes in H. injection H as Hn _.
    apply (f_equal (map fst)) in Hn. rewrite !map_map in Hn. exact Hn. }
  rewrite !(flat_map_concat_map).
  f_equal.
  rewrite <- (map_map fst (fun n => filter (fun e => src e =? n) (edges g))).
  rewrite <- (map_map fst (fun n => filter (fun e => src e =? n) (edges g)) (nodes g)).
  now rewrite Hn.
Qed.

(** C9.  An evaluation, whether it returns or raises, changes only the
    [deficit] and [deficit_relative] attributes of the nodes: the edges and
    their amounts, the nodes in order with every other attribute (iso code
    and centroid among them), the stored [sum_of_trade] and the sum that
    [__init__] would compute from the edges are what they were. *)
Theorem evaluation_frame (scenario : Scenario) (self : TradeGraph) :
  let self' := state_of (plot_export_restriction_scenario scenario self) in
  edges (G self') = edges (G self) /\
  Forall2 (fun p p' =>
             fst p' = fst p /\
             name (snd p') = name (snd p) /\
             iso (snd p') = iso (snd p) /\
             centroid (snd p') = centroid (snd p) /\
             production (snd p') = production (snd p) /\
             population (snd p') = population (snd p) /\
             locust_start (snd p') = locust_start (snd p) /\
             locust_end (snd p') = locust_end (snd p) /\
             covid_start (snd p') = covid_start (snd p) /\
             covid_end (snd p') = covid_end (snd p))
          (nodes (G self)) (nodes (G self')) /\
  sum_of_trade self' = sum_of_trade self /\
  py_sum (map amount (edges_data (G self'))) =
  py_sum (map amount (edges_data (G self))).
Proof.
  intro self'.
  destruct (proj1 (same_static_fields _ _) (preserves_plot scenario self))
    as [Hs Ht].
  fold self' in Hs, Ht.
  destruct (skeleton_fields _ _ Hs) as [He Hn].
  repeat split; try assumption.
  now rewrite (skeleton_edges_data _ _ Hs).
Qed.

(** ** Reset *)

Lemma reset_deficits_static self self' :
  same_static self self' -> reset_deficits self' = reset_deficits self.
Proof.
  intro H. apply same_static_fields in H. destruct H as [Hs Ht].
  unfold reset_deficits, bind, update. simpl.
  rewrite Ht. do 2 f_equal.
  unfold skeleton, set_all_nodes in *. simpl. injection Hs as Hn He.
  rewrite He. f_equal. rewrite !map_map.
  apply (f_equal (map (fun p => (fst p, set_deficit_relative 0 (set_deficit 0 (snd p)))))) in Hn.
  rewrite !map_map in Hn. simpl in Hn. exact Hn.
Qed.

Lemma plot_static scenario self self' :
  same_static self self' ->
  plot_export_restriction_scenario scenario self' =
  plot_export_restriction_scenario scenario self.
Proof.
  intro H. unfold plot_export_restriction_scenario, scenario_totals.
  unfold bind at 1 2. unfold bind at 2 3.
  now rewrite (reset_deficits_static _ _ H).
Qed.

(** C6.  Whatever a first evaluation did, returned or raised, a second one
    has the outcome (the two totals or the exception, and every node's
    attributes afterwards) that it has on the instance as it was before the
    first: each run starts by putting the deficit fields back to 0. *)
Theorem evaluation_has_no_residue (scenario1 scenario2 : Scenario)
        (self : TradeGraph) :
  plot_export_restriction_scenario scenario2
    (state_of (plot_export_restriction_scenario scenario1 self)) =
  plot_export_restriction_scenario scenario2 self.
Proof. apply plot_static, preserves_plot. Qed.

(** ** Sums *)

Lemma fold_left_Qplus (l : list Q) (acc : Q) :
  fold_left Qplus l acc == acc + Qsum l.
Proof.
  revert acc. induction l as [| x l IH]; intro acc; simpl.
  - lra.
  - rewrite IH. lra.
Qed.

Lemma py_sum_Qsum (l : list Q) : py_sum l == Qsum l.
Proof. unfold py_sum. rewrite fold_left_Qplus. lra. Qed.

Lemma Qsum_app (l1 l2 : list Q) : Qsum (l1 ++ l2) == Qsum l1 + Qsum l2.
Proof.
  induction l1 as [| x l1 IH]; simpl; [lra | rewrite IH; lra].
Qed.

Lemma Qsum_map_ext {A} (f h : A -> Q) (l : list A) :
  (forall x, In x l -> f x == h x) -> Qsum (map f l) == Qsum (map h l).
Proof.
  induction l as [| x l IH]; intro H; simpl; [reflexivity |].
  rewrite (H x (or_introl eq_refl)), IH; [reflexivity |].
  intros y Hy. apply H. now right.
Qed.

Lemma Qsum_map_plus {A} (f h : A -> Q) (l : list A) :
  Qsum (map (fun x => f x + h x) l) == Qsum (map f l) + Qsum (map h l).
Proof.
  induction l as [| x l IH]; simpl; [lra | rewrite IH; lra].
Qed.

Lemma Qsum_map_scale {A} (f : A -> Q) (c : Q) (l : list A) :
  Qsum (map (fun x => f x * c) l) == Qsum (map f l) * c.
Proof.
  induction l as [| x l IH]; simpl; [lra | rewrite IH; lra].
Qed.

Lemma Qsum_map_zero {A} (l : list A) : Qsum (map (fun _ => 0) l) == 0.
Proof. induction l as [| x l IH]; simpl; [lra | rewrite IH; lra]. Qed.

Lemma Qsum_perm (l l' : list Q) : Permutation l l' -> Qsum l == Qsum l'.
Proof.
  induction 1; simpl; lra.
Qed.

Lemma Qsum_nonneg (l : list Q) : Forall (fun x => 0 <= x) l -> 0 <= Qsum l.
Proof. induction 1; simpl; lra. Qed.

(** One term per name: the names are distinct and [x] is one of them. *)
Lemma Qsum_indicator (names : list string) (x : string) (a : Q) :
  NoDup names -> In x names ->
  Qsum (map (fun n => if x =? n then a else 0) names) == a.
Proof.
  induction 1 as [| y names Hy Hnd IH]; intro Hin; [destruct Hin |].
  simpl. destruct (String.eqb_spec x y) as [-> | Hne].
  - rewrite (Qsum_map_ext _ (fun _ => 0)), Qsum_map_zero; [lra |].
    intros n Hn. destruct (String.eqb_spec y n) as [-> | _];
      [contradiction | reflexivity].
  - destruct Hin as [-> | Hin]; [contradiction |]. rewrite IH by exact Hin. lra.
Qed.

(** Grouping the edges by one of their end points loses none of them. *)
Lemma Qsum_partition (key : Edge -> string) (names : list string)
      (es : list Edge) :
  NoDup names -> Forall (fun e => In (key e) names) es ->
  Qsum (map (fun n => Qsum (map amount (filter (fun e => key e =? n) es)))
            names)
  == Qsum (map amount es).
Proof.
  intros Hnd. induction 1 as [| e es He _ IH]; simpl.
  - apply Qsum_map_zero.
  - rewrite (Qsum_map_ext _
      (fun n => (if key e =? n then amount e else 0) +
                Qsum (map amount (filter (fun e' => key e' =? n) es)))).
    + rewrite Qsum_map_plus, IH, Qsum_indicator by assumption. reflexivity.
    + intros n _. destruct (key e =? n); simpl; lra.
Qed.

(** ** Lookups in a well-formed graph *)

Lemma edge_is_true u v e : edge_is u v e = true <-> src e = u /\ dst e = v.
Proof.
  unfold edge_is. rewrite andb_true_iff, !String.eqb_eq. reflexivity.
Qed.

Lemma edge_key (e : Edge) : fst e = (src e, dst e).
Proof. destruct e as [[u v] a]. reflexivity. Qed.

Lemma find_edge_unique (es : list Edge) (e : Edge) :
  NoDup (map fst es) -> In e es -> find (edge_is (src e) (dst e)) es = Some e.
Proof.
  induction es as [| e' es IH]; intros Hnd Hin; [destruct Hin |].
  simpl in *. inversion Hnd as [| k ks Hk Hnd']; subst.
  destruct Hin as [-> | Hin].
  - replace (edge_is (src e) (dst e) e) with true; [reflexivity |].
    symmetry. now apply edge_is_true.
  - destruct (edge_is (src e) (dst e) e') eqn:E; [| now apply IH].
    apply edge_is_true in E. destruct E as [E1 E2].
    exfalso. apply Hk. rewrite (edge_key e'), E1, E2, <- edge_key.
    now apply in_map.
Qed.

Lemma get_edge_data_in g e :
  NoDup (map fst (edges g)) -> In e (edges g) ->
  get_edge_data g (src e) (dst e) = Some (amount e).
Proof.
  intros Hnd Hin. unfold get_edge_data.
  now rewrite (find_edge_unique _ _ Hnd Hin).
Qed.

Lemma get_edge_data_none g u v :
  (forall e, In e (edges g) -> src e = u -> dst e <> v) ->
  get_edge_data g u v = None.
Proof.
  intro H. unfold get_edge_data.
  destruct (find (edge_is u v) (edges g)) as [e |] eqn:E; [| reflexivity].
  apply find_some in E. destruct E as [Hin E]. apply edge_is_true in E.
  destruct E as [E1 E2]. now elim (H e Hin E1).
Qed.

Lemma get_edge_data_some g u v a :
  get_edge_data g u v = Some a ->
  exists e, In e (edges g) /\ src e = u /\ dst e = v /\ amount e = a.
Proof.
  unfold get_edge_data.
  destruct (find (edge_is u v) (edges g)) as [e |] eqn:E; [| discriminate].
  intro H. injection H as H. apply find_some in E. destruct E as [Hin E].
  apply edge_is_true in E. exists e. tauto.
Qed.

Lemma has_node_in g n : has_node g n = true <-> In n (node_names g).
Proof.
  unfold has_node, node_names. rewrite existsb_exists, in_map_iff.
  split; intros [p [H1 H2]]; exists p.
  - unfold node_is in H2. apply String.eqb_eq in H2. tauto.
  - unfold node_is. rewrite String.eqb_eq. tauto.
Qed.

Lemma node_data_in g n :
  In n (node_names g) ->
  exists d, node_data g n = Some d /\ In (n, d) (nodes g).
Proof.
  intro Hin. unfold node_data.
  destruct (find (node_is n) (nodes g)) as [[m d] |] eqn:E.
  - apply find_some in E. destruct E as [Hp E].
    unfold node_is in E. simpl in E. apply String.eqb_eq in E. subst m.
    exists d. split; [reflexivity | exact Hp].
  - exfalso. unfold node_names in Hin. apply in_map_iff in Hin.
    destruct Hin as [p [Hp1 Hp2]].
    apply (find_none _ _ E) in Hp2. unfold node_is in Hp2.
    rewrite Hp1, String.eqb_refl in Hp2. discriminate.
Qed.

Lemma node_deficit_val g delta n :
  deficits_are g delta -> In n (node_names g) ->
  exists x, node_deficit g n = Val x /\ x == delta n.
Proof.
  intros Hd Hin. destruct (node_data_in g n Hin) as [d [E Hp]].
  unfold deficits_are in Hd. rewrite Forall_forall in Hd.
  destruct (Hd _ Hp) as [x [Hx1 Hx2]]. simpl in *.
  exists x. unfold node_deficit. rewrite E, Hx1. split; [reflexivity | exact Hx2].
Qed.

Lemma deficits_are_ext g delta delta' :
  (forall n, delta n == delta' n) -> deficits_are g delta ->
  deficits_are g delta'.
Proof.
  intros He Hd. unfold deficits_are in *. rewrite Forall_forall in *.
  intros p Hp. destruct (Hd p Hp) as [x [H1 H2]]. exists x.
  split; [exact H1 | now rewrite <- He].
Qed.

Lemma total_deficits_sum g delta :
  deficits_are g delta ->
  py_sum (list_node_deficits g) == Qsum (map delta (node_names g)).
Proof.
  intro Hd. rewrite py_sum_Qsum. unfold list_node_deficits, node_names.
  unfold deficits_are in Hd. induction Hd as [| p l [x [H1 H2]] _ IH]; simpl.
  - reflexivity.
  - rewrite H1. simpl. rewrite IH, H2. reflexivity.
Qed.

(** ** What is independent of the deficit fields *)

Lemma skeleton_names_edges g g' :
  skeleton g' = skeleton g ->
  node_names g' = node_names g /\ edges g' = edges g.
Proof.
  unfold skeleton, set_all_nodes, node_names. intro H. injection H as Hn He.
  split; [| exact He].
  apply (f_equal (map fst)) in Hn. rewrite !map_map in Hn. exact Hn.
Qed.

Lemma wf_graph_static g g' :
  skeleton g' = skeleton g -> wf_graph g -> wf_graph g'.
Proof.
  intro H. destruct (skeleton_names_edges _ _ H) as [Hn He].
  unfold wf_graph. now rewrite Hn, He.
Qed.

Lemma valid_scenario_static g g' scenario :
  skeleton g' = skeleton g -> valid_scenario g scenario ->
  valid_scenario g' scenario.
Proof.
  intro H. destruct (skeleton_names_edges _ _ H) as [Hn _].
  unfold valid_scenario. rewrite !Forall_forall. intros Hv item Hi.
  apply has_node_in. rewrite Hn. apply has_node_in. now apply Hv.
Qed.

Lemma contribution_static g g' s n :
  skeleton g' = skeleton g -> contribution g' s n = contribution g s n.
Proof.
  intro H. destruct (skeleton_names_edges _ _ H) as [_ He].
  unfold contribution, get_edge_data. now rewrite He.
Qed.

Lemma expected_deficit_static g g' scenario n :
  skeleton g' = skeleton g ->
  expected_deficit g' scenario n = expected_deficit g scenario n.
Proof.
  intro H. unfold expected_deficit. f_equal. apply map_ext. intro item.
  now rewrite (contribution_static _ _ _ _ H).
Qed.

(** ** One restricting source *)

Lemma nodes_fold_set_node {A} (key : A -> string)
      (F : A -> NodeData -> NodeData) (l : list A) (g : DiGraph) :
  nodes (fold_left (fun g' a => set_node (F a) (key a) g') l g) =
  map (fun p => (fst p,
                 fold_left (fun d a => if fst p =? key a then F a d else d)
                           l (snd p)))
      (nodes g).
Proof.
  revert g. induction l as [| a l IH]; intro g; simpl.
  - rewrite <- (map_id (nodes g)) at 1. apply map_ext. now intros [n d].
  - rewrite IH. unfold set_node. simpl. rewrite map_map. apply map_ext.
    intros [n d]. unfold node_is. simpl. now destruct (n =? key a).
Qed.

Lemma filter_keys_NoDup (keep : Edge -> bool) (es : list Edge) :
  NoDup (map fst es) -> NoDup (map fst (filter keep es)).
Proof.
  induction es as [| e es IH]; simpl; intro H; [constructor |].
  inversion H as [| k ks Hk Hnd]; subst.
  destruct (keep e); simpl; [constructor |]; auto.
  intro Hin. apply Hk. apply in_map_iff in Hin. destruct Hin as [e' [E1 E2]].
  apply filter_In in E2. apply in_map_iff. exists e'. tauto.
Qed.

Lemma NoDup_dst_of_source (s : string) (L : list Edge) :
  NoDup (map fst L) -> Forall (fun e => src e = s) L -> NoDup (map dst L).
Proof.
  induction L as [| e L IH]; simpl; intros Hnd Hs; [constructor |].
  inversion Hnd as [| k ks Hk Hnd']; subst.
  inversion Hs as [| e' L' He HL]; subst.
  constructor; [| now apply IH].
  intro Hin. apply Hk. apply in_map_iff in Hin. destruct Hin as [e' [E1 E2]].
  apply in_map_iff. exists e'. split; [| exact E2].
  rewrite Forall_forall in HL. rewrite (edge_key e'), (edge_key e).
  now rewrite E1, (HL _ E2).
Qed.

(** The items of the dictionary comprehension of [apply_deficits]. *)
Lemma deficit_items_val g delta s r (L : list Edge) :
  NoDup (map fst (edges g)) -> deficits_are g delta ->
  Forall (fun e => In e (edges g) /\ src e = s /\ In (dst e) (node_names g)) L ->
  exists items,
    deficit_items g s r (map fst L) = Val items /\
    Forall2 (fun e kv => fst kv = dst e /\
                         snd kv == delta (dst e) + amount e * r) L items.
Proof.
  intros Hnd Hd. induction 1 as [| e L [Hin [Hs Hn]] _ [items [E F]]]; simpl.
  - exists []. split; [reflexivity | constructor].
  - destruct (node_deficit_val g delta (dst e) Hd Hn) as [x [Hx1 Hx2]].
    change (snd (fst e)) with (dst e). rewrite Hx1. simpl.
    unfold get_absolute_deficit, edge_amount.
    rewrite <- Hs, (get_edge_data_in g e Hnd Hin). simpl.
    rewrite Hs, E. simpl. eexists. split; [reflexivity |].
    constructor; [| exact F]. simpl. split; [reflexivity |].
    now rewrite Hx2.
Qed.

(** The deficit a node ends with when the items are assigned in order. *)
Lemma fold_items_deficit delta r n (L : list Edge) (items : list (string * Q)) :
  Forall2 (fun e kv => fst kv = dst e /\
                       snd kv == delta (dst e) + amount e * r) L items ->
  NoDup (map dst L) ->
  forall d x, deficit d = Some x ->
  exists x',
    deficit (fold_left (fun d' kv => if n =? fst kv
                                     then set_deficit (snd kv) d' else d')
                       items d) = Some x' /\
    (((forall e, In e L -> dst e <> n) /\ x' = x) \/
     (exists e, In e L /\ dst e = n /\ x' == delta n + amount e * r)).
Proof.
  induction 1 as [| e kv L items [Hk Hv] _ IH]; intros Hnd d x Hx; simpl.
  - exists x. split; [exact Hx |]. left. split; [intros e [] | reflexivity].
  - inversion Hnd as [| k ks Hnk Hnd']; subst.
    destruct (String.eqb_spec n (fst kv)) as [En | En].
    + destruct (IH Hnd' (set_deficit (snd kv) d) (snd kv) eq_refl)
        as [x' [Hx' [[Hno Hsame] | [e' [He1 [He2 _]]]]]].
      * exists x'. split; [exact Hx' |]. right. exists e.
        split; [now left |]. split; [congruence |].
        rewrite Hsame, Hv. now rewrite <- Hk, <- En.
      * exfalso. apply Hnk. rewrite <- Hk, <- En, <- He2. now apply in_map.
    + destruct (IH Hnd' d x Hx) as [x' [Hx' [[Hno Hsame] | [e' [He1 He2]]]]];
        exists x'; (split; [exact Hx' |]).
      * left. split; [| exact Hsame].
        intros e' [<- | He']; [congruence | now apply Hno].
      * right. exists e'. split; [now right | exact He2].
Qed.

Lemma apply_deficits_spec self delta s r :
  wf_graph (G self) -> deficits_are (G self) delta ->
  exists self',
    apply_deficits s r self = Ok tt self' /\
    deficits_are (G self') (fun n => delta n + contribution (G self) s n * r).
Proof.
  intros [Hnn [Hne Hends]] Hd.
  set (g := G self) in *.
  set (L := filter (fun e => src e =? s) (edges g)).
  assert (HL : Forall (fun e => In e (edges g) /\ src e = s /\
                                 In (dst e) (node_names g)) L).
  { apply Forall_forall. intros e He. apply filter_In in He.
    destruct He as [He Es]. apply String.eqb_eq in Es.
    rewrite Forall_forall in Hends. split; [exact He |].
    split; [exact Es | now apply Hends]. }
  destruct (deficit_items_val g delta s r L Hne Hd HL) as [items [E F]].
  unfold apply_deficits, bind, query, update, out_edges. fold g. fold L.
  rewrite E. eexists. split; [reflexivity |]. simpl.
  assert (HndL : NoDup (map dst L)).
  { apply (NoDup_dst_of_source s).
    - now apply filter_keys_NoDup.
    - eapply Forall_impl; [| exact HL]. simpl. tauto. }
  unfold deficits_are, set_node_deficits.
  rewrite (nodes_fold_set_node fst (fun kv => set_deficit (snd kv))).
  apply Forall_forall. intros p' Hp'. apply in_map_iff in Hp'.
  destruct Hp' as [p [<- Hp]]. simpl.
  unfold deficits_are in Hd. rewrite Forall_forall in Hd.
  destruct (Hd p Hp) as [x [Hx1 Hx2]].
  destruct (fold_items_deficit delta r (fst p) L items F HndL (snd p) x Hx1)
    as [x' [Hx' [[Hno Hsame] | [e [He1 [He2 He3]]]]]];
    exists x'; (split; [exact Hx' |]).
  - unfold contribution. rewrite get_edge_data_none.
    + rewrite Hsame, Hx2. lra.
    + intros e He Es. apply Hno. apply filter_In. split; [exact He |].
      now apply String.eqb_eq.
  - rewrite Forall_forall in HL. destruct (HL e He1) as [Hin [Es _]].
    unfold contribution. rewrite <- Es, <- He2.
    rewrite (get_edge_data_in g e Hne Hin). rewrite He3, He2. reflexivity.
Qed.

(** ** All the restricting sources *)

Lemma for_each_restrict_spec (scenario : Scenario) :
  forall self delta,
    wf_graph (G self) -> valid_scenario (G self) scenario ->
    deficits_are (G self) delta ->
    exists self',
      for_each scenario restrict_source self = Ok tt self' /\
      same_static self self' /\
      deficits_are (G self')
                   (fun n => delta n + expected_deficit (G self) scenario n).
Proof.
  induction scenario as [| [s f] scenario IH]; intros self delta Hwf Hv Hd.
  - exists self. split; [reflexivity |]. split; [apply same_static_refl |].
    eapply deficits_are_ext; [| exact Hd]. intro n.
    unfold expected_deficit. simpl. lra.
  - inversion Hv as [| item items Hs Hv']; subst. simpl in Hs.
    destruct (apply_deficits_spec self delta s (1 - f) Hwf Hd)
      as [self1 [E1 Hd1]].
    assert (Hst : same_static self self1).
    { generalize (preserves_apply_deficits s (1 - f) self). now rewrite E1. }
    destruct (proj1 (same_static_fields _ _) Hst) as [Hsk Hsum].
    destruct (IH self1 _ (wf_graph_static _ _ Hsk Hwf)
                (valid_scenario_static _ _ _ Hsk Hv') Hd1)
      as [self2 [E2 [Hst2 Hd2]]].
    exists self2. split; [| split].
    + simpl. unfold bind. rewrite Hs, E1. exact E2.
    + eapply same_static_trans; [exact Hst | exact Hst2].
    + eapply deficits_are_ext; [| exact Hd2]. intro n. simpl.
      rewrite (expected_deficit_static _ _ _ _ Hsk).
      unfold expected_deficit. simpl. lra.
Qed.

Lemma deficits_are_reset g :
  deficits_are
    (set_all_nodes (set_deficit_relative 0) (set_all_nodes (set_deficit 0) g))
    (fun _ => 0).
Proof.
  unfold deficits_are, set_all_nodes. simpl. rewrite map_map.
  apply Forall_forall. intros p Hp. apply in_map_iff in Hp.
  destruct Hp as [q [<- _]]. simpl. exists 0. split; reflexivity.
Qed.

(** The first half of an evaluation, on a well-formed graph and a scenario
    whose sources are nodes: the state it reaches and what it returns. *)
Lemma scenario_totals_spec (scenario : Scenario) (self : TradeGraph) :
  wf_graph (G self) -> valid_scenario (G self) scenario ->
  exists self1,
    same_static self self1 /\
    deficits_are (G self1) (expected_deficit (G self) scenario) /\
    for_each scenario restrict_source (state_of (reset_deficits self)) =
    Ok tt self1 /\
    scenario_totals scenario self =
    match py_div (py_sum (list_node_deficits (G self1))) (sum_of_trade self)
    with
    | Val q => Ok (py_sum (list_node_deficits (G self1)), q * 100) self1
    | Exc e => Raise e self1
    end.
Proof.
  intros Hwf Hv.
  pose proof (preserves_reset_deficits self) as Hst0.
  destruct (reset_deficits self) as [[] self0 | e self0] eqn:E0;
    [| discriminate E0].
  simpl in Hst0. apply same_static_fields in Hst0. destruct Hst0 as [Hsk0 Hsum0].
  assert (Hd0 : deficits_are (G self0) (fun _ => 0)).
  { unfold reset_deficits, bind, update in E0. injection E0 as <-.
    apply deficits_are_reset. }
  destruct (for_each_restrict_spec scenario self0 _
              (wf_graph_static _ _ Hsk0 Hwf)
              (valid_scenario_static _ _ _ Hsk0 Hv) Hd0)
    as [self1 [E1 [Hst1 Hd1]]].
  destruct (proj1 (same_static_fields _ _) Hst1) as [Hsk1 Hsum1].
  exists self1. split; [| split; [| split]].
  - apply same_static_fields. split; congruence.
  - eapply deficits_are_ext; [| exact Hd1]. intro n. simpl.
    rewrite (expected_deficit_static _ _ _ _ Hsk0). lra.
  - exact E1.
  - unfold scenario_totals. unfold bind at 1. rewrite E0.
    unfold bind at 1. simpl in E1. rewrite E1.
    unfold bind, ret. rewrite Hsum1, Hsum0.
    now destruct (py_div _ (sum_of_trade self)).
Qed.

(** ** The relative deficits *)

Lemma deficit_view_set_relative v n self :
  deficit_view (mkTradeGraph (set_node (set_deficit_relative v) n (G self))
                             (sum_of_trade self)) =
  deficit_view self.
Proof.
  unfold deficit_view, set_node. simpl. rewrite map_map. apply map_ext.
  intros [m d]. now destruct (node_is n (m, d)).
Qed.

Lemma keeps_deficits_update_relative_deficits :
  keeps deficit_view update_relative_deficits.
Proof.
  intro self. unfold update_relative_deficits.
  apply keeps_for_each. intro country.
  unfold update_relative_deficit. apply keeps_bind.
  - apply keeps_query.
  - intro v. apply keeps_update. apply deficit_view_set_relative.
Qed.

Lemma deficits_are_view self self' delta :
  deficit_view self' = deficit_view self ->
  deficits_are (G self) delta -> deficits_are (G self') delta.
Proof.
  unfold deficit_view, deficits_are. intros Hv Hd.
  assert (H : forall l : list (string * NodeData),
             Forall (fun p => exists x, deficit (snd p) = Some x /\
                                        x == delta (fst p)) l <->
             Forall (fun q => exists x, snd q = Some x /\ x == delta (fst q))
                    (map (fun p => (fst p, deficit (snd p))) l)).
  { intro l. rewrite Forall_map. reflexivity. }
  apply H. rewrite Hv. now apply H.
Qed.

(** The state and the deficits an evaluation ends with, returned or
    raised, on a well-formed graph and a scenario whose sources are nodes. *)
Lemma plot_deficits (scenario : Scenario) (self : TradeGraph) :
  wf_graph (G self) -> valid_scenario (G self) scenario ->
  deficits_are (G (state_of (plot_export_restriction_scenario scenario self)))
               (expected_deficit (G self) scenario).
Proof.
  intros Hwf Hv.
  destruct (scenario_totals_spec scenario self Hwf Hv)
    as [self1 [Hst [Hd [_ E]]]].
  unfold plot_export_restriction_scenario. unfold bind at 1. rewrite E.
  destruct (py_div _ (sum_of_trade self)) as [q | e]; [| exact Hd].
  apply (deficits_are_view self1); [| exact Hd].
  transitivity (deficit_view (state_of (update_relative_deficits self1))).
  - unfold bind, ret. now destruct (update_relative_deficits self1).
  - apply keeps_deficits_update_relative_deficits.
Qed.

(** Exact arithmetic.  On a well-formed graph, for a scenario whose sources
    are nodes and any reordering of its items, the two evaluations leave
    every node with deficits that are equal as rationals; each deficit is
    the sum, over the items, of the amount on the edge from the source, as
    it is in the graph before the evaluation, times the share withheld.
    With floats the two deficits are sums of the same terms in two orders,
    and can differ by the rounding of the additions. *)
Theorem deficits_independent_of_source_order
        (scenario scenario' : Scenario) (self : TradeGraph) :
  wf_graph (G self) -> valid_scenario (G self) scenario ->
  Permutation scenario scenario' ->
  let g1 := G (state_of (plot_export_restriction_scenario scenario self)) in
  let g2 := G (state_of (plot_export_restriction_scenario scenario' self)) in
  deficits_are g1 (expected_deficit (G self) scenario) /\
  deficits_are g2 (expected_deficit (G self) scenario) /\
  Forall2 (fun p1 p2 =>
             fst p1 = fst p2 /\
             exists x1 x2, deficit (snd p1) = Some x1 /\
                           deficit (snd p2) = Some x2 /\ x1 == x2)
          (nodes g1) (nodes g2).
Proof.
  intros Hwf Hv Hp g1 g2.
  assert (Hv' : valid_scenario (G self) scenario').
  { unfold valid_scenario in *. now rewrite <- Hp. }
  assert (H1 : deficits_are g1 (expected_deficit (G self) scenario))
    by now apply plot_deficits.
  assert (H2 : deficits_are g2 (expected_deficit (G self) scenario)).
  { eapply deficits_are_ext; [| now apply plot_deficits].
    intro n. unfold expected_deficit. apply Qsum_perm.
    apply Permutation_map. now symmetry. }
  split; [exact H1 |]. split; [exact H2 |].
  assert (Hn : node_names g1 = node_names g2).
  { pose proof (preserves_plot scenario self) as S1.
    pose proof (preserves_plot scenario' self) as S2.
    apply same_static_fields in S1, S2.
    destruct (skeleton_names_edges _ _ (proj1 S1)) as [N1 _].
    destruct (skeleton_names_edges _ _ (proj1 S2)) as [N2 _].
    subst g1 g2. congruence. }
  unfold deficits_are, node_names in *. clearbody g1 g2.
  remember (nodes g1) as l1 eqn:E1. remember (nodes g2) as l2 eqn:E2.
  clear E1 E2. revert l2 H2 Hn.
  induction H1 as [| p1 l1 [x1 [Hx1 Hx1']] _ IH]; intros [| p2 l2] H2 Hn;
    try discriminate; constructor.
  - inversion H2 as [| ? ? [x2 [Hx2 Hx2']] _]; subst.
    injection Hn as Hn _. split; [exact Hn |].
    exists x1, x2. split; [exact Hx1 |]. split; [exact Hx2 |].
    now rewrite Hx1', Hx2', Hn.
  - inversion H2; subst. apply IH; [assumption | now injection Hn].
Qed.

(** ** Export and import sums *)

Lemma sum_gen_map_val {A B} (k : B -> A) (f : A -> result Q) (h : B -> Q)
      (l : list B) (acc : Q) :
  (forall x, In x l -> f (k x) = Val (h x)) ->
  sum_gen f (map k l) acc = Val (fold_left Qplus (map h l) acc).
Proof.
  revert acc. induction l as [| x l IH]; intros acc H; simpl; [reflexivity |].
  rewrite (H x (or_introl eq_refl)). simpl. apply IH.
  intros y Hy. apply H. now right.
Qed.

Lemma get_export_sum_val g s :
  NoDup (map fst (edges g)) ->
  get_export_sum g s =
  Val (py_sum (map amount (filter (fun e => src e =? s) (edges g)))).
Proof.
  intro Hnd. unfold get_export_sum, out_edges, py_sum.
  apply sum_gen_map_val. intros e He. apply filter_In in He.
  destruct He as [He Es]. apply String.eqb_eq in Es.
  unfold edge_amount. change (snd (fst e)) with (dst e).
  now rewrite <- Es, (get_edge_data_in g e Hnd He).
Qed.

Lemma get_import_sum_val g n :
  NoDup (map fst (edges g)) ->
  get_import_sum g n =
  Val (py_sum (map amount (filter (fun e => dst e =? n) (edges g)))).
Proof.
  intro Hnd. unfold get_import_sum, in_edges, py_sum.
  apply sum_gen_map_val. intros e He. apply filter_In in He.
  destruct He as [He Es]. apply String.eqb_eq in Es.
  unfold edge_amount. change (fst (fst e)) with (src e).
  now rewrite <- Es, (get_edge_data_in g e Hnd He).
Qed.

(** The amount on [s -> n] is all that [s] exports to [n]. *)
Lemma contribution_filter (es : list Edge) (s n : string) :
  NoDup (map fst es) ->
  match option_map amount (find (edge_is s n) es) with
  | Some a => a
  | None => 0
  end ==
  Qsum (map amount (filter (fun e => dst e =? n)
                           (filter (fun e => src e =? s) es))).
Proof.
  induction es as [| e es IH]; intro Hnd; simpl; [reflexivity |].
  inversion Hnd as [| k ks Hk Hnd']; subst. specialize (IH Hnd').
  unfold edge_is at 1.
  destruct (String.eqb_spec (src e) s) as [Es | Es]; simpl.
  - destruct (String.eqb_spec (dst e) n) as [En | En]; simpl.
    + rewrite <- IH.
      destruct (find (edge_is s n) es) as [e' |] eqn:E; simpl; [| lra].
      exfalso. apply find_some in E. destruct E as [Hin E].
      apply edge_is_true in E. destruct E as [E1 E2]. apply Hk.
      rewrite (edge_key e), Es, En, <- E1, <- E2, <- edge_key.
      now apply in_map.
    + exact IH.
  - exact IH.
Qed.

Lemma contribution_sum_over_nodes g s :
  wf_graph g ->
  Qsum (map (contribution g s) (node_names g)) ==
  Qsum (map amount (filter (fun e => src e =? s) (edges g))).
Proof.
  intros [Hnn [Hne Hends]].
  rewrite <- (Qsum_partition dst (node_names g)
                (filter (fun e => src e =? s) (edges g)) Hnn).
  - apply Qsum_map_ext. intros n _. unfold contribution, get_edge_data.
    now apply contribution_filter.
  - apply Forall_forall. intros e He. apply filter_In in He.
    rewrite Forall_forall in Hends. now apply Hends.
Qed.

Lemma expected_deficit_total g (scenario : Scenario) :
  wf_graph g ->
  Qsum (map (expected_deficit g scenario) (node_names g)) ==
  Qsum (map (fun item =>
               Qsum (map amount (filter (fun e => src e =? fst item) (edges g)))
               * (1 - snd item))
            scenario).
Proof.
  intro Hwf. induction scenario as [| [s f] scenario IH]; simpl.
  - unfold expected_deficit. simpl. apply Qsum_map_zero.
  - rewrite <- IH, <- (contribution_sum_over_nodes g s Hwf).
    rewrite <- Qsum_map_scale, <- Qsum_map_plus.
    apply Qsum_map_ext. intros n _. unfold expected_deficit. simpl. lra.
Qed.

(** Exact arithmetic.  On a well-formed graph with non-negative amounts and
    a scenario whose sources are nodes and whose values lie in (0, 1], the
    export sum of every source is defined, and the total of the deficits,
    the one the evaluation computes and returns as well as the one of the
    state it leaves, is at most the sum of these export sums.  With floats
    the two sides add their terms in different orders, and the rounded
    total can exceed the rounded export sum. *)
Theorem total_deficit_bounded_by_exports
        (scenario : Scenario) (self : TradeGraph) :
  wf_graph (G self) ->
  Forall (fun e => 0 <= amount e) (edges (G self)) ->
  valid_scenario (G self) scenario ->
  Forall (fun item => 0 < snd item /\ snd item <= 1) scenario ->
  exists exports,
    Forall2 (fun item x => get_export_sum (G self) (fst item) = Val x)
            scenario exports /\
    py_sum (list_node_deficits
              (G (state_of (plot_export_restriction_scenario scenario self))))
    <= py_sum exports /\
    (forall t q self',
        plot_export_restriction_scenario scenario self = Ok (t, q) self' ->
        t <= py_sum exports).
Proof.
  intros Hwf Hpos Hv Hf.
  set (g := G self) in *.
  set (X := fun s => py_sum (map amount (filter (fun e => src e =? s) (edges g)))).
  exists (map (fun item => X (fst item)) scenario).
  assert (HX : forall s, 0 <= X s).
  { intro s. unfold X. rewrite py_sum_Qsum. apply Qsum_nonneg.
    apply Forall_map. apply Forall_forall. intros e He.
    apply filter_In in He. rewrite Forall_forall in Hpos. now apply Hpos. }
  assert (Hbound : forall g', deficits_are g' (expected_deficit g scenario) ->
                              node_names g' = node_names g ->
                              py_sum (list_node_deficits g') <=
                              py_sum (map (fun item => X (fst item)) scenario)).
  { intros g' Hd Hn.
    rewrite (total_deficits_sum g' _ Hd), Hn, (expected_deficit_total g _ Hwf).
    rewrite py_sum_Qsum. clear Hd Hn Hv.
    induction Hf as [| [s f] sc [Hf1 Hf2] _ IH]; simpl; [lra |].
    specialize (HX s). unfold X in HX at 1. rewrite py_sum_Qsum in HX.
    unfold X at 1. rewrite py_sum_Qsum.
    set (x := Qsum (map amount (filter (fun e => src e =? s) (edges g)))) in *.
    simpl in Hf1, Hf2. assert (x * (1 - f) <= x) by nra. lra. }
  assert (Hfinal : py_sum (list_node_deficits
              (G (state_of (plot_export_restriction_scenario scenario self))))
    <= py_sum (map (fun item => X (fst item)) scenario)).
  { apply Hbound; [now apply plot_deficits |].
    pose proof (preserves_plot scenario self) as S1.
    apply same_static_fields in S1.
    now destruct (skeleton_names_edges _ _ (proj1 S1)). }
  split; [| split; [exact Hfinal |]].
  - destruct Hwf as [_ [Hne _]]. clear - Hne.
    induction scenario as [| item sc IH]; simpl; constructor; [| exact IH].
    now apply get_export_sum_val.
  - intros t q self' E.
    destruct (scenario_totals_spec scenario self Hwf Hv)
      as [self1 [Hst [Hd [_ E1]]]].
    unfold plot_export_restriction_scenario in E. unfold bind at 1 in E.
    rewrite E1 in E.
    destruct (py_div _ (sum_of_trade self)) as [q1 | e]; [| discriminate E].
    unfold bind, ret in E.
    destruct (update_relative_deficits self1); [| discriminate E].
    injection E as <- _ _. apply Hbound; [exact Hd |].
    apply same_static_fields in Hst.
    now destruct (skeleton_names_edges _ _ (proj1 Hst)).
Qed.

Lemma node_data_unique g n dat :
  NoDup (node_names g) -> In (n, dat) (nodes g) -> node_data g n = Some dat.
Proof.
  unfold node_names, node_data.
  induction (nodes g) as [| [m d] l IH]; simpl; intros Hnd Hin; [destruct Hin |].
  inversion Hnd as [| k ks Hk Hnd']; subst. unfold node_is at 1. simpl.
  destruct (String.eqb_spec m n) as [-> | Hne].
  - destruct Hin as [Hin | Hin]; [now injection Hin as -> |].
    exfalso. apply Hk. apply in_map_iff. now exists (n, dat).
  - destruct Hin as [Hin | Hin]; [injection Hin as -> _; contradiction |].
    now apply IH.
Qed.

Lemma node_data_set_node f m g n :
  node_data (set_node f m g) n =
  option_map (fun d => if n =? m then f d else d) (node_data g n).
Proof.
  unfold node_data, set_node. simpl.
  induction (nodes g) as [| [k d] l IH]; simpl; [reflexivity |].
  unfold node_is in *. simpl.
  destruct (String.eqb_spec k m) as [Hkm | Hkm]; simpl;
    destruct (String.eqb_spec k n) as [Hkn | Hkn]; simpl; try exact IH.
  - subst. now rewrite String.eqb_refl.
  - subst. destruct (String.eqb_spec n m); [congruence | reflexivity].
Qed.

Lemma relative_deficit_value_set_relative v m g n :
  relative_deficit_value (set_node (set_deficit_relative v) m g) n =
  relative_deficit_value g n.
Proof.
  unfold relative_deficit_value. rewrite node_data_set_node.
  destruct (node_data g n) as [d |]; simpl; [| reflexivity].
  now destruct (n =? m).
Qed.

(** The loop of [update_relative_deficits] when every division is defined. *)
Lemma update_loop_ok (h : string -> Q) (l : list string) :
  forall self,
    (forall n, In n l -> relative_deficit_value (G self) n = Val (h n)) ->
    for_each l update_relative_deficit self =
    Ok tt (mkTradeGraph
             (fold_left (fun g n => set_node (set_deficit_relative (h n)) n g)
                        l (G self))
             (sum_of_trade self)).
Proof.
  induction l as [| n l IH]; intros self H; simpl.
  - now destruct self.
  - unfold bind, update_relative_deficit at 1, query, update. unfold bind.
    rewrite (H n (or_introl eq_refl)). rewrite IH; [reflexivity |].
    intros k Hk. simpl. rewrite relative_deficit_value_set_relative.
    apply H. now right.
Qed.

(** The loop when one of the divisions is by zero. *)
Lemma update_loop_raises (l : list string) :
  forall self,
    (forall n, In n l ->
               (exists v, relative_deficit_value (G self) n = Val v) \/
               relative_deficit_value (G self) n = Exc ZeroDivisionError) ->
    (exists n, In n l /\
               relative_deficit_value (G self) n = Exc ZeroDivisionError) ->
    exists self',
      for_each l update_relative_deficit self = Raise ZeroDivisionError self'.
Proof.
  induction l as [| n l IH]; intros self Hall [n0 [Hin Hn0]]; [destruct Hin |].
  simpl. unfold bind, update_relative_deficit at 1, query, update. unfold bind.
  destruct (Hall n (or_introl eq_refl)) as [[v Hv] | He].
  - rewrite Hv. apply IH.
    + intros k Hk. simpl. rewrite relative_deficit_value_set_relative.
      apply Hall. now right.
    + exists n0. simpl. rewrite relative_deficit_value_set_relative.
      split; [| exact Hn0]. destruct Hin as [<- | Hin]; [| exact Hin].
      rewrite Hv in Hn0. discriminate.
  - rewrite He. now exists self.
Qed.

Lemma fold_set_relative (h : string -> Q) (m : string) (l : list string)
      (d : NodeData) :
  let d' := fold_left (fun d0 n => if m =? n
                                   then set_deficit_relative (h n) d0 else d0)
                      l d in
  deficit d' = deficit d /\
  (In m l -> deficit_relative d' = Some (h m)).
Proof.
  induction l as [| n l IH] using rev_ind; simpl.
  - split; [reflexivity | intros []].
  - rewrite fold_left_app. simpl. destruct IH as [IH1 IH2].
    destruct (String.eqb_spec m n) as [<- | Hne]; simpl.
    + split; [exact IH1 | reflexivity].
    + split; [exact IH1 |]. intro Hin. apply in_app_or in Hin.
      destruct Hin as [Hin | [Hin | []]]; [now apply IH2 | congruence].
Qed.

Lemma get_import_sum_static g g' n :
  skeleton g' = skeleton g -> get_import_sum g' n = get_import_sum g n.
Proof.
  intro H. destruct (skeleton_names_edges _ _ H) as [_ He].
  unfold get_import_sum, in_edges, edge_amount, get_edge_data.
  now rewrite He.
Qed.

Lemma py_div_cases (x y : Q) :
  (y == 0 /\ py_div x y = Exc ZeroDivisionError) \/
  (~ y == 0 /\ py_div x y = Val (x / y)).
Proof.
  unfold py_div. destruct (Qeq_bool y 0) eqn:E.
  - left. split; [now apply Qeq_bool_eq | reflexivity].
  - right. split; [| reflexivity]. intro H. apply Qeq_eq_bool in H. congruence.
Qed.

(** The value [update_relative_deficits] computes for a node. *)
Lemma relative_deficit_value_node g n dat d :
  wf_graph g -> In (n, dat) (nodes g) -> deficit dat = Some d ->
  exists s,
    get_import_sum g n = Val s /\
    ((s == 0 /\ relative_deficit_value g n = Exc ZeroDivisionError) \/
     (~ s == 0 /\ relative_deficit_value g n = Val (d / s * 100))).
Proof.
  intros [Hnn [Hne _]] Hin Hd.
  exists (py_sum (map amount (filter (fun e => dst e =? n) (edges g)))).
  split; [now apply get_import_sum_val |].
  unfold relative_deficit_value.
  rewrite (node_data_unique g n dat Hnn Hin), Hd, (get_import_sum_val g n Hne).
  simpl.
  destruct (py_div_cases d (py_sum (map amount
              (filter (fun e => dst e =? n) (edges g))))) as [[H1 H2] | [H1 H2]];
    rewrite H2; simpl; [left | right]; split; auto.
Qed.

Lemma deficits_are_node g delta n :
  deficits_are g delta -> In n (node_names g) ->
  exists dat d, In (n, dat) (nodes g) /\ deficit dat = Some d.
Proof.
  intros Hd Hin. unfold node_names in Hin. apply in_map_iff in Hin.
  destruct Hin as [[m dat] [Hm Hp]]. simpl in Hm. subst m.
  unfold deficits_are in Hd. rewrite Forall_forall in Hd.
  destruct (Hd _ Hp) as [x [Hx _]]. now exists dat, x.
Qed.

(** C1.  On a well-formed graph and a scenario whose sources are nodes, the
    relative deficit is the plain quotient and nothing guards the division.
    If some node has an import sum of zero the evaluation raises
    [ZeroDivisionError].  If no node has, and [sum_of_trade] is not zero,
    the evaluation returns and every node's [deficit_relative] is its
    deficit divided by its import sum, times 100. *)
Theorem relative_deficit_divides_by_import_sum
        (scenario : Scenario) (self : TradeGraph) :
  wf_graph (G self) -> valid_scenario (G self) scenario ->
  ((exists n s, In n (node_names (G self)) /\
                get_import_sum (G self) n = Val s /\ s == 0) ->
   exists self',
     plot_export_restriction_scenario scenario self =
     Raise ZeroDivisionError self') /\
  ((forall n, In n (node_names (G self)) ->
              exists s, get_import_sum (G self) n = Val s /\ ~ s == 0) ->
   ~ sum_of_trade self == 0 ->
   exists t q self',
     plot_export_restriction_scenario scenario self = Ok (t, q) self' /\
     Forall (fun p => exists d s,
                 deficit (snd p) = Some d /\
                 get_import_sum (G self) (fst p) = Val s /\
                 deficit_relative (snd p) = Some (d / s * 100))
            (nodes (G self'))).
Proof.
  intros Hwf Hv.
  destruct (scenario_totals_spec scenario self Hwf Hv)
    as [self1 [Hst [Hd [_ E]]]].
  destruct (proj1 (same_static_fields _ _) Hst) as [Hsk Hsum].
  destruct (skeleton_names_edges _ _ Hsk) as [Hnames _].
  pose proof (wf_graph_static _ _ Hsk Hwf) as Hwf1.
  unfold plot_export_restriction_scenario. unfold bind at 1 3. rewrite E.
  split.
  - intros [n [s [Hin [Hs Hs0]]]].
    destruct (py_div_cases (py_sum (list_node_deficits (G self1)))
                           (sum_of_trade self)) as [[_ H] | [_ H]];
      rewrite H; [now exists self1 |].
    destruct (update_loop_raises (node_names (G self1)) self1)
      as [self2 E2].
    + intros k Hk. destruct (deficits_are_node _ _ _ Hd Hk) as [dat [d [H1 H2]]].
      destruct (relative_deficit_value_node _ _ _ _ Hwf1 H1 H2)
        as [s' [_ [[_ H3] | [_ H3]]]]; [now right | left; now exists (d / s' * 100)].
    + exists n. rewrite Hnames. split; [exact Hin |].
      rewrite <- Hnames in Hin.
      destruct (deficits_are_node _ _ _ Hd Hin) as [dat [d [H1 H2]]].
      destruct (relative_deficit_value_node _ _ _ _ Hwf1 H1 H2)
        as [s' [Hs' [[_ H3] | [Hnz _]]]]; [exact H3 |].
      rewrite (get_import_sum_static _ _ _ Hsk), Hs in Hs'.
      injection Hs' as <-. contradiction.
    + exists self2. unfold bind, update_relative_deficits.
      unfold node_names in E2. now rewrite E2.
  - intros Hall Hnz.
    destruct (py_div_cases (py_sum (list_node_deficits (G self1)))
                           (sum_of_trade self)) as [[H0 _] | [_ H]];
      [contradiction |]. rewrite H.
    set (h := fun n => match relative_deficit_value (G self1) n with
                       | Val v => v
                       | Exc _ => 0
                       end).
    assert (Hval : forall p, In p (nodes (G self1)) ->
              exists d s, deficit (snd p) = Some d /\
                          get_import_sum (G self) (fst p) = Val s /\
                          relative_deficit_value (G self1) (fst p) =
                          Val (d / s * 100)).
    { intros [n dat] Hp. simpl.
      assert (Hin : In n (node_names (G self1)))
        by (apply in_map_iff; now exists (n, dat)).
      unfold deficits_are in Hd. rewrite Forall_forall in Hd.
      destruct (Hd _ Hp) as [d [Hdd _]]. simpl in Hdd.
      destruct (relative_deficit_value_node _ _ _ _ Hwf1 Hp Hdd)
        as [s [Hs [[Hz _] | [_ H3]]]];
        rewrite (get_import_sum_static _ _ _ Hsk) in Hs.
      - rewrite Hnames in Hin. destruct (Hall n Hin) as [s' [Hs' Hnz']].
        rewrite Hs in Hs'. injection Hs' as <-. contradiction.
      - now exists d, s. }
    unfold bind, update_relative_deficits.
    rewrite (update_loop_ok h (map fst (nodes (G self1))) self1).
    + unfold ret. do 3 eexists. split; [reflexivity |]. simpl.
      rewrite (nodes_fold_set_node (fun n => n)
                 (fun n => set_deficit_relative (h n))).
      apply Forall_forall. intros p' Hp'. apply in_map_iff in Hp'.
      destruct Hp' as [p [<- Hp]]. simpl.
      destruct (Hval p Hp) as [d [s [H1 [H2 H3]]]].
      destruct (fold_set_relative h (fst p) (map fst (nodes (G self1))) (snd p))
        as [F1 F2].
      exists d, s. split; [now rewrite F1 |]. split; [exact H2 |].
      rewrite F2 by now apply in_map. unfold h. now rewrite H3.
    + intros n Hn. apply in_map_iff in Hn. destruct Hn as [p [<- Hp]].
      destruct (Hval p Hp) as [d [s [_ [_ H3]]]]. unfold h. now rewrite H3.
Qed.

(** ** An unknown source *)

Lemma for_each_app {A} (l1 l2 : list A) (body : A -> M unit) self :
  for_each (l1 ++ l2) body self =
  match for_each l1 body self with
  | Ok _ self' => for_each l2 body self'
  | Raise e self' => Raise e self'
  end.
Proof.
  revert self. induction l1 as [| x l1 IH]; intro self; simpl; [reflexivity |].
  unfold bind. destruct (body x self); [apply IH | reflexivity].
Qed.

(** C2.  On a well-formed graph, when the sources before the first
    unknown one are nodes, the evaluation raises the [ValueError] that names
    the unknown source and returns nothing; it raises from inside the loop,
    so the instance is left as the reset and the sources before the unknown
    one made it: each node's deficit is what those sources withhold. *)
Theorem unknown_source_raises_inside_loop
        (before after : Scenario) (unknown : string) (fraction : Q)
        (self : TradeGraph) :
  wf_graph (G self) -> valid_scenario (G self) before ->
  has_node (G self) unknown = false ->
  exists self',
    plot_export_restriction_scenario
      (before ++ (unknown, fraction) :: after) self =
    Raise (ValueError (unknown ++ " is not in graph")%string) self' /\
    for_each before restrict_source (state_of (reset_deficits self)) =
    Ok tt self' /\
    deficits_are (G self') (expected_deficit (G self) before).
Proof.
  intros Hwf Hv Hno.
  destruct (scenario_totals_spec before self Hwf Hv)
    as [self1 [Hst [Hd [E _]]]].
  exists self1. split; [| split; [exact E | exact Hd]].
  destruct (proj1 (same_static_fields _ _) Hst) as [Hsk _].
  destruct (skeleton_names_edges _ _ Hsk) as [Hnames _].
  assert (Hno1 : has_node (G self1) unknown = false).
  { destruct (has_node (G self1) unknown) eqn:E1; [| reflexivity].
    apply has_node_in in E1. rewrite Hnames in E1. apply has_node_in in E1.
    congruence. }
  unfold plot_export_restriction_scenario, scenario_totals.
  unfold bind at 1 2. unfold bind at 2.
  destruct (reset_deficits self) as [[] self0 | e self0] eqn:E0;
    [| discriminate E0].
  simpl in E. unfold bind at 1. rewrite for_each_app, E. simpl.
  unfold bind. now rewrite Hno1.
Qed.

(** ** Construction *)

Lemma wf_empty_graph : wf_graph empty_graph.
Proof. repeat split; constructor. Qed.

Lemma has_edge_in g u v : has_edge g u v = true <-> In (u, v) (map fst (edges g)).
Proof.
  unfold has_edge. rewrite existsb_exists, in_map_iff.
  split; intros [e [H1 H2]]; exists e.
  - apply edge_is_true in H2. destruct H2 as [<- <-].
    split; [apply edge_key | exact H1].
  - split; [exact H2 |]. apply edge_is_true. rewrite edge_key in H1.
    now injection H1.
Qed.

Lemma ensure_node_names g n :
  In n (node_names (ensure_node g n)) /\
  (forall m, In m (node_names g) -> In m (node_names (ensure_node g n))) /\
  edges (ensure_node g n) = edges g.
Proof.
  unfold ensure_node. destruct (has_node g n) eqn:E; simpl.
  - split; [now apply has_node_in | auto].
  - unfold node_names. simpl. rewrite map_app. simpl.
    split; [apply in_or_app; right; now left |].
    split; [| reflexivity]. intros m Hm. apply in_or_app. now left.
Qed.

Lemma wf_ensure_node g n : wf_graph g -> wf_graph (ensure_node g n).
Proof.
  intros [Hnn [Hne Hends]]. unfold ensure_node.
  destruct (has_node g n) eqn:E; [now repeat split |].
  unfold wf_graph, node_names. simpl. rewrite map_app. simpl.
  split; [| split; [exact Hne |]].
  - apply Permutation_NoDup with (l := n :: map fst (nodes g)).
    + apply Permutation_cons_append.
    + constructor; [| exact Hnn]. intro Hin. apply has_node_in in Hin.
      congruence.
  - eapply Forall_impl; [| exact Hends]. simpl. intros e [H1 H2].
    split; apply in_or_app; now left.
Qed.

Lemma wf_add_node g n d : wf_graph g -> wf_graph (add_node g n d).
Proof.
  intros [Hnn [Hne Hends]]. unfold add_node.
  destruct (has_node g n) eqn:E.
  - assert (Hn : map fst (map (fun p => if node_is n p then (n, d) else p)
                              (nodes g)) = map fst (nodes g)).
    { rewrite map_map. apply map_ext. intros [m dm]. unfold node_is. simpl.
      destruct (String.eqb_spec m n); simpl; congruence. }
    unfold wf_graph, node_names. simpl. now rewrite Hn.
  - unfold wf_graph, node_names. simpl. rewrite map_app. simpl.
    split; [| split; [exact Hne |]].
    + apply Permutation_NoDup with (l := n :: map fst (nodes g)).
      * apply Permutation_cons_append.
      * constructor; [| exact Hnn]. intro Hin. apply has_node_in in Hin.
        congruence.
    + eapply Forall_impl; [| exact Hends]. simpl. intros e [H1 H2].
      split; apply in_or_app; now left.
Qed.

Lemma wf_add_edge g u v a : wf_graph g -> wf_graph (add_edge g u v a).
Proof.
  intro Hwf. unfold add_edge.
  set (g' := ensure_node (ensure_node g u) v).
  assert (Hwf' : wf_graph g') by now apply wf_ensure_node, wf_ensure_node.
  assert (Hu : In u (node_names g')).
  { apply (proj1 (proj2 (ensure_node_names (ensure_node g u) v))).
    apply (proj1 (ensure_node_names g u)). }
  assert (Hv : In v (node_names g'))
    by apply (proj1 (ensure_node_names (ensure_node g u) v)).
  destruct Hwf' as [Hnn [Hne Hends]].
  destruct (has_edge g' u v) eqn:E; unfold wf_graph, node_names; simpl.
  - assert (Hk : map fst (map (fun e => if edge_is u v e then (u, v, a) else e)
                              (edges g')) = map fst (edges g')).
    { rewrite map_map. apply map_ext. intro e.
      destruct (edge_is u v e) eqn:Ee; [| reflexivity].
      apply edge_is_true in Ee. destruct Ee as [<- <-]. simpl.
      symmetry. apply edge_key. }
    rewrite Hk. split; [exact Hnn |]. split; [exact Hne |].
    apply Forall_map. eapply Forall_impl; [| exact Hends]. simpl.
    intros e He. now destruct (edge_is u v e).
  - rewrite map_app. simpl. split; [exact Hnn |]. split.
    + apply Permutation_NoDup with (l := (u, v) :: map fst (edges g')).
      * apply Permutation_cons_append.
      * constructor; [| exact Hne]. intro Hin. apply has_edge_in in Hin.
        congruence.
    + apply Forall_app. split; [exact Hends |]. constructor; [| constructor].
      now split.
Qed.

Lemma add_trade_rows_cons row rest g out :
  add_trade_rows (row :: rest) g out =
  let (edge, printed) := create_nx_edge_from_trade_row row in
  let stdout' := out ++ printed in
  match edge with
  | None => (Exc TypeError, stdout')
  | Some (u, v) =>
      if (unspecified_area =? u) || (unspecified_area =? v)
      then add_trade_rows rest g stdout'
      else if has_edge g u v
           then match get_combined_trade_estimate g u v (value row) with
                | Val a => add_trade_rows rest (add_edge g u v a) stdout'
                | Exc e => (Exc e, stdout')
                end
           else add_trade_rows rest (add_edge g u v (value row)) stdout'
  end.
Proof. reflexivity. Qed.

Lemma wf_add_trade_rows (rows : list TradeRow) :
  forall g out g' out',
    wf_graph g -> add_trade_rows rows g out = (Val g', out') -> wf_graph g'.
Proof.
  induction rows as [| row rows IH]; intros g out g' out' Hwf E.
  - simpl in E. now injection E as <- _.
  - rewrite add_trade_rows_cons in E.
    destruct (create_nx_edge_from_trade_row row) as [[[u v] |] printed];
      [| discriminate E].
    destruct ((unspecified_area =? u) || (unspecified_area =? v));
      [now apply (IH _ _ _ _ Hwf E) |].
    destruct (has_edge g u v).
    + destruct (get_combined_trade_estimate g u v (value row));
        [| discriminate E].
      apply (IH _ _ _ _ (wf_add_edge g u v _ Hwf) E).
    + apply (IH _ _ _ _ (wf_add_edge g u v _ Hwf) E).
Qed.

Section ConstructionProperties.

Variable name_to_iso_alpha : string -> option string.
Variable name_to_centroid : string -> option (Q * Q).

Lemma add_country_nodes_cons country rest g :
  add_country_nodes name_to_iso_alpha name_to_centroid (country :: rest) g =
  if country =? unspecified_area
  then add_country_nodes name_to_iso_alpha name_to_centroid rest g
  else
    i <~ get_iso_alpha_from_country_name name_to_iso_alpha country ;;
    c <~ get_lon_lat_from_country_name name_to_centroid country ;;
    add_country_nodes name_to_iso_alpha name_to_centroid rest
      (add_node g country (country_attributes country i c)).
Proof. reflexivity. Qed.

Lemma wf_add_country_nodes (countries : list string) :
  forall g g',
    wf_graph g ->
    add_country_nodes name_to_iso_alpha name_to_centroid countries g = Val g' ->
    wf_graph g'.
Proof.
  induction countries as [| c countries IH]; intros g g' Hwf E.
  - simpl in E. now injection E as <-.
  - rewrite add_country_nodes_cons in E.
    destruct (c =? unspecified_area); [now apply (IH _ _ Hwf E) |].
    destruct (get_iso_alpha_from_country_name name_to_iso_alpha c);
      [| discriminate E].
    destruct (get_lon_lat_from_country_name name_to_centroid c);
      [| discriminate E].
    simpl in E. apply (IH _ _ (wf_add_node _ _ _ Hwf) E).
Qed.

Lemma add_country_nodes_exception (countries : list string) :
  forall g e,
    add_country_nodes name_to_iso_alpha name_to_centroid countries g = Exc e ->
    exists k, e = KeyError k.
Proof.
  induction countries as [| c countries IH]; intros g e E;
    [discriminate E |].
  rewrite add_country_nodes_cons in E.
  destruct (c =? unspecified_area); [now apply (IH _ _ E) |].
  unfold get_iso_alpha_from_country_name, get_lon_lat_from_country_name in E.
  destruct (name_to_iso_alpha c); simpl in E;
    [| injection E as <-; now exists c].
  destruct (name_to_centroid c); simpl in E;
    [| injection E as <-; now exists c].
  now apply (IH _ _ E).
Qed.

(** What a returned instance is made of. *)
Lemma init_returns (trade_data : list TradeRow) tg out :
  __init__ name_to_iso_alpha name_to_centroid trade_data = (Val tg, out) ->
  wf_graph (G tg) /\
  sum_of_trade tg = py_sum (map amount (edges_data (G tg))).
Proof.
  unfold __init__. intro E.
  destruct (add_country_nodes _ _ _ empty_graph) as [g0 |] eqn:E0;
    [| discriminate E].
  destruct (add_trade_rows trade_data g0 []) as [[g |] out1] eqn:E1;
    [| discriminate E].
  injection E as <- _. simpl. split; [| reflexivity].
  eapply wf_add_trade_rows; [| exact E1].
  eapply wf_add_country_nodes; [apply wf_empty_graph | exact E0].
Qed.

End ConstructionProperties.

Lemma Forall2_map_right {A B} (R : A -> B -> Prop) (f : A -> B) (l : list A) :
  (forall x, In x l -> R x (f x)) -> Forall2 R l (map f l).
Proof.
  induction l as [| x l IH]; intro H; simpl; constructor.
  - apply H. now left.
  - apply IH. intros y Hy. apply H. now right.
Qed.

Lemma Qsum_amount_flat_map {A} (f : A -> list Edge) (l : list A) :
  Qsum (map amount (flat_map f l)) ==
  Qsum (map (fun x => Qsum (map amount (f x))) l).
Proof.
  induction l as [| x l IH]; simpl; [reflexivity |].
  rewrite map_app, Qsum_app, IH. reflexivity.
Qed.

Lemma Qsum_over_nodes (F : string -> Q) (l : list (string * NodeData)) :
  Qsum (map (fun p => F (fst p)) l) = Qsum (map F (map fst l)).
Proof. now rewrite map_map. Qed.

(** The sum [__init__] stores is the sum of the amounts of the edges. *)
Lemma sum_edges_data g :
  wf_graph g -> py_sum (map amount (edges_data g)) == Qsum (map amount (edges g)).
Proof.
  intros [Hnn [_ Hends]]. rewrite py_sum_Qsum. unfold edges_data.
  rewrite Qsum_amount_flat_map.
  rewrite (Qsum_over_nodes
             (fun n => Qsum (map amount (filter (fun e => src e =? n) (edges g))))).
  apply (Qsum_partition src); [exact Hnn |].
  eapply Forall_impl; [| exact Hends]. simpl. tauto.
Qed.

(** Exact arithmetic.  In a graph that [__init__] returns, the import sum
    and the export sum of every node are defined, and the import sums of
    all nodes add up to [sum_of_trade], as do the export sums, as
    rationals.  With floats the sums group their terms differently and
    need not be equal. *)
Theorem import_and_export_sums_add_up_to_sum_of_trade
        (name_to_iso_alpha : string -> option string)
        (name_to_centroid : string -> option (Q * Q))
        (trade_data : list TradeRow) (tg : TradeGraph) (out : list string) :
  __init__ name_to_iso_alpha name_to_centroid trade_data = (Val tg, out) ->
  exists imports exports,
    Forall2 (fun p x => get_import_sum (G tg) (fst p) = Val x)
            (nodes (G tg)) imports /\
    Forall2 (fun p x => get_export_sum (G tg) (fst p) = Val x)
            (nodes (G tg)) exports /\
    py_sum imports == sum_of_trade tg /\
    py_sum exports == sum_of_trade tg.
Proof.
  intro E. destruct (init_returns _ _ _ _ _ E) as [Hwf Hsum].
  pose proof (sum_edges_data _ Hwf) as Htotal. rewrite <- Hsum in Htotal.
  destruct Hwf as [Hnn [Hne Hends]].
  set (g := G tg) in *.
  exists (map (fun p => py_sum (map amount
                 (filter (fun e => dst e =? fst p) (edges g)))) (nodes g)),
         (map (fun p => py_sum (map amount
                 (filter (fun e => src e =? fst p) (edges g)))) (nodes g)).
  split; [| split; [| split]].
  - apply Forall2_map_right. intros p _. now apply get_import_sum_val.
  - apply Forall2_map_right. intros p _. now apply get_export_sum_val.
  - rewrite Htotal, py_sum_Qsum.
    rewrite (Qsum_over_nodes
      (fun n => py_sum (map amount (filter (fun e => dst e =? n) (edges g))))).
    rewrite <- (Qsum_partition dst (node_names g) (edges g) Hnn).
    + apply Qsum_map_ext. intros n _. apply py_sum_Qsum.
    + eapply Forall_impl; [| exact Hends]. simpl. tauto.
  - rewrite Htotal, py_sum_Qsum.
    rewrite (Qsum_over_nodes
      (fun n => py_sum (map amount (filter (fun e => src e =? n) (edges g))))).
    rewrite <- (Qsum_partition src (node_names g) (edges g) Hnn).
    + apply Qsum_map_ext. intros n _. apply py_sum_Qsum.
    + eapply Forall_impl; [| exact Hends]. simpl. tauto.
Qed.

(** ** Conflicting reports *)

Lemma edge_is_refl u v a : edge_is u v (u, v, a) = true.
Proof. apply edge_is_true. now split. Qed.

Lemma find_replaced u v a (l : list Edge) :
  find (edge_is u v) (map (fun e => if edge_is u v e then (u, v, a) else e) l) =
  if existsb (edge_is u v) l then Some (u, v, a) else None.
Proof.
  induction l as [| e l IH]; simpl; [reflexivity |].
  destruct (edge_is u v e) eqn:E; simpl.
  - now rewrite edge_is_refl.
  - now rewrite E.
Qed.

Lemma find_appended u v a (l : list Edge) :
  existsb (edge_is u v) l = false ->
  find (edge_is u v) (l ++ [(u, v, a)]) = Some (u, v, a).
Proof.
  induction l as [| e l IH]; simpl; intro H.
  - now rewrite edge_is_refl.
  - apply orb_false_iff in H. destruct H as [H1 H2]. rewrite H1. now apply IH.
Qed.

Lemma get_edge_data_add_edge g u v a :
  get_edge_data (add_edge g u v a) u v = Some a.
Proof.
  unfold add_edge, get_edge_data.
  destruct (has_edge (ensure_node (ensure_node g u) v) u v) eqn:E; simpl.
  - unfold has_edge in E. now rewrite find_replaced, E.
  - unfold has_edge in E. now rewrite find_appended.
Qed.

Lemma has_edge_get_edge_data g u v :
  has_edge g u v = true <-> exists x, get_edge_data g u v = Some x.
Proof.
  unfold has_edge, get_edge_data. split.
  - intro H. apply existsb_exists in H. destruct H as [e [H1 H2]].
    destruct (find (edge_is u v) (edges g)) as [e' |] eqn:E.
    + now exists (amount e').
    + apply (find_none _ _ E) in H1. congruence.
  - intros [x H].
    destruct (find (edge_is u v) (edges g)) as [e' |] eqn:E; [| discriminate H].
    apply find_some in E. apply existsb_exists. now exists e'.
Qed.

Lemma not_unspecified u v :
  u <> unspecified_area -> v <> unspecified_area ->
  (unspecified_area =? u) || (unspecified_area =? v) = false.
Proof.
  intros Hu Hv. apply orb_false_iff.
  split; apply String.eqb_neq; congruence.
Qed.

(** ** A row that is neither an import nor an export *)

Lemma recognised_row row :
  recognised row ->
  exists u v, create_nx_edge_from_trade_row row = (Some (u, v), []).
Proof.
  unfold recognised, create_nx_edge_from_trade_row. intros [H | H]; rewrite H.
  - now exists (partner row), (reporter row).
  - now exists (reporter row), (partner row).
Qed.

Lemma unrecognised_row row :
  ~ recognised row ->
  create_nx_edge_from_trade_row row =
  (None, ["Unknown edge type: " ++ element row]%string).
Proof.
  unfold recognised, create_nx_edge_from_trade_row. intro H.
  destruct (String.eqb_spec (element row) "Import Quantity") as [E | _];
    [elim H; now left |].
  destruct (String.eqb_spec (element row) "Export Quantity") as [E | _];
    [elim H; now right | reflexivity].
Qed.

(** Rows with a known element cannot end the loop. *)
Lemma add_trade_rows_recognised (rows rest : list TradeRow) :
  Forall recognised rows ->
  forall g out, exists g',
    add_trade_rows (rows ++ rest) g out = add_trade_rows rest g' out.
Proof.
  induction 1 as [| row rows Hrow _ IH]; intros g out; [now exists g |].
  destruct (recognised_row row Hrow) as [u [v Hr]].
  rewrite <- app_comm_cons, add_trade_rows_cons, Hr, app_nil_r.
  destruct ((unspecified_area =? u) || (unspecified_area =? v)); [apply IH |].
  destruct (has_edge g u v) eqn:E; [| apply IH].
  apply has_edge_get_edge_data in E. destruct E as [x E].
  unfold get_combined_trade_estimate. rewrite E. apply IH.
Qed.

(** C3.  When the first row whose element is neither ["Import Quantity"]
    nor ["Export Quantity"] is reached, its diagnostic is printed and the
    construction then ends with a [TypeError], the membership test on the
    [None] that [create_nx_edge_from_trade_row] returned; no instance is
    returned, whatever rows follow.  (The construction ends earlier, with a
    [KeyError], only when a partner is missing from a lookup table.) *)
Theorem unknown_element_ends_construction
        (name_to_iso_alpha : string -> option string)
        (name_to_centroid : string -> option (Q * Q))
        (before after : list TradeRow) (row : TradeRow) :
  Forall recognised before -> ~ recognised row ->
  let built :=
    __init__ name_to_iso_alpha name_to_centroid (before ++ row :: after) in
  (exists k, built = (Exc (KeyError k), [])) \/
  built = (Exc TypeError, ["Unknown edge type: " ++ element row]%string).
Proof.
  intros Hb Hr built. subst built. unfold __init__.
  destruct (add_country_nodes _ _ _ empty_graph) as [g0 | e] eqn:E0.
  - right. destruct (add_trade_rows_recognised before (row :: after) Hb g0 [])
      as [g' ->].
    now rewrite add_trade_rows_cons, (unrecognised_row row Hr).
  - left. destruct (add_country_nodes_exception _ _ _ _ _ E0) as [k ->].
    now exists k.
Qed.

(** ** Amounts are not negative *)

Lemma add_edge_nonneg g u v a :
  0 <= a -> Forall (fun e => 0 <= amount e) (edges g) ->
  Forall (fun e => 0 <= amount e) (edges (add_edge g u v a)).
Proof.
  intros Ha H. unfold add_edge.
  assert (He : edges (ensure_node (ensure_node g u) v) = edges g).
  { unfold ensure_node.
    destruct (has_node g u); simpl;
      match goal with |- context [has_node ?x v] => destruct (has_node x v) end;
      reflexivity. }
  destruct (has_edge _ u v); simpl; rewrite He.
  - apply Forall_map. eapply Forall_impl; [| exact H]. simpl.
    intros e Hpos. now destruct (edge_is u v e).
  - apply Forall_app. split; [exact H |]. now repeat constructor.
Qed.

Lemma add_trade_rows_nonneg (rows : list TradeRow) :
  Forall (fun row => 0 <= value row) rows ->
  forall g out g' out',
    Forall (fun e => 0 <= amount e) (edges g) ->
    add_trade_rows rows g out = (Val g', out') ->
    Forall (fun e => 0 <= amount e) (edges g').
Proof.
  induction 1 as [| row rows Hrow _ IH]; intros g out g' out' Hg E.
  - simpl in E. now injection E as <- _.
  - rewrite add_trade_rows_cons in E.
    destruct (create_nx_edge_from_trade_row row) as [[[u v] |] printed];
      [| discriminate E].
    destruct ((unspecified_area =? u) || (unspecified_area =? v));
      [now apply (IH _ _ _ _ Hg E) |].
    destruct (has_edge g u v).
    + unfold get_combined_trade_estimate in E.
      destruct (get_edge_data g u v) as [x |] eqn:Ex; [| discriminate E].
      revert E.
      destruct (get_edge_data_some _ _ _ _ Ex) as [e [He [_ [_ Ha]]]].
      rewrite Forall_forall in Hg. pose proof (Hg e He) as Hx.
      rewrite Ha in Hx. rewrite <- Forall_forall in Hg.
      assert (Hm : 0 <= (x + value row) / 2).
      { apply Qle_shift_div_l; lra. }
      intro E. apply (IH _ _ _ _ (add_edge_nonneg g u v _ Hm Hg) E).
    + apply (IH _ _ _ _ (add_edge_nonneg g u v _ Hrow Hg) E).
Qed.

Lemma add_country_nodes_edges
      (name_to_iso_alpha : string -> option string)
      (name_to_centroid : string -> option (Q * Q)) (countries : list string) :
  forall g g',
    add_country_nodes name_to_iso_alpha name_to_centroid countries g = Val g' ->
    edges g' = edges g.
Proof.
  induction countries as [| c countries IH]; intros g g' E.
  - simpl in E. now injection E as <-.
  - rewrite add_country_nodes_cons in E.
    destruct (c =? unspecified_area); [now apply IH |].
    destruct (get_iso_alpha_from_country_name name_to_iso_alpha c);
      [| discriminate E].
    destruct (get_lon_lat_from_country_name name_to_centroid c);
      [| discriminate E].
    simpl in E. rewrite (IH _ _ E). unfold add_node.
    now destruct (has_node g c).
Qed.

(** Rows with non-negative values give edges with non-negative amounts. *)
Lemma init_amounts_nonneg
      (name_to_iso_alpha : string -> option string)
      (name_to_centroid : string -> option (Q * Q))
      (trade_data : list TradeRow) tg out :
  Forall (fun row => 0 <= value row) trade_data ->
  __init__ name_to_iso_alpha name_to_centroid trade_data = (Val tg, out) ->
  Forall (fun e => 0 <= amount e) (edges (G tg)).
Proof.
  unfold __init__. intros Hpos E.
  destruct (add_country_nodes _ _ _ empty_graph) as [g0 |] eqn:E0;
    [| discriminate E].
  destruct (add_trade_rows trade_data g0 []) as [[g |] out1] eqn:E1;
    [| discriminate E].
  injection E as <- _. simpl.
  eapply add_trade_rows_nonneg; [exact Hpos | | exact E1].
  rewrite (add_country_nodes_edges _ _ _ _ _ E0). constructor.
Qed.

(** ** The examples *)

Lemma graph_of_wf (trade_data : list TradeRow) (out : list string) :
  __init__ example_iso example_centroid trade_data =
  (Val (graph_of trade_data), out) ->
  wf_graph (G (graph_of trade_data)).
Proof. intro E. apply (init_returns _ _ _ _ _ E). Qed.

(** C1, as the specification has it, fails: A imports nothing, and the
    evaluation of a scenario on the graph with the one edge A -> B raises
    [ZeroDivisionError] instead of giving A a relative deficit of 0. *)
Lemma zero_import_sum_raises :
  get_import_sum (G (graph_of one_edge_rows)) "A" = Val 0 /\
  exists self',
    plot_export_restriction_scenario [("A", 1 # 2)] (graph_of one_edge_rows) =
    Raise ZeroDivisionError self'.
Proof. split; [reflexivity |]. eexists. vm_compute. reflexivity. Qed.

Lemma relative_deficit_divides_by_import_sum_witness :
  wf_graph (G (graph_of two_way_rows)) /\
  valid_scenario (G (graph_of two_way_rows)) [("A", 4 # 5)] /\
  exists t q self',
    plot_export_restriction_scenario [("A", 4 # 5)] (graph_of two_way_rows) =
    Ok (t, q) self' /\
    Forall (fun p => exists d s,
                deficit (snd p) = Some d /\
                get_import_sum (G (graph_of two_way_rows)) (fst p) = Val s /\
                deficit_relative (snd p) = Some (d / s * 100))
           (nodes (G self')).
Proof.
  assert (Hwf : wf_graph (G (graph_of two_way_rows)))
    by (apply (graph_of_wf two_way_rows []); reflexivity).
  assert (Hv : valid_scenario (G (graph_of two_way_rows)) [("A", 4 # 5)])
    by (repeat constructor).
  split; [exact Hwf |]. split; [exact Hv |].
  apply (proj2 (relative_deficit_divides_by_import_sum
                  [("A", 4 # 5)] (graph_of two_way_rows) Hwf Hv)).
  - intros n [<- | [<- | []]]; eexists; (split; [vm_compute; reflexivity |]);
      intro H; vm_compute in H; discriminate H.
  - intro H; vm_compute in H; discriminate H.
Defined.

(** C2, as the specification has it, fails: the unknown source Z is met
    after A has been handled, and the [ValueError] leaves B with the deficit
    that A caused. *)
Lemma unknown_source_leaves_partial_deficits :
  (exists self',
      plot_export_restriction_scenario [("A", 4 # 5); ("Z", 1 # 2)]
                                       (graph_of two_way_rows) =
      Raise (ValueError "Z is not in graph") self') /\
  node_deficit (G (graph_of two_way_rows)) "B" = Val 0 /\
  node_deficit
    (G (state_of (plot_export_restriction_scenario
                    [("A", 4 # 5); ("Z", 1 # 2)] (graph_of two_way_rows))))
    "B" = Val (100 # 5).
Proof.
  split; [eexists; vm_compute; reflexivity |].
  split; vm_compute; reflexivity.
Qed.

Lemma unknown_source_raises_inside_loop_witness :
  wf_graph (G (graph_of two_way_rows)) /\
  valid_scenario (G (graph_of two_way_rows)) [("A", 4 # 5)] /\
  has_node (G (graph_of two_way_rows)) "Z" = false /\
  exists self',
    plot_export_restriction_scenario
      ([("A", 4 # 5)] ++ ("Z", 1 # 2) :: [("B", 1 # 2)])
      (graph_of two_way_rows) =
    Raise (ValueError ("Z" ++ " is not in graph")%string) self' /\
    for_each [("A", 4 # 5)] restrict_source
             (state_of (reset_deficits (graph_of two_way_rows))) =
    Ok tt self' /\
    deficits_are (G self')
                 (expected_deficit (G (graph_of two_way_rows)) [("A", 4 # 5)]).
Proof.
  assert (Hwf : wf_graph (G (graph_of two_way_rows)))
    by (apply (graph_of_wf two_way_rows []); reflexivity).
  split; [exact Hwf |]. split; [repeat constructor |].
  split; [reflexivity |].
  apply (unknown_source_raises_inside_loop
           [("A", 4 # 5)] [("B", 1 # 2)] "Z" (1 # 2) (graph_of two_way_rows) Hwf).
  - repeat constructor.
  - reflexivity.
Defined.

(** C3 on an input: the second of three rows has the element ["Re-export"];
    its diagnostic is printed and the construction ends with a [TypeError],
    so that the third row is never read and no graph is returned. *)
Lemma unknown_element_example :
  __init__ example_iso example_centroid
           (one_edge_rows ++ reexport_row ::
            [mkRow "C" "A" "Export Quantity" 50]) =
  (Exc TypeError, ["Unknown edge type: Re-export"]%string).
Proof. vm_compute. reflexivity. Qed.

Lemma unknown_element_ends_construction_witness :
  Forall recognised one_edge_rows /\ ~ recognised reexport_row /\
  ((exists k,
       __init__ example_iso example_centroid
                (one_edge_rows ++ reexport_row ::
                 [mkRow "C" "A" "Export Quantity" 50]) =
       (Exc (KeyError k), [])) \/
   __init__ example_iso example_centroid
            (one_edge_rows ++ reexport_row ::
             [mkRow "C" "A" "Export Quantity" 50]) =
   (Exc TypeError, ["Unknown edge type: " ++ element reexport_row]%string)).
Proof.
  assert (H1 : Forall recognised one_edge_rows)
    by (repeat constructor; now right).
  assert (H2 : ~ recognised reexport_row)
    by (intros [H | H]; discriminate H).
  split; [exact H1 |]. split; [exact H2 |].
  exact (unknown_element_ends_construction
           example_iso example_centroid one_edge_rows
           [mkRow "C" "A" "Export Quantity" 50] reexport_row H1 H2).
Defined.

(** C4, as the specification has it, fails: A, the one exporter of the
    example, imports nothing, so the evaluation raises [ZeroDivisionError]
    and returns no result. *)
Lemma example_scenario_raises :
  edges (G (graph_of example_rows)) = [("A", "B", 100); ("A", "C", 50)] /\
  exists self',
    plot_export_restriction_scenario [("A", 4 # 5)] (graph_of example_rows) =
    Raise ZeroDivisionError self'.
Proof. split; [reflexivity |]. eexists. vm_compute. reflexivity. Qed.

(** * Further properties *)

(** ** The outcome of an evaluation *)

Lemma relative_values_decide g delta (l : list string) :
  wf_graph g -> deficits_are g delta ->
  (forall n, In n l -> In n (node_names g)) ->
  (forall n, In n l -> exists v, relative_deficit_value g n = Val v) \/
  (exists n, In n l /\ relative_deficit_value g n = Exc ZeroDivisionError).
Proof.
  intros Hwf Hd. induction l as [| m l IH]; intro Hl.
  - left. intros n [].
  - destruct (deficits_are_node _ _ _ Hd (Hl m (or_introl eq_refl)))
      as [dat [d [H1 H2]]].
    destruct (relative_deficit_value_node _ _ _ _ Hwf H1 H2)
      as [s [_ [[_ H3] | [_ H3]]]].
    + right. exists m. split; [now left | exact H3].
    + destruct IH as [IH | [n [Hn IH]]].
      * intros n Hn. apply Hl. now right.
      * left. intros n [<- | Hn]; [now exists (d / s * 100) | now apply IH].
      * right. exists n. split; [now right | exact IH].
Qed.

(** What [update_relative_deficits] does once every node carries a
    deficit: it raises on a zero import sum, and otherwise gives every node
    its quotient. *)
Lemma update_relative_deficits_outcome self delta :
  wf_graph (G self) -> deficits_are (G self) delta ->
  (exists self', update_relative_deficits self = Raise ZeroDivisionError self')
  \/
  (exists self',
      update_relative_deficits self = Ok tt self' /\
      Forall (fun p => exists d s,
                  deficit (snd p) = Some d /\ d == delta (fst p) /\
                  get_import_sum (G self) (fst p) = Val s /\ ~ s == 0 /\
                  deficit_relative (snd p) = Some (d / s * 100))
             (nodes (G self'))).
Proof.
  intros Hwf Hd. unfold update_relative_deficits.
  destruct (relative_values_decide (G self) delta (map fst (nodes (G self)))
              Hwf Hd (fun n H => H)) as [Hall | Hex].
  - right.
    set (h := fun n => match relative_deficit_value (G self) n with
                       | Val v => v
                       | Exc _ => 0
                       end).
    rewrite (update_loop_ok h).
    + eexists. split; [reflexivity |]. simpl.
      rewrite (nodes_fold_set_node (fun n => n)
                 (fun n => set_deficit_relative (h n))).
      apply Forall_forall. intros p' Hp'. apply in_map_iff in Hp'.
      destruct Hp' as [[n dat] [<- Hp]]. simpl.
      unfold deficits_are in Hd. rewrite Forall_forall in Hd.
      destruct (Hd _ Hp) as [d [Hdd Hdelta]]. simpl in Hdd, Hdelta.
      destruct (relative_deficit_value_node _ _ _ _ Hwf Hp Hdd)
        as [s [Hs [[_ H3] | [Hnz H3]]]].
      * assert (Hin : In n (map fst (nodes (G self))))
          by (apply in_map_iff; now exists (n, dat)).
        destruct (Hall n Hin) as [v Hv]. congruence.
      * destruct (fold_set_relative h n (map fst (nodes (G self))) dat)
          as [F1 F2].
        exists d, s. split; [now rewrite F1 |]. split; [exact Hdelta |].
        split; [exact Hs |]. split; [exact Hnz |].
        rewrite F2 by (apply in_map_iff; now exists (n, dat)).
        unfold h. now rewrite H3.
    + intros n Hn. destruct (Hall n Hn) as [v Hv]. unfold h. now rewrite Hv.
  - left. apply update_loop_raises; [| exact Hex].
    intros n Hn.
    destruct (deficits_are_node _ _ _ Hd Hn) as [dat [d [H1 H2]]].
    destruct (relative_deficit_value_node _ _ _ _ Hwf H1 H2)
      as [s [_ [[_ H3] | [_ H3]]]]; [now right | left; now exists (d / s * 100)].
Qed.

(** An evaluation on a well-formed graph, with sources that are nodes:
    either a division by zero, or the totals and relative deficits. *)
Lemma plot_valid_outcome (scenario : Scenario) (self : TradeGraph) :
  wf_graph (G self) -> valid_scenario (G self) scenario ->
  (exists self',
      plot_export_restriction_scenario scenario self =
      Raise ZeroDivisionError self')
  \/
  (exists t self',
      plot_export_restriction_scenario scenario self =
      Ok (t, t / sum_of_trade self * 100) self' /\
      ~ sum_of_trade self == 0 /\
      t == Qsum (map (expected_deficit (G self) scenario)
                     (node_names (G self))) /\
      same_static self self' /\
      Forall (fun p => exists d s,
                  deficit (snd p) = Some d /\
                  d == expected_deficit (G self) scenario (fst p) /\
                  get_import_sum (G self) (fst p) = Val s /\ ~ s == 0 /\
                  deficit_relative (snd p) = Some (d / s * 100))
             (nodes (G self'))).
Proof.
  intros Hwf Hv.
  destruct (scenario_totals_spec scenario self Hwf Hv)
    as [self1 [Hst [Hd [_ E]]]].
  destruct (proj1 (same_static_fields _ _) Hst) as [Hsk Hsum].
  destruct (skeleton_names_edges _ _ Hsk) as [Hnames _].
  pose proof (wf_graph_static _ _ Hsk Hwf) as Hwf1.
  assert (EP : plot_export_restriction_scenario scenario self =
               match py_div (py_sum (list_node_deficits (G self1)))
                            (sum_of_trade self) with
               | Val q =>
                   match update_relative_deficits self1 with
                   | Ok _ s =>
                       Ok (py_sum (list_node_deficits (G self1)), q * 100) s
                   | Raise e s => Raise e s
                   end
               | Exc e => Raise e self1
               end).
  { unfold plot_export_restriction_scenario, bind, ret. rewrite E.
    now destruct (py_div _ (sum_of_trade self)). }
  rewrite EP. clear EP.
  destruct (py_div_cases (py_sum (list_node_deficits (G self1)))
                         (sum_of_trade self)) as [[_ H] | [Hnz H]];
    rewrite H; [left; now exists self1 |].
  destruct (update_relative_deficits_outcome self1 _ Hwf1 Hd)
    as [[self2 E2] | [self2 [E2 F]]]; rewrite E2.
  - left. now exists self2.
  - right. exists (py_sum (list_node_deficits (G self1))), self2.
    split; [reflexivity |]. split; [exact Hnz |]. split; [| split].
    + rewrite (total_deficits_sum _ _ Hd). now rewrite Hnames.
    + eapply same_static_trans; [exact Hst |].
      generalize (preserves_update_relative_deficits self1). now rewrite E2.
    + eapply Forall_impl; [| exact F]. simpl.
      intros p [d [s [H1 [H2 [H3 [H4 H5]]]]]]. exists d, s.
      rewrite (get_import_sum_static _ _ _ Hsk) in H3. auto.
Qed.

(** The scenario up to its first source that is not a node. *)
Lemma first_unknown_source g (scenario : Scenario) :
  valid_scenario g scenario \/
  exists before z f after,
    scenario = before ++ (z, f) :: after /\
    valid_scenario g before /\ has_node g z = false.
Proof.
  induction scenario as [| [s f] scenario IH]; [left; constructor |].
  destruct (has_node g s) eqn:E.
  - destruct IH as [IH | [before [z [f' [after [H1 [H2 H3]]]]]]].
    + left. now constructor.
    + right. exists ((s, f) :: before), z, f', after. rewrite H1.
      split; [reflexivity |]. split; [now constructor | exact H3].
  - right. exists [], s, f, scenario. split; [reflexivity |].
    split; [constructor | exact E].
Qed.

Lemma plot_unknown_source (before after : Scenario) (z : string) (f : Q)
      (self : TradeGraph) :
  wf_graph (G self) -> valid_scenario (G self) before ->
  has_node (G self) z = false ->
  exists self',
    plot_export_restriction_scenario (before ++ (z, f) :: after) self =
    Raise (ValueError (z ++ " is not in graph")%string) self'.
Proof.
  intros Hwf Hv Hno.
  destruct (scenario_totals_spec before self Hwf Hv)
    as [self1 [Hst [_ [E _]]]].
  exists self1.
  destruct (proj1 (same_static_fields _ _) Hst) as [Hsk _].
  destruct (skeleton_names_edges _ _ Hsk) as [Hnames _].
  assert (Hno1 : has_node (G self1) z = false).
  { destruct (has_node (G self1) z) eqn:E1; [| reflexivity].
    apply has_node_in in E1. rewrite Hnames in E1. apply has_node_in in E1.
    congruence. }
  unfold plot_export_restriction_scenario, scenario_totals.
  unfold bind at 1 2. unfold bind at 2.
  destruct (reset_deficits self) as [[] self0 | e self0] eqn:E0;
    [| discriminate E0].
  simpl in E. unfold bind at 1. rewrite for_each_app, E. simpl.
  unfold bind, raise. now rewrite Hno1.
Qed.

(** X1.  On a well-formed graph an evaluation raises nothing but a
    [ZeroDivisionError] or the [ValueError] for a source of the scenario
    that is not a node: no [KeyError] and no [TypeError] can come out of
    it. *)
Theorem evaluation_raises_only_value_or_zero_division
        (scenario : Scenario) (self self' : TradeGraph) (e : exn) :
  wf_graph (G self) ->
  plot_export_restriction_scenario scenario self = Raise e self' ->
  e = ZeroDivisionError \/
  exists z, In z (map fst scenario) /\ has_node (G self) z = false /\
            e = ValueError (z ++ " is not in graph")%string.
Proof.
  intros Hwf E.
  destruct (first_unknown_source (G self) scenario)
    as [Hv | [before [z [f [after [-> [Hv Hno]]]]]]].
  - left. destruct (plot_valid_outcome scenario self Hwf Hv)
      as [[s1 E1] | [t [s1 [E1 _]]]]; congruence.
  - right. exists z. split; [| split; [exact Hno |]].
    + rewrite map_app. apply in_or_app. right. now left.
    + destruct (plot_unknown_source before after z f self Hwf Hv Hno)
        as [s1 E1]. congruence.
Qed.

Lemma expected_deficit_retained g (scenario : Scenario) n :
  Forall (fun item => snd item == 1) scenario ->
  expected_deficit g scenario n == 0.
Proof.
  unfold expected_deficit. induction 1 as [| item l H _ IH]; simpl; [lra |].
  rewrite IH, H. lra.
Qed.

(** X3.  When every source retains all of its exports (fraction 1), and in
    particular when the scenario is empty, the evaluation leaves every node
    with a deficit of 0, and what it returns is a total of 0 and a shortfall
    of 0. *)
Theorem full_retention_gives_no_deficit
        (scenario : Scenario) (self : TradeGraph) :
  wf_graph (G self) -> valid_scenario (G self) scenario ->
  Forall (fun item => snd item == 1) scenario ->
  deficits_are (G (state_of (plot_export_restriction_scenario scenario self)))
               (fun _ => 0) /\
  (forall t q self',
      plot_export_restriction_scenario scenario self = Ok (t, q) self' ->
      t == 0 /\ q == 0).
Proof.
  intros Hwf Hv H1. split.
  - eapply deficits_are_ext; [| now apply plot_deficits].
    intro n. now apply expected_deficit_retained.
  - intros t q self' E.
    destruct (plot_valid_outcome scenario self Hwf Hv)
      as [[s1 E1] | [t1 [s1 [E1 [_ [Ht _]]]]]]; [congruence |].
    rewrite E1 in E. injection E as <- <- _.
    assert (H0 : t1 == 0).
    { rewrite Ht, (Qsum_map_ext _ (fun _ => 0)); [apply Qsum_map_zero |].
      intros n _. now apply expected_deficit_retained. }
    split; [exact H0 |]. rewrite H0. unfold Qdiv. lra.
Qed.

(** ** Nothing is negative *)






(** ** The methods on an instance that was not reset *)

Lemma node_deficit_exception g n e :
  node_deficit g n = Exc e -> e = KeyError n.
Proof.
  unfold node_deficit. destruct (node_data g n) as [d |].
  - destruct (deficit d); [discriminate |]. now intros [= <-].
  - now intros [= <-].
Qed.

Lemma deficit_items_app_raises g s r (L1 L2 : list Edge) (e : Edge) :
  NoDup (map fst (edges g)) ->
  Forall (fun e' => In e' (edges g) /\ src e' = s /\
                    exists x, node_deficit g (dst e') = Val x) L1 ->
  (forall x, node_deficit g (dst e) <> Val x) ->
  deficit_items g s r (map fst (L1 ++ e :: L2)) = Exc (KeyError (dst e)).
Proof.
  intros Hnd H1 He. induction H1 as [| e' L1 [Hin [Hs [x Hx]]] _ IH]; simpl.
  - change (snd (fst e)) with (dst e).
    destruct (node_deficit g (dst e)) as [x | ex] eqn:E;
      [now elim (He x) |].
    simpl. now rewrite (node_deficit_exception _ _ _ E).
  - change (snd (fst e')) with (dst e'). rewrite Hx. simpl.
    unfold get_absolute_deficit, edge_amount.
    rewrite <- Hs, (get_edge_data_in g e' Hnd Hin). simpl.
    rewrite Hs. simpl in IH. now rewrite IH.
Qed.

(** X6.  [apply_deficits] reads the [deficit] attribute of every partner
    before it assigns any: when a partner of the source has none (a node
    that an edge created and that no reset has touched), the call raises the
    [KeyError] naming the first such partner and leaves the instance as it
    was. *)
Theorem apply_deficits_needs_deficit_attributes
        (self : TradeGraph) (source : string) (reduction : Q)
        (before after : list string) (partner' : string) :
  NoDup (map fst (edges (G self))) ->
  map snd (out_edges (G self) source) = before ++ partner' :: after ->
  (forall p, In p before -> exists x, node_deficit (G self) p = Val x) ->
  (forall x, node_deficit (G self) partner' <> Val x) ->
  apply_deficits source reduction self = Raise (KeyError partner') self.
Proof.
  intros Hnd Hout Hbefore Hmissing.
  unfold apply_deficits, bind, query. unfold out_edges in *. cbv beta.
  set (L := filter (fun e => src e =? source) (edges (G self))) in *.
  assert (HL : forall e, In e L -> In e (edges (G self)) /\ src e = source).
  { intros e He. apply filter_In in He. destruct He as [He Es].
    apply String.eqb_eq in Es. now split. }
  rewrite map_map in Hout.
  apply map_eq_app in Hout. destruct Hout as [L1 [L2' [EL [E1 E2]]]].
  apply map_eq_cons in E2. destruct E2 as [e [L2 [-> [Ee _]]]].
  change (snd (fst e)) with (dst e) in Ee.
  assert (K : deficit_items (G self) source reduction (map fst L) =
              Exc (KeyError (dst e))).
  { rewrite EL. apply deficit_items_app_raises; [exact Hnd | |].
    - apply Forall_forall. intros e' He'.
      assert (Hin : In e' L) by (rewrite EL; apply in_or_app; now left).
      destruct (HL e' Hin) as [H1 H2]. split; [exact H1 |].
      split; [exact H2 |].
      apply Hbefore. rewrite <- E1. apply in_map_iff. now exists e'.
    - now rewrite Ee. }
  now rewrite K, Ee.
Qed.

(** ** Which fields a method writes *)

Lemma relative_view_set_deficits values self :
  relative_view (mkTradeGraph (set_node_deficits values (G self))
                              (sum_of_trade self)) =
  relative_view self.
Proof.
  unfold relative_view, set_node_deficits. simpl.
  rewrite (nodes_fold_set_node fst (fun kv => set_deficit (snd kv))).
  rewrite map_map. apply map_ext. intros [n d]. simpl. f_equal.
  induction values as [| kv values IH] using rev_ind; [reflexivity |].
  rewrite fold_left_app. simpl. now destruct (n =? fst kv).
Qed.

(** X7.  [apply_deficits] never changes a [deficit_relative] and
    [update_relative_deficits] never changes a [deficit], whether they
    return or raise. *)
Theorem deficit_fields_are_written_separately
        (source : string) (reduction : Q) (self : TradeGraph) :
  relative_view (state_of (apply_deficits source reduction self)) =
  relative_view self /\
  deficit_view (state_of (update_relative_deficits self)) = deficit_view self.
Proof.
  split.
  - unfold apply_deficits.
    apply (keeps_bind relative_view); [apply keeps_query |].
    intro values. apply keeps_update. apply relative_view_set_deficits.
  - apply keeps_deficits_update_relative_deficits.
Qed.

(** ** One source *)

(** X8.  For a scenario with one source, an evaluation that returns gives
    every partner of the source the [deficit_relative] that
    [get_relative_deficit] computes for the edge and the withheld share. *)
Theorem single_source_matches_get_relative_deficit
        (source partner' : string) (fraction a t q : Q)
        (self self' : TradeGraph) :
  wf_graph (G self) -> has_node (G self) source = true ->
  get_edge_data (G self) source partner' = Some a ->
  plot_export_restriction_scenario [(source, fraction)] self = Ok (t, q) self' ->
  exists x data y,
    get_relative_deficit (G self) source partner' (1 - fraction) = Val x /\
    node_data (G self') partner' = Some data /\
    deficit_relative data = Some y /\ x == y.
Proof.
  intros Hwf Hs Ha E.
  assert (Hv : valid_scenario (G self) [(source, fraction)])
    by (repeat constructor; exact Hs).
  destruct (plot_valid_outcome _ self Hwf Hv)
    as [[s1 E1] | [t1 [s1 [E1 [_ [_ [Hst F]]]]]]]; [congruence |].
  rewrite E1 in E. injection E as _ _ <-.
  destruct (proj1 (same_static_fields _ _) Hst) as [Hsk _].
  destruct (skeleton_names_edges _ _ Hsk) as [Hnames _].
  pose proof (wf_graph_static _ _ Hsk Hwf) as Hwf1.
  destruct (get_edge_data_some _ _ _ _ Ha) as [e [He [E1' [E2' E3']]]].
  assert (Hp : In partner' (node_names (G self))).
  { destruct Hwf as [_ [_ Hends]]. rewrite Forall_forall in Hends.
    rewrite <- E2'. now apply Hends. }
  rewrite <- Hnames in Hp. unfold node_names in Hp. apply in_map_iff in Hp.
  destruct Hp as [[n data] [Hn Hp]]. simpl in Hn. subst n.
  rewrite Forall_forall in F.
  destruct (F _ Hp) as [d [s [_ [Hd [Hsum [Hnz Hr]]]]]]. simpl in *.
  exists (a * (1 - fraction) / s * 100), data, (d / s * 100).
  split; [| split; [| split]].
  - unfold get_relative_deficit, get_absolute_deficit, edge_amount.
    rewrite Ha. simpl. rewrite Hsum. simpl.
    destruct (py_div_cases (a * (1 - fraction)) s) as [[H0 _] | [_ ->]];
      [contradiction | reflexivity].
  - apply node_data_unique; [apply Hwf1 | exact Hp].
  - exact Hr.
  - rewrite Hd. unfold expected_deficit, contribution. simpl. rewrite Ha.
    assert (H : a * (1 - fraction) + 0 == a * (1 - fraction)) by lra.
    now rewrite H.
Qed.

Lemma relative_deficit_value_fold (h : string -> Q) (l : list string) g n :
  relative_deficit_value
    (fold_left (fun g' b => set_node (set_deficit_relative (h b)) b g') l g) n =
  relative_deficit_value g n.
Proof.
  revert g. induction l as [| b l IH]; intro g; simpl; [reflexivity |].
  now rewrite IH, relative_deficit_value_set_relative.
Qed.

(** X21.  [update_relative_deficits] walks the nodes in order: at the first
    node without a [deficit] attribute (a node that an edge created and that
    no reset has touched) it raises the [KeyError] for ['deficit'], and the
    nodes before it keep the relative deficits they were just given. *)
Theorem update_relative_deficits_needs_deficit_attributes
        (self : TradeGraph) (before after : list string) (n : string)
        (data : NodeData) :
  node_names (G self) = before ++ n :: after ->
  (forall b, In b before ->
             exists v, relative_deficit_value (G self) b = Val v) ->
  node_data (G self) n = Some data -> deficit data = None ->
  exists self',
    update_relative_deficits self = Raise (KeyError "deficit") self' /\
    for_each before update_relative_deficit self = Ok tt self'.
Proof.
  intros Hnames Hbefore Hn Hd.
  set (h := fun b => match relative_deficit_value (G self) b with
                     | Val v => v
                     | Exc _ => 0
                     end).
  assert (Hh : forall b, In b before ->
                         relative_deficit_value (G self) b = Val (h b)).
  { intros b Hb. destruct (Hbefore b Hb) as [v Hv]. unfold h. now rewrite Hv. }
  pose proof (update_loop_ok h before self Hh) as E1.
  eexists. split; [| exact E1].
  unfold update_relative_deficits. unfold node_names in Hnames.
  rewrite Hnames, for_each_app, E1. simpl.
  unfold bind, update_relative_deficit at 1, query. unfold bind. simpl.
  rewrite relative_deficit_value_fold. unfold relative_deficit_value.
  now rewrite Hn, Hd.
Qed.

Lemma member_le_Qsum (l : list Q) (x : Q) :
  Forall (fun y => 0 <= y) l -> In x l -> x <= Qsum l.
Proof.
  induction 1 as [| y l Hy Hl IH]; intros []; simpl.
  - subst. pose proof (Qsum_nonneg l Hl). lra.
  - specialize (IH H). lra.
Qed.

(** X22.  On a well-formed graph with positive amounts,
    [get_relative_deficit] is defined on every edge: the import sum of the
    partner is positive, so the division cannot raise, and the value is the
    amount of the edge times the reduction, divided by that import sum,
    times 100. *)
Theorem get_relative_deficit_is_defined_on_edges
        (g : DiGraph) (e : Edge) (reduction : Q) :
  wf_graph g -> Forall (fun e' => 0 < amount e') (edges g) ->
  In e (edges g) ->
  exists s,
    get_import_sum g (dst e) = Val s /\ 0 < s /\
    get_relative_deficit g (src e) (dst e) reduction =
    Val (amount e * reduction / s * 100).
Proof.
  intros [_ [Hne _]] Hpos He.
  set (s := py_sum (map amount (filter (fun e' => dst e' =? dst e) (edges g)))).
  assert (Ha : 0 < amount e) by (rewrite Forall_forall in Hpos; now apply Hpos).
  assert (Hs : amount e <= s).
  { unfold s. rewrite py_sum_Qsum. apply member_le_Qsum.
    - apply Forall_map, Forall_forall. intros e' He'. apply filter_In in He'.
      rewrite Forall_forall in Hpos. apply Qlt_le_weak. now apply Hpos.
    - apply in_map. apply filter_In. split; [exact He | apply String.eqb_refl]. }
  exists s. split; [now apply get_import_sum_val |]. split; [lra |].
  unfold get_relative_deficit, get_absolute_deficit, edge_amount.
  rewrite (get_edge_data_in g e Hne He). simpl.
  rewrite (get_import_sum_val g (dst e) Hne). fold s. simpl.
  destruct (py_div_cases (amount e * reduction) s) as [[H0 _] | [_ ->]];
    [lra | reflexivity].
Qed.

(** X23.  When [sum_of_trade] is zero, as it is for an instance built from
    no rows, every evaluation whose sources are nodes raises
    [ZeroDivisionError], the empty scenario included. *)
Theorem no_trade_cannot_be_evaluated (scenario : Scenario) (self : TradeGraph) :
  wf_graph (G self) -> valid_scenario (G self) scenario ->
  sum_of_trade self == 0 ->
  exists self',
    plot_export_restriction_scenario scenario self =
    Raise ZeroDivisionError self'.
Proof.
  intros Hwf Hv H0.
  destruct (plot_valid_outcome scenario self Hwf Hv)
    as [H | [t [s1 [_ [Hnz _]]]]]; [exact H | contradiction].
Qed.

(** ** What a construction returns *)

Lemma unique_from_in (x : string) (l seen : list string) :
  In x (unique_from seen l) <-> In x l /\ ~ In x seen.
Proof.
  revert seen. induction l as [| y l IH]; intro seen; simpl; [tauto |].
  destruct (existsb (String.eqb y) seen) eqn:E.
  - rewrite IH. apply existsb_exists in E. destruct E as [z [Hz E]].
    apply String.eqb_eq in E. subst z.
    split; [tauto |]. intros [[-> | H] Hn]; [contradiction | tauto].
  - simpl. rewrite IH. simpl.
    assert (Hy : ~ In y seen).
    { intro H. assert (existsb (String.eqb y) seen = true).
      { apply existsb_exists. exists y. split; [exact H | apply String.eqb_refl]. }
      congruence. }
    destruct (string_dec y x) as [-> | Hne]; [tauto |].
    split; [intros [H | H]; [contradiction | tauto] |].
    intros [[H | H] Hn]; [contradiction | right; tauto].
Qed.

Lemma unique_in (x : string) (l : list string) : In x (unique l) <-> In x l.
Proof. unfold unique. rewrite unique_from_in. simpl. tauto. Qed.

Lemma add_node_names g c d n :
  In n (node_names (add_node g c d)) <-> In n (node_names g) \/ n = c.
Proof.
  unfold add_node, node_names. destruct (has_node g c) eqn:E; simpl.
  - assert (Hn : map fst (map (fun p => if node_is c p then (c, d) else p)
                              (nodes g)) = map fst (nodes g)).
    { rewrite map_map. apply map_ext. intros [m dm]. unfold node_is. simpl.
      destruct (String.eqb_spec m c); simpl; congruence. }
    rewrite Hn. split; [tauto |]. intros [H | ->]; [exact H |].
    now apply has_node_in.
  - rewrite map_app, in_app_iff. simpl. intuition (subst; auto).
Qed.

Lemma ensure_node_in g c n :
  In n (node_names (ensure_node g c)) <-> In n (node_names g) \/ n = c.
Proof.
  unfold ensure_node, node_names. destruct (has_node g c) eqn:E; simpl.
  - split; [tauto |]. intros [H | ->]; [exact H | now apply has_node_in].
  - rewrite map_app, in_app_iff. simpl. intuition (subst; auto).
Qed.

Lemma ensure_node_edges g c : edges (ensure_node g c) = edges g.
Proof. unfold ensure_node. now destruct (has_node g c). Qed.

Lemma add_edge_names g u v a n :
  In n (node_names (add_edge g u v a)) <->
  In n (node_names g) \/ n = u \/ n = v.
Proof.
  unfold add_edge.
  assert (H : In n (node_names (ensure_node (ensure_node g u) v)) <->
              In n (node_names g) \/ n = u \/ n = v)
    by (rewrite !ensure_node_in; tauto).
  now destruct (has_edge _ u v).
Qed.

Lemma add_edge_keys g u v a k :
  In k (map fst (edges (add_edge g u v a))) <->
  In k (map fst (edges g)) \/ k = (u, v).
Proof.
  unfold add_edge.
  destruct (has_edge (ensure_node (ensure_node g u) v) u v) eqn:E; simpl;
    rewrite !ensure_node_edges in *.
  - assert (Hk : map fst (map (fun e => if edge_is u v e then (u, v, a) else e)
                              (edges g)) = map fst (edges g)).
    { rewrite map_map. apply map_ext. intro e.
      destruct (edge_is u v e) eqn:Ee; [| reflexivity].
      apply edge_is_true in Ee. destruct Ee as [<- <-]. simpl.
      symmetry. apply edge_key. }
    rewrite Hk. split; [tauto |]. intros [H | ->]; [exact H |].
    apply has_edge_in. unfold has_edge in *.
    now rewrite !ensure_node_edges in E.
  - rewrite map_app, in_app_iff. simpl. intuition (subst; auto).
Qed.

Lemma has_edge_add_edge g u v a x y :
  has_edge (add_edge g u v a) x y = true <->
  has_edge g x y = true \/ (x = u /\ y = v).
Proof.
  rewrite !has_edge_in, add_edge_keys.
  split; (intros [H | H]; [now left | right]);
    [now injection H | destruct H; congruence].
Qed.

Lemma specified_neq u v :
  (unspecified_area =? u) || (unspecified_area =? v) = false <->
  u <> unspecified_area /\ v <> unspecified_area.
Proof.
  rewrite orb_false_iff, !String.eqb_neq. split; intros [H1 H2]; split; congruence.
Qed.

Lemma created_edge row uv printed :
  create_nx_edge_from_trade_row row = (Some uv, printed) ->
  recognised row /\ printed = [] /\ reported_pair row = Some uv.
Proof.
  unfold reported_pair. intro E. rewrite E. simpl.
  unfold create_nx_edge_from_trade_row, recognised in *.
  destruct (String.eqb_spec (element row) "Import Quantity") as [H | _].
  - injection E as _ <-. tauto.
  - destruct (String.eqb_spec (element row) "Export Quantity") as [H | _].
    + injection E as _ <-. tauto.
    + discriminate E.
Qed.

(** The loop over the rows returns exactly when every row has a known
    element, and then it has printed nothing. *)
Lemma add_trade_rows_returns_iff (rows : list TradeRow) :
  forall g out,
    (exists g' out', add_trade_rows rows g out = (Val g', out')) <->
    Forall recognised rows.
Proof.
  induction rows as [| row rows IH]; intros g out.
  - split; [constructor | intros _; now exists g, out].
  - rewrite add_trade_rows_cons. split.
    + intros [g' [out' E]].
      destruct (create_nx_edge_from_trade_row row) as [[[u v] |] printed] eqn:Er;
        [| discriminate E].
      destruct (created_edge _ _ _ Er) as [Hr _]. constructor; [exact Hr |].
      destruct ((unspecified_area =? u) || (unspecified_area =? v)).
      * apply (IH g (out ++ printed)). eauto.
      * destruct (has_edge g u v).
        -- destruct (get_combined_trade_estimate g u v (value row));
             [| discriminate E]. eapply IH. eauto.
        -- eapply IH. eauto.
    + intro H. inversion H as [| r rs Hr Hrs]; subst.
      destruct (recognised_row row Hr) as [u [v ->]].
      destruct ((unspecified_area =? u) || (unspecified_area =? v));
        [now apply IH |].
      destruct (has_edge g u v) eqn:E; [| now apply IH].
      apply has_edge_get_edge_data in E. destruct E as [x E].
      unfold get_combined_trade_estimate. rewrite E. now apply IH.
Qed.

Lemma add_trade_rows_prints_nothing (rows : list TradeRow) :
  forall g out g' out',
    add_trade_rows rows g out = (Val g', out') -> out' = out.
Proof.
  induction rows as [| row rows IH]; intros g out g' out' E.
  - simpl in E. now injection E.
  - rewrite add_trade_rows_cons in E.
    destruct (create_nx_edge_from_trade_row row) as [[[u v] |] printed] eqn:Er;
      [| discriminate E].
    destruct (created_edge _ _ _ Er) as [_ [-> _]]. rewrite app_nil_r in E.
    destruct ((unspecified_area =? u) || (unspecified_area =? v));
      [now apply (IH _ _ _ _ E) |].
    destruct (has_edge g u v).
    + destruct (get_combined_trade_estimate g u v (value row));
        [| discriminate E]. now apply (IH _ _ _ _ E).
    + now apply (IH _ _ _ _ E).
Qed.

Section LookupTables.

Variable name_to_iso_alpha : string -> option string.
Variable name_to_centroid : string -> option (Q * Q).

Lemma add_country_nodes_returns_iff (countries : list string) :
  forall g,
    (exists g', add_country_nodes name_to_iso_alpha name_to_centroid
                                  countries g = Val g') <->
    (forall c, In c countries -> c <> unspecified_area ->
               resolved name_to_iso_alpha name_to_centroid c).
Proof.
  induction countries as [| c countries IH]; intro g.
  - split; [intros _ c [] | intros _; now exists g].
  - rewrite add_country_nodes_cons.
    destruct (String.eqb_spec c unspecified_area) as [Ec | Ec].
    + rewrite IH. split; intros H c' Hc'.
      * destruct Hc' as [<- | Hc']; [contradiction | now apply H].
      * apply H. now right.
    + unfold get_iso_alpha_from_country_name, get_lon_lat_from_country_name.
      unfold resolved in *.
      destruct (name_to_iso_alpha c) as [i |] eqn:Ei; simpl.
      * destruct (name_to_centroid c) as [ce |] eqn:Ece; simpl.
        -- rewrite IH. split; intros H c' Hc'.
           ++ destruct Hc' as [<- | Hc']; [| now apply H].
              intros _. rewrite Ei, Ece. split; discriminate.
           ++ apply H. now right.
        -- split; [intros [g' E]; discriminate E |].
           intro H. destruct (H c (or_introl eq_refl) Ec) as [_ H2].
           now elim H2.
      * split; [intros [g' E]; discriminate E |].
        intro H. destruct (H c (or_introl eq_refl) Ec) as [H1 _].
        now elim H1.
Qed.

(** The loop over the partners up to the first one that a table misses. *)
Lemma add_country_nodes_first_missing (before after : list string) (c : string) :
  forall g,
    (forall b, In b before ->
               b = unspecified_area \/
               resolved name_to_iso_alpha name_to_centroid b) ->
    c <> unspecified_area ->
    ~ resolved name_to_iso_alpha name_to_centroid c ->
    add_country_nodes name_to_iso_alpha name_to_centroid
                      (before ++ c :: after) g = Exc (KeyError c).
Proof.
  intros g Hb Hc Hmiss. revert g.
  induction before as [| b before IH]; intro g.
  - simpl app. rewrite add_country_nodes_cons.
    destruct (String.eqb_spec c unspecified_area) as [E | _]; [contradiction |].
    unfold get_iso_alpha_from_country_name, get_lon_lat_from_country_name.
    unfold resolved in Hmiss.
    destruct (name_to_iso_alpha c); simpl; [| reflexivity].
    destruct (name_to_centroid c); simpl; [| reflexivity].
    elim Hmiss. split; discriminate.
  - rewrite <- app_comm_cons, add_country_nodes_cons.
    assert (IH' := IH (fun b' H => Hb b' (or_intror H))).
    destruct (String.eqb_spec b unspecified_area) as [E | E]; [apply IH' |].
    destruct (Hb b (or_introl eq_refl)) as [Hu | [H1 H2]]; [contradiction |].
    unfold get_iso_alpha_from_country_name, get_lon_lat_from_country_name.
    destruct (name_to_iso_alpha b); [| now elim H1].
    destruct (name_to_centroid b); [| now elim H2].
    simpl. apply IH'.
Qed.

(** X9.  [__init__] returns an instance exactly when every row has the
    element ["Import Quantity"] or ["Export Quantity"] and every partner
    other than ["Unspecified Area"] is in both lookup tables; a construction
    that returns has printed nothing. *)
Theorem construction_returns_iff (trade_data : list TradeRow) :
  ((exists tg out,
       __init__ name_to_iso_alpha name_to_centroid trade_data = (Val tg, out))
   <->
   (Forall recognised trade_data /\
    forall row, In row trade_data -> partner row <> unspecified_area ->
                name_to_iso_alpha (partner row) <> None /\
                name_to_centroid (partner row) <> None)) /\
  (forall tg out,
      __init__ name_to_iso_alpha name_to_centroid trade_data = (Val tg, out) ->
      out = []).
Proof.
  assert (Hpartners :
            (forall c, In c (unique (map partner trade_data)) ->
                       c <> unspecified_area ->
                       resolved name_to_iso_alpha name_to_centroid c) <->
            (forall row, In row trade_data -> partner row <> unspecified_area ->
                         resolved name_to_iso_alpha name_to_centroid
                                  (partner row))).
  { split.
    - intros H row Hrow. apply H. apply unique_in. now apply in_map.
    - intros H c Hc. apply unique_in, in_map_iff in Hc.
      destruct Hc as [row [<- Hrow]]. now apply H. }
  unfold __init__. split; [split |].
  - intros [tg [out E]].
    destruct (add_country_nodes _ _ _ empty_graph) as [g0 |] eqn:E0;
      [| discriminate E].
    destruct (add_trade_rows trade_data g0 []) as [[g |] out1] eqn:E1;
      [| discriminate E].
    split.
    + apply (add_trade_rows_returns_iff trade_data g0 []). eauto.
    + apply Hpartners.
      apply (add_country_nodes_returns_iff _ empty_graph). eauto.
  - intros [Hrows Hres].
    destruct (proj2 (add_country_nodes_returns_iff _ empty_graph)
                    (proj2 Hpartners Hres)) as [g0 ->].
    destruct (proj2 (add_trade_rows_returns_iff trade_data g0 []) Hrows)
      as [g [out ->]].
    eauto.
  - intros tg out E.
    destruct (add_country_nodes _ _ _ empty_graph) as [g0 |] eqn:E0;
      [| discriminate E].
    destruct (add_trade_rows trade_data g0 []) as [[g |] out1] eqn:E1;
      [| discriminate E].
    injection E as _ <-. now apply (add_trade_rows_prints_nothing _ _ _ _ _ E1).
Qed.

(** X10.  The partners are looked up, in order of first appearance, before
    any row is read: at the first partner other than ["Unspecified Area"]
    that one of the tables misses, the construction ends with the [KeyError]
    naming it and nothing printed, whatever the elements of the rows. *)
Theorem construction_key_error_names_first_missing_partner
        (trade_data : list TradeRow) (before after : list string) (c : string) :
  unique (map partner trade_data) = before ++ c :: after ->
  (forall b, In b before ->
             b = unspecified_area \/
             (name_to_iso_alpha b <> None /\ name_to_centroid b <> None)) ->
  c <> unspecified_area ->
  name_to_iso_alpha c = None \/ name_to_centroid c = None ->
  __init__ name_to_iso_alpha name_to_centroid trade_data =
  (Exc (KeyError c), []).
Proof.
  intros Eu Hb Hc Hmiss. unfold __init__. rewrite Eu.
  rewrite (add_country_nodes_first_missing before after c empty_graph Hb Hc);
    [reflexivity |].
  unfold resolved. intros [H1 H2]. destruct Hmiss; contradiction.
Qed.

End LookupTables.

(** ** The nodes and the edges of a constructed graph *)

Lemma created_pair row u v printed :
  create_nx_edge_from_trade_row row = (Some (u, v), printed) ->
  reported_pair row = Some (u, v).
Proof. intro E. apply (created_edge _ _ _ E). Qed.

(** The nodes and the edges that the loop over the rows adds. *)
Lemma add_trade_rows_adds (rows : list TradeRow) :
  forall g out g' out',
    add_trade_rows rows g out = (Val g', out') ->
    (forall n, In n (node_names g') <->
               In n (node_names g) \/
               exists row u v, In row rows /\ kept_pair row u v /\
                               (n = u \/ n = v)) /\
    (forall u v, has_edge g' u v = true <->
                 has_edge g u v = true \/
                 exists row, In row rows /\ kept_pair row u v).
Proof.
  induction rows as [| row rows IH]; intros g out g' out' E.
  - simpl in E. injection E as <- _. split.
    + intro n. split; [tauto |]. intros [H | [r [u [v [[] _]]]]]. exact H.
    + intros u v. split; [tauto |]. intros [H | [r [[] _]]]. exact H.
  - rewrite add_trade_rows_cons in E.
    destruct (create_nx_edge_from_trade_row row) as [[[u v] |] printed] eqn:Er;
      [| discriminate E].
    pose proof (created_pair _ _ _ _ Er) as Hp.
    destruct ((unspecified_area =? u) || (unspecified_area =? v)) eqn:Eu.
    + destruct (IH _ _ _ _ E) as [IH1 IH2]. split.
      * intro n. rewrite IH1. split; (intros [H | H]; [now left | right]).
        -- destruct H as [r [x [y [H1 H2]]]]. exists r, x, y.
           split; [now right | exact H2].
        -- destruct H as [r [x [y [[<- | H1] [H2 H3]]]]];
             [| exists r, x, y; tauto].
           destruct H2 as [H2 [H4 H5]]. rewrite Hp in H2.
           injection H2 as <- <-.
           apply orb_true_iff in Eu.
           destruct Eu as [Eu | Eu]; apply String.eqb_eq in Eu; congruence.
      * intros x y. rewrite IH2. split; (intros [H | H]; [now left | right]).
        -- destruct H as [r [H1 H2]]. exists r. split; [now right | exact H2].
        -- destruct H as [r [[<- | H1] H2]]; [| exists r; tauto].
           destruct H2 as [H2 [H4 H5]]. rewrite Hp in H2.
           injection H2 as <- <-.
           apply orb_true_iff in Eu.
           destruct Eu as [Eu | Eu]; apply String.eqb_eq in Eu; congruence.
    + apply specified_neq in Eu.
      assert (Hk : kept_pair row u v) by (split; [exact Hp | exact Eu]).
      assert (Hstep : forall a g1 o1,
                 add_trade_rows rows (add_edge g u v a) o1 = (Val g', out') ->
                 g1 = add_edge g u v a ->
                 (forall n, In n (node_names g') <->
                            In n (node_names g) \/
                            exists row0 u0 v0, In row0 (row :: rows) /\
                                               kept_pair row0 u0 v0 /\
                                               (n = u0 \/ n = v0)) /\
                 (forall x y, has_edge g' x y = true <->
                              has_edge g x y = true \/
                              exists row0, In row0 (row :: rows) /\
                                           kept_pair row0 x y)).
      { intros a g1 o1 E1 _. destruct (IH _ _ _ _ E1) as [IH1 IH2]. split.
        - intro n. rewrite IH1, add_edge_names. split.
          + intros [[H | H] | [r [x [y [H1 H2]]]]]; [now left | |].
            * right. exists row, u, v. split; [now left | tauto].
            * right. exists r, x, y. split; [now right | exact H2].
          + intros [H | [r [x [y [[<- | H1] [H2 H3]]]]]]; [tauto | |].
            * left. right. destruct H2 as [H2 _]. rewrite Hp in H2.
              injection H2 as <- <-. exact H3.
            * right. exists r, x, y. tauto.
        - intros x y. rewrite IH2, has_edge_add_edge. split.
          + intros [[H | [-> ->]] | [r [H1 H2]]]; [now left | |].
            * right. exists row. split; [now left | exact Hk].
            * right. exists r. split; [now right | exact H2].
          + intros [H | [r [[<- | H1] H2]]]; [tauto | |].
            * left. right. destruct H2 as [H2 _]. rewrite Hp in H2.
              now injection H2 as <- <-.
            * right. exists r. tauto. }
      destruct (has_edge g u v).
      * destruct (get_combined_trade_estimate g u v (value row)) as [a |];
          [| discriminate E].
        exact (Hstep a _ _ E eq_refl).
      * exact (Hstep (value row) _ _ E eq_refl).
Qed.

Lemma nodes_add_node (P : string * NodeData -> Prop) g c d :
  Forall P (nodes g) -> P (c, d) -> Forall P (nodes (add_node g c d)).
Proof.
  intros H Hc. unfold add_node. destruct (has_node g c); simpl.
  - apply Forall_map. eapply Forall_impl; [| exact H]. simpl.
    intros p Hp. now destruct (node_is c p).
  - apply Forall_app. split; [exact H | now constructor].
Qed.

Lemma nodes_ensure_node (P : string * NodeData -> Prop) g n :
  Forall P (nodes g) -> (has_node g n = false -> P (n, no_attributes)) ->
  Forall P (nodes (ensure_node g n)).
Proof.
  intros H Hn. unfold ensure_node. destruct (has_node g n); simpl;
    [exact H |].
  apply Forall_app. split; [exact H |]. constructor; [now apply Hn | constructor].
Qed.

Lemma add_edge_nodes g u v a :
  nodes (add_edge g u v a) = nodes (ensure_node (ensure_node g u) v).
Proof. unfold add_edge. now destruct (has_edge _ u v). Qed.

Lemma has_node_false g n : has_node g n = false <-> ~ In n (node_names g).
Proof.
  rewrite <- has_node_in. destruct (has_node g n); split; congruence.
Qed.

Section NodesOfConstruction.

Variable name_to_iso_alpha : string -> option string.
Variable name_to_centroid : string -> option (Q * Q).

(** The nodes that the loop over the partners adds, and their attributes. *)
Lemma add_country_nodes_adds (partners countries : list string) :
  forall g g',
    incl countries partners ->
    add_country_nodes name_to_iso_alpha name_to_centroid countries g = Val g' ->
    (forall n, In n (node_names g') <->
               In n (node_names g) \/
               (In n countries /\ n <> unspecified_area)) /\
    (Forall (attributes_as_constructed name_to_iso_alpha name_to_centroid
                                       partners) (nodes g) ->
     Forall (attributes_as_constructed name_to_iso_alpha name_to_centroid
                                       partners) (nodes g')).
Proof.
  induction countries as [| c countries IH]; intros g g' Hincl E.
  - simpl in E. injection E as <-. split; [| auto].
    intro n. simpl. tauto.
  - rewrite add_country_nodes_cons in E.
    assert (Hincl' : incl countries partners)
      by (intros x Hx; apply Hincl; now right).
    destruct (String.eqb_spec c unspecified_area) as [Ec | Ec].
    + destruct (IH _ _ Hincl' E) as [IH1 IH2]. split; [| exact IH2].
      intro n. rewrite IH1. simpl. intuition (subst; auto). congruence.
    + unfold get_iso_alpha_from_country_name, get_lon_lat_from_country_name in E.
      destruct (name_to_iso_alpha c) as [i |] eqn:Ei; [| discriminate E].
      destruct (name_to_centroid c) as [ce |] eqn:Ece; [| discriminate E].
      simpl in E. destruct (IH _ _ Hincl' E) as [IH1 IH2]. split.
      * intro n. rewrite IH1, add_node_names. simpl.
        intuition (subst; auto).
      * intro H. apply IH2. apply nodes_add_node; [exact H |].
        left. simpl. split; [apply Hincl; now left |]. now exists i, ce.
Qed.

(** X11.  The nodes of a graph that [__init__] returns are the partners
    other than ["Unspecified Area"] and the two countries of every kept
    row; ["Unspecified Area"] is neither a node nor an end point of an
    edge. *)
Theorem nodes_of_constructed_graph
        (trade_data : list TradeRow) (tg : TradeGraph) (out : list string) :
  __init__ name_to_iso_alpha name_to_centroid trade_data = (Val tg, out) ->
  (forall n, In n (node_names (G tg)) <->
             (In n (map partner trade_data) /\ n <> unspecified_area) \/
             exists row u v, In row trade_data /\ kept_pair row u v /\
                             (n = u \/ n = v)) /\
  ~ In unspecified_area (node_names (G tg)) /\
  Forall (fun e => src e <> unspecified_area /\ dst e <> unspecified_area)
         (edges (G tg)).
Proof.
  intro E. destruct (init_returns _ _ _ _ _ E) as [[_ [_ Hends]] _].
  unfold __init__ in E.
  destruct (add_country_nodes _ _ _ empty_graph) as [g0 |] eqn:E0;
    [| discriminate E].
  destruct (add_trade_rows trade_data g0 []) as [[g |] out1] eqn:E1;
    [| discriminate E].
  injection E as <- _. simpl in *.
  destruct (add_country_nodes_adds _ _ _ _ (incl_refl _) E0) as [N0 _].
  destruct (add_trade_rows_adds _ _ _ _ _ E1) as [N1 _].
  assert (Hnodes : forall n, In n (node_names g) <->
             (In n (map partner trade_data) /\ n <> unspecified_area) \/
             exists row u v, In row trade_data /\ kept_pair row u v /\
                             (n = u \/ n = v)).
  { intro n. rewrite N1, N0, unique_in. simpl. tauto. }
  assert (Hno : ~ In unspecified_area (node_names g)).
  { rewrite Hnodes. intros [[_ H] | [row [u [v [_ [[_ [Hu Hv]] [H | H]]]]]]];
      congruence. }
  split; [exact Hnodes |]. split; [exact Hno |].
  eapply Forall_impl; [| exact Hends]. simpl. intros e [H1 H2].
  split; intro H; rewrite H in *; contradiction.
Qed.

(** X12.  A graph that [__init__] returns has the edge [u -> v] exactly
    when some row reports the pair, as an export of [u] to [v] or an import
    of [v] from [u], and neither country is ["Unspecified Area"]. *)
Theorem edge_iff_reported
        (trade_data : list TradeRow) (tg : TradeGraph) (out : list string)
        (u v : string) :
  __init__ name_to_iso_alpha name_to_centroid trade_data = (Val tg, out) ->
  (has_edge (G tg) u v = true <->
   exists row, In row trade_data /\ kept_pair row u v).
Proof.
  unfold __init__. intro E.
  destruct (add_country_nodes _ _ _ empty_graph) as [g0 |] eqn:E0;
    [| discriminate E].
  destruct (add_trade_rows trade_data g0 []) as [[g |] out1] eqn:E1;
    [| discriminate E].
  injection E as <- _. simpl.
  destruct (add_trade_rows_adds _ _ _ _ _ E1) as [_ H]. rewrite H.
  unfold has_edge. rewrite (add_country_nodes_edges _ _ _ _ _ E0). simpl.
  split; [intros [H0 | H0]; [discriminate H0 | exact H0] | now right].
Qed.

Lemma add_trade_rows_attributes (partners : list string)
      (rows : list TradeRow) :
  forall g out g' out',
    add_trade_rows rows g out = (Val g', out') ->
    (forall p, In p partners -> p <> unspecified_area ->
               In p (node_names g)) ->
    Forall (attributes_as_constructed name_to_iso_alpha name_to_centroid
                                      partners) (nodes g) ->
    Forall (attributes_as_constructed name_to_iso_alpha name_to_centroid
                                      partners) (nodes g').
Proof.
  induction rows as [| row rows IH]; intros g out g' out' E HP HA.
  - simpl in E. now injection E as <- _.
  - rewrite add_trade_rows_cons in E.
    destruct (create_nx_edge_from_trade_row row) as [[[u v] |] printed] eqn:Er;
      [| discriminate E].
    destruct ((unspecified_area =? u) || (unspecified_area =? v)) eqn:Eu;
      [now apply (IH _ _ _ _ E) |].
    apply specified_neq in Eu. destruct Eu as [Hu Hv].
    assert (Hstep : forall a o1,
               add_trade_rows rows (add_edge g u v a) o1 = (Val g', out') ->
               Forall (attributes_as_constructed
                         name_to_iso_alpha name_to_centroid partners)
                      (nodes g')).
    { intros a o1 E1. apply (IH _ _ _ _ E1).
      - intros p Hp Hpu. apply add_edge_names. left. now apply HP.
      - rewrite add_edge_nodes.
        assert (Hbare : forall g0 n,
                   (forall p, In p partners -> p <> unspecified_area ->
                              In p (node_names g0)) ->
                   n <> unspecified_area -> has_node g0 n = false ->
                   attributes_as_constructed
                     name_to_iso_alpha name_to_centroid partners
                     (n, no_attributes)).
        { intros g0 n HP0 Hn Hno. right. simpl. split; [| reflexivity].
          intro Hin. apply has_node_false in Hno. apply Hno.
          now apply HP0. }
        apply nodes_ensure_node.
        + apply nodes_ensure_node; [exact HA |]. now apply Hbare.
        + apply Hbare; [| exact Hv].
          intros p Hp Hpu. apply ensure_node_in. left. now apply HP. }
    destruct (has_edge g u v).
    + destruct (get_combined_trade_estimate g u v (value row)) as [a |];
        [| discriminate E].
      exact (Hstep a _ E).
    + exact (Hstep (value row) _ E).
Qed.

(** X13.  In a graph that [__init__] returns, a node that is a partner of
    some row carries its name, the iso code and the centroid of the lookup
    tables and zeroed numbers; a node that is never a partner (a country
    that only reports) carries no attribute at all, neither iso code nor
    centroid nor deficit. *)
Theorem attributes_of_constructed_nodes
        (trade_data : list TradeRow) (tg : TradeGraph) (out : list string) :
  __init__ name_to_iso_alpha name_to_centroid trade_data = (Val tg, out) ->
  Forall (attributes_as_constructed name_to_iso_alpha name_to_centroid
                                    (map partner trade_data))
         (nodes (G tg)).
Proof.
  unfold __init__. intro E.
  destruct (add_country_nodes _ _ _ empty_graph) as [g0 |] eqn:E0;
    [| discriminate E].
  destruct (add_trade_rows trade_data g0 []) as [[g |] out1] eqn:E1;
    [| discriminate E].
  injection E as <- _. simpl.
  assert (Hincl : incl (unique (map partner trade_data))
                       (map partner trade_data))
    by (intros x Hx; now apply unique_in).
  destruct (add_country_nodes_adds _ _ _ _ Hincl E0) as [N0 A0].
  apply (add_trade_rows_attributes _ _ _ _ _ _ E1).
  - intros p Hp Hpu. apply N0. right. split; [now apply unique_in | exact Hpu].
  - apply A0. constructor.
Qed.

(** X14.  Rows with non-negative values give a graph whose edge amounts
    are all non-negative, and a non-negative [sum_of_trade]. *)
Theorem amounts_of_constructed_graph_nonneg
        (trade_data : list TradeRow) (tg : TradeGraph) (out : list string) :
  Forall (fun row => 0 <= value row) trade_data ->
  __init__ name_to_iso_alpha name_to_centroid trade_data = (Val tg, out) ->
  Forall (fun e => 0 <= amount e) (edges (G tg)) /\ 0 <= sum_of_trade tg.
Proof.
  intros Hrows E.
  pose proof (init_amounts_nonneg _ _ _ _ _ Hrows E) as Hpos.
  split; [exact Hpos |].
  destruct (init_returns _ _ _ _ _ E) as [Hwf ->].
  rewrite (sum_edges_data _ Hwf). apply Qsum_nonneg.
  now apply Forall_map.
Qed.

End NodesOfConstruction.

(** ** Reports that do not conflict *)

Lemma add_edge_new g u v a :
  has_edge g u v = false -> edges (add_edge g u v a) = edges g ++ [(u, v, a)].
Proof.
  intro H. unfold add_edge.
  assert (H' : has_edge (ensure_node (ensure_node g u) v) u v = false)
    by (unfold has_edge in *; now rewrite !ensure_node_edges).
  rewrite H'. simpl. now rewrite !ensure_node_edges.
Qed.

Lemma report_of_created row u v printed :
  create_nx_edge_from_trade_row row = (Some (u, v), printed) ->
  report row = if (unspecified_area =? u) || (unspecified_area =? v)
               then [] else [(u, v, value row)].
Proof. intro E. unfold report. now rewrite (created_pair _ _ _ _ E). Qed.

(** Without two reports of one pair, the loop appends the reports. *)
Lemma add_trade_rows_appends (rows : list TradeRow) :
  forall g out g' out',
    add_trade_rows rows g out = (Val g', out') ->
    NoDup (map fst (edges g ++ reports rows)) ->
    edges g' = edges g ++ reports rows.
Proof.
  induction rows as [| row rows IH]; intros g out g' out' E Hnd.
  - simpl in E. injection E as <- _. unfold reports. simpl.
    now rewrite app_nil_r.
  - rewrite add_trade_rows_cons in E.
    destruct (create_nx_edge_from_trade_row row) as [[[u v] |] printed] eqn:Er;
      [| discriminate E].
    unfold reports in *. simpl flat_map in *.
    rewrite (report_of_created _ _ _ _ Er) in *.
    destruct ((unspecified_area =? u) || (unspecified_area =? v));
      [now apply (IH _ _ _ _ E) |].
    simpl app in *.
    assert (Hnew : has_edge g u v = false).
    { destruct (has_edge g u v) eqn:Eh; [| reflexivity].
      apply has_edge_in in Eh. rewrite map_app in Hnd. simpl in Hnd.
      apply NoDup_remove_2 in Hnd. elim Hnd. apply in_or_app. now left. }
    rewrite Hnew in E.
    rewrite (IH _ _ _ _ E); rewrite (add_edge_new _ _ _ _ Hnew).
    + now rewrite <- app_assoc.
    + now rewrite <- app_assoc.
Qed.

Lemma report_of_kept row u v :
  kept_pair row u v -> report row = [(u, v, value row)].
Proof.
  intros [Hp [Hu Hv]]. unfold report. rewrite Hp.
  now rewrite (not_unspecified u v Hu Hv).
Qed.

(** X15.  When no ordered pair of countries is reported by two kept rows,
    every kept row's pair is an edge of the graph that [__init__] returns
    and carries the value that the row reports, and [G.out_edges] and
    [G.in_edges] list, for every node, its kept reports in row order. *)
Theorem reports_without_conflict_keep_value_and_order
        (name_to_iso_alpha : string -> option string)
        (name_to_centroid : string -> option (Q * Q))
        (trade_data : list TradeRow) (tg : TradeGraph) (out : list string) :
  __init__ name_to_iso_alpha name_to_centroid trade_data = (Val tg, out) ->
  NoDup (map fst (reports trade_data)) ->
  (forall row u v,
      In row trade_data -> kept_pair row u v ->
      get_edge_data (G tg) u v = Some (value row)) /\
  (forall u, In u (node_names (G tg)) ->
             out_edges (G tg) u =
             map fst (filter (fun e => src e =? u) (reports trade_data))) /\
  (forall v, In v (node_names (G tg)) ->
             in_edges (G tg) v =
             map fst (filter (fun e => dst e =? v) (reports trade_data))).
Proof.
  intros E Hnd.
  assert (He : edges (G tg) = reports trade_data).
  { unfold __init__ in E.
    destruct (add_country_nodes _ _ _ empty_graph) as [g0 |] eqn:E0;
      [| discriminate E].
    destruct (add_trade_rows trade_data g0 []) as [[g |] out1] eqn:E1;
      [| discriminate E].
    injection E as <- _. simpl.
    pose proof (add_country_nodes_edges _ _ _ _ _ E0) as H0. simpl in H0.
    rewrite (add_trade_rows_appends _ _ _ _ _ E1); rewrite H0; [reflexivity |].
    exact Hnd. }
  split; [| split].
  - intros row u v Hrow Hk.
    assert (Hin : In (u, v, value row) (edges (G tg))).
    { rewrite He. unfold reports. apply in_flat_map. exists row.
      split; [exact Hrow |]. rewrite (report_of_kept _ _ _ Hk). now left. }
    rewrite <- He in Hnd.
    exact (get_edge_data_in (G tg) (u, v, value row) Hnd Hin).
  - intros u _. unfold out_edges. now rewrite He.
  - intros v _. unfold in_edges. now rewrite He.
Qed.
(** ** The export and import dictionaries *)

Lemma dict_set_new (k : string) (v : Q) (d : Dict) :
  ~ In k (map fst d) -> dict_set k v d = d ++ [(k, v)].
Proof.
  induction d as [| kv d IH]; simpl; intro H; [reflexivity |].
  destruct (String.eqb_spec (fst kv) k) as [E | _]; [elim H; now left |].
  rewrite IH; [reflexivity |]. intro Hin. apply H. now right.
Qed.

(** A comprehension whose keys are new and distinct appends its items. *)
Lemma dict_comprehension_distinct {A B} (k : B -> A) (key : A -> string)
      (val : A -> result Q) (h : B -> Q) (l : list B) :
  (forall x, In x l -> val (k x) = Val (h x)) ->
  forall d,
    NoDup (map fst d ++ map (fun x => key (k x)) l) ->
    dict_comprehension key val (map k l) d =
    Val (d ++ map (fun x => (key (k x), h x)) l).
Proof.
  induction l as [| x l IH]; intros Hval d Hnd; simpl.
  - now rewrite app_nil_r.
  - rewrite (Hval x (or_introl eq_refl)). simpl.
    simpl in Hnd. rewrite dict_set_new.
    + rewrite IH.
      * now rewrite <- app_assoc.
      * intros y Hy. apply Hval. now right.
      * rewrite map_app, <- app_assoc. exact Hnd.
    + apply NoDup_remove_2 in Hnd. intro H. apply Hnd. apply in_or_app.
      now left.
Qed.

Lemma NoDup_src_of_destination (n : string) (L : list Edge) :
  NoDup (map fst L) -> Forall (fun e => dst e = n) L -> NoDup (map src L).
Proof.
  induction L as [| e L IH]; simpl; intros Hnd Hs; [constructor |].
  inversion Hnd as [| k ks Hk Hnd']; subst.
  inversion Hs as [| e' L' He HL]; subst.
  constructor; [| now apply IH].
  intro Hin. apply Hk. apply in_map_iff in Hin. destruct Hin as [e' [E1 E2]].
  apply in_map_iff. exists e'. split; [| exact E2].
  rewrite Forall_forall in HL. rewrite (edge_key e'), (edge_key e).
  now rewrite E1, (HL _ E2).
Qed.

Lemma get_export_dict_val g u :
  NoDup (map fst (edges g)) ->
  get_export_dict g u =
  Val (map (fun e => (dst e, amount e))
           (filter (fun e => src e =? u) (edges g))).
Proof.
  intro Hnd. unfold get_export_dict, out_edges.
  set (L := filter (fun e => src e =? u) (edges g)).
  assert (HL : Forall (fun e => In e (edges g) /\ src e = u) L).
  { apply Forall_forall. intros e He. apply filter_In in He.
    destruct He as [He Es]. apply String.eqb_eq in Es. now split. }
  rewrite (dict_comprehension_distinct fst snd _ amount L).
  - reflexivity.
  - intros e He. rewrite Forall_forall in HL. destruct (HL e He) as [Hin Es].
    unfold edge_amount. change (snd (fst e)) with (dst e).
    now rewrite <- Es, (get_edge_data_in g e Hnd Hin).
  - simpl. apply (NoDup_dst_of_source u).
    + now apply filter_keys_NoDup.
    + eapply Forall_impl; [| exact HL]. simpl. tauto.
Qed.

Lemma get_import_dict_val g v :
  NoDup (map fst (edges g)) ->
  get_import_dict g v =
  Val (map (fun e => (src e, amount e))
           (filter (fun e => dst e =? v) (edges g))).
Proof.
  intro Hnd. unfold get_import_dict, in_edges.
  set (L := filter (fun e => dst e =? v) (edges g)).
  assert (HL : Forall (fun e => In e (edges g) /\ dst e = v) L).
  { apply Forall_forall. intros e He. apply filter_In in He.
    destruct He as [He Es]. apply String.eqb_eq in Es. now split. }
  rewrite (dict_comprehension_distinct fst fst _ amount L).
  - reflexivity.
  - intros e He. rewrite Forall_forall in HL. destruct (HL e He) as [Hin Es].
    unfold edge_amount. change (fst (fst e)) with (src e).
    now rewrite <- Es, (get_edge_data_in g e Hnd Hin).
  - simpl. apply (NoDup_src_of_destination v).
    + now apply filter_keys_NoDup.
    + eapply Forall_impl; [| exact HL]. simpl. tauto.
Qed.

Lemma dict_get_exports (es : list Edge) (u w : string) :
  dict_get w (map (fun e => (dst e, amount e))
                  (filter (fun e => src e =? u) es)) =
  option_map amount (find (edge_is u w) es).
Proof.
  unfold dict_get. induction es as [| e es IH]; simpl; [reflexivity |].
  unfold edge_is at 1. destruct (src e =? u); simpl; [| exact IH].
  destruct (dst e =? w); simpl; [reflexivity | exact IH].
Qed.

Lemma dict_get_imports (es : list Edge) (v w : string) :
  dict_get w (map (fun e => (src e, amount e))
                  (filter (fun e => dst e =? v) es)) =
  option_map amount (find (edge_is w v) es).
Proof.
  unfold dict_get. induction es as [| e es IH]; simpl; [reflexivity |].
  unfold edge_is at 1. destruct (dst e =? v); simpl.
  - destruct (src e =? w); simpl; [reflexivity | exact IH].
  - rewrite andb_false_r. exact IH.
Qed.

(** X16.  On a graph with one edge per ordered pair, for two nodes [u] and
    [v], the export dictionary of [u] and the import dictionary of [v] are
    defined; the entry of the first for a country [w] is the data of the
    edge [u -> w], absent without edge, the entry of the second is the data
    of [w -> v]; so [v] is in the exports of [u] exactly as [u] is in the
    imports of [v], with one amount. *)
Theorem export_and_import_dicts_mirror_the_edges (g : DiGraph) (u v : string) :
  has_node g u = true -> has_node g v = true ->
  NoDup (map fst (edges g)) ->
  exists exports imports,
    get_export_dict g u = Val exports /\
    get_import_dict g v = Val imports /\
    (forall w, dict_get w exports = get_edge_data g u w) /\
    (forall w, dict_get w imports = get_edge_data g w v) /\
    dict_get v exports = dict_get u imports.
Proof.
  intros _ _ Hnd. do 2 eexists.
  split; [now apply get_export_dict_val |].
  split; [now apply get_import_dict_val |].
  assert (H1 : forall w,
             dict_get w (map (fun e => (dst e, amount e))
                             (filter (fun e => src e =? u) (edges g))) =
             get_edge_data g u w) by (intro w; apply dict_get_exports).
  assert (H2 : forall w,
             dict_get w (map (fun e => (src e, amount e))
                             (filter (fun e => dst e =? v) (edges g))) =
             get_edge_data g w v) by (intro w; apply dict_get_imports).
  split; [exact H1 |]. split; [exact H2 |]. now rewrite H1, H2.
Qed.

(** X17.  On a graph with one edge per ordered pair, for a node [country],
    [get_export_sum] is the sum of the values of [get_export_dict], added in
    the order of the dictionary, and [get_import_sum] the sum of the values
    of [get_import_dict]. *)
Theorem sums_are_sums_of_dict_values (g : DiGraph) (country : string) :
  has_node g country = true ->
  NoDup (map fst (edges g)) ->
  exists exports imports,
    get_export_dict g country = Val exports /\
    get_import_dict g country = Val imports /\
    get_export_sum g country = Val (py_sum (map snd exports)) /\
    get_import_sum g country = Val (py_sum (map snd imports)).
Proof.
  intros _ Hnd. do 2 eexists.
  split; [now apply get_export_dict_val |].
  split; [now apply get_import_dict_val |].
  rewrite !map_map. simpl.
  split; [now apply get_export_sum_val | now apply get_import_sum_val].
Qed.

(** ** The widths of the figures *)

Lemma list_comprehension_val {A B} (f : A -> result B) (h : A -> B)
      (l : list A) :
  (forall x, In x l -> f x = Val (h x)) ->
  list_comprehension f l = Val (map h l).
Proof.
  induction l as [| x l IH]; intro H; simpl; [reflexivity |].
  rewrite (H x (or_introl eq_refl)). simpl. rewrite IH; [reflexivity |].
  intros y Hy. apply H. now right.
Qed.

Lemma py_max_from_spec (l : list Q) :
  forall best,
    In (py_max_from best l) (best :: l) /\
    Forall (fun x => x <= py_max_from best l) (best :: l).
Proof.
  induction l as [| x l IH]; intro best; simpl.
  - split; [now left |]. constructor; [apply Qle_refl | constructor].
  - destruct (Qle_bool x best) eqn:E.
    + destruct (IH best) as [H1 H2]. apply Qle_bool_iff in E.
      inversion H2 as [| b bs Hb Hl]; subst. split.
      * destruct H1 as [H1 | H1]; [now left | right; now right].
      * constructor; [exact Hb |]. constructor; [| exact Hl].
        eapply Qle_trans; [exact E | exact Hb].
    + destruct (IH x) as [H1 H2].
      assert (Hlt : best <= x).
      { destruct (Qlt_le_dec best x) as [H | H]; [now apply Qlt_le_weak |].
        apply Qle_bool_iff in H. congruence. }
      inversion H2 as [| b bs Hb Hl]; subst. split.
      * right. exact H1.
      * constructor; [eapply Qle_trans; [exact Hlt | exact Hb] |].
        constructor; [exact Hb | exact Hl].
Qed.

Lemma py_max2_spec (a b : Q) :
  a <= py_max2 a b /\ b <= py_max2 a b /\
  (py_max2 a b = a \/ py_max2 a b = b).
Proof.
  unfold py_max2. destruct (Qle_bool b a) eqn:E.
  - apply Qle_bool_iff in E. split; [apply Qle_refl |]. split; [exact E | now left].
  - assert (H : a <= b).
    { destruct (Qlt_le_dec a b) as [H | H]; [now apply Qlt_le_weak |].
      apply Qle_bool_iff in H. congruence. }
    split; [exact H |]. split; [apply Qle_refl | now right].
Qed.

(** X18.  [plot_overall_trade_graph] cannot compute its widths for a graph
    without edges, where [max] raises a [ValueError], nor for a graph whose
    amounts are all zero, where the greatest amount it divides by is zero
    and the division raises [ZeroDivisionError]. *)
Theorem overall_widths_need_a_non_zero_amount (g : DiGraph) :
  (edges_data g = [] ->
   exists msg, plot_overall_trade_graph g = Exc (ValueError msg)) /\
  (edges_data g <> [] -> Forall (fun e => amount e == 0) (edges_data g) ->
   plot_overall_trade_graph g = Exc ZeroDivisionError).
Proof.
  unfold plot_overall_trade_graph. split.
  - intros ->. simpl. eauto.
  - intros Hne Hz. destruct (edges_data g) as [| e es]; [now elim Hne |].
    simpl map. unfold py_max. simpl rbind.
    assert (Hall : Forall (fun x => x == 0) (amount e :: map amount es)).
    { change (amount e :: map amount es) with (map amount (e :: es)).
      now apply Forall_map. }
    destruct (py_max_from_spec (map amount es) (amount e)) as [Hin _].
    rewrite Forall_forall in Hall. pose proof (Hall _ Hin) as H0.
    simpl. destruct (py_div_cases (50 * amount e)
                       (py_max_from (amount e) (map amount es)))
      as [[_ ->] | [H _]]; [reflexivity | contradiction].
Qed.

(** X19.  When the greatest amount is not zero, [plot_overall_trade_graph]
    computes one width for every edge of [G.edges()]: 50 times the amount of
    the edge, divided by the greatest amount, and 0.005 when that is
    smaller; no width is below 0.005. *)
Theorem overall_widths_are_at_least_the_minimum
        (g : DiGraph) (max_amount : Q) :
  py_max (map amount (edges_data g)) = Val max_amount ->
  ~ max_amount == 0 ->
  In max_amount (map amount (edges_data g)) /\
  Forall (fun e => amount e <= max_amount) (edges_data g) /\
  exists weights,
    plot_overall_trade_graph g = Val weights /\
    Forall2 (fun e w =>
               w = py_max2 (50 * amount e / max_amount) (5 # 1000) /\
               5 # 1000 <= w)
            (edges_data g) weights.
Proof.
  intros Hmax Hnz. unfold plot_overall_trade_graph. rewrite Hmax.
  simpl rbind.
  split; [| split].
  - destruct (map amount (edges_data g)) as [| x rest]; [discriminate Hmax |].
    simpl in Hmax. injection Hmax as <-. apply py_max_from_spec.
  - destruct (map amount (edges_data g)) as [| x rest] eqn:Ea;
      [discriminate Hmax |].
    simpl in Hmax. injection Hmax as <-.
    destruct (py_max_from_spec rest x) as [_ H]. rewrite <- Ea in H.
    rewrite Forall_map in H. exact H.
  - set (h := fun i => py_max2 (50 * i / max_amount) (5 # 1000)).
    rewrite (list_comprehension_val _ h).
    + eexists. split; [reflexivity |]. rewrite map_map.
      apply Forall2_map_right. intros e _. split; [reflexivity |].
      exact (proj1 (proj2 (py_max2_spec _ _))).
    + intros i _. unfold h.
      destruct (py_div_cases (50 * i) max_amount) as [[H _] | [_ ->]];
        [contradiction | reflexivity].
Qed.

Lemma edges_data_in g e :
  In e (edges_data g) -> In e (edges g) /\ In (src e) (node_names g).
Proof.
  unfold edges_data. rewrite in_flat_map. intros [p [Hp He]].
  apply filter_In in He. destruct He as [He Es]. apply String.eqb_eq in Es.
  split; [exact He |]. rewrite Es. now apply in_map.
Qed.

(** The lines that the loop over [self.G.edges()] draws, on a graph with one
    edge per ordered pair and a centroid table that knows both countries of
    every edge whose source is in the scenario. *)
Lemma trade_lines_val
      (name_to_centroid : string -> option (Q * Q))
      (g : DiGraph) (scenario : Scenario) :
  NoDup (map fst (edges g)) ->
  (forall e, In e (edges_data g) -> in_scenario scenario (src e) = true ->
             name_to_centroid (src e) <> None /\
             name_to_centroid (dst e) <> None) ->
  exists traces,
    trade_lines name_to_centroid g scenario = Val traces /\
    Forall2 (fun e tr =>
               exists s p,
                 name_to_centroid (src e) = Some s /\
                 name_to_centroid (dst e) = Some p /\
                 lon tr = (fst s, fst p) /\ lat tr = (snd s, snd p) /\
                 line_width tr = py_max2 (amount e / 1000000) (1 # 100) /\
                 1 # 100 <= line_width tr)
            (filter (fun e => in_scenario scenario (src e)) (edges_data g))
            traces.
Proof.
  intros Hnd Hres. unfold trade_lines.
  set (L := filter (fun e => in_scenario scenario (src e)) (edges_data g)).
  assert (HL : Forall (fun e => In e (edges_data g) /\
                                in_scenario scenario (src e) = true) L).
  { apply Forall_forall. intros e He. now apply filter_In in He. }
  clearbody L. induction HL as [| e L [He Hs] _ [traces [IH1 IH2]]].
  - exists []. split; [reflexivity | constructor].
  - destruct (Hres e He Hs) as [H1 H2].
    destruct (edges_data_in g e He) as [Hin Hnode].
    destruct (name_to_centroid (src e)) as [s |] eqn:Es; [| now elim H1].
    destruct (name_to_centroid (dst e)) as [p |] eqn:Ep; [| now elim H2].
    eexists. split.
    + simpl. unfold trade_line at 1, get_lon_lat_from_country_name.
      rewrite Es, Ep. simpl. unfold get_trade_line_width.
      apply has_node_in in Hnode. rewrite Hnode.
      rewrite (get_edge_data_in g e Hnd Hin). simpl. rewrite IH1. simpl.
      reflexivity.
    + constructor; [| exact IH2]. exists s, p. simpl.
      repeat split; try reflexivity; try assumption.
      exact (proj1 (proj2 (py_max2_spec _ _))).
Qed.

(** X20.  The lines are drawn after the evaluation and only when it
    returned: an exception of the evaluation is the outcome of the method
    and no line is drawn.  When the evaluation returns, on a well-formed
    graph with a centroid table that knows both countries of every edge
    whose source is in the scenario, one line is drawn for each of these
    edges and for no other, in the order of [self.G.edges()], between the
    two centroids, with the width [max(amount / 10^6, 0.01)]: a width is
    never below 0.01. *)
Theorem lines_follow_the_restricted_edges
        (name_to_centroid : string -> option (Q * Q))
        (scenario : Scenario) (self : TradeGraph) :
  wf_graph (G self) ->
  (forall e, In e (edges_data (G self)) ->
             in_scenario scenario (src e) = true ->
             name_to_centroid (src e) <> None /\
             name_to_centroid (dst e) <> None) ->
  match plot_export_restriction_scenario scenario self with
  | Raise e self' =>
      plot_export_restriction_scenario_lines name_to_centroid scenario self =
      Raise e self'
  | Ok totals self' =>
      exists traces,
        plot_export_restriction_scenario_lines name_to_centroid scenario self =
        Ok (totals, traces) self' /\
        Forall2 (fun e tr =>
                   exists s p,
                     name_to_centroid (src e) = Some s /\
                     name_to_centroid (dst e) = Some p /\
                     lon tr = (fst s, fst p) /\ lat tr = (snd s, snd p) /\
                     line_width tr = py_max2 (amount e / 1000000) (1 # 100) /\
                     1 # 100 <= line_width tr)
                (filter (fun e => in_scenario scenario (src e))
                        (edges_data (G self)))
                traces
  end.
Proof.
  intros Hwf Hres.
  pose proof (preserves_plot scenario self) as Hst.
  unfold plot_export_restriction_scenario_lines, bind.
  destruct (plot_export_restriction_scenario scenario self)
    as [totals self' | e self']; [| reflexivity].
  simpl in Hst. apply same_static_fields in Hst. destruct Hst as [Hsk _].
  pose proof (skeleton_edges_data _ _ Hsk) as Hed.
  destruct (skeleton_names_edges _ _ Hsk) as [_ He].
  destruct (trade_lines_val name_to_centroid (G self') scenario)
    as [traces [E1 E2]].
  - rewrite He. apply Hwf.
  - rewrite Hed. exact Hres.
  - exists traces. unfold query, ret. rewrite E1.
    split; [reflexivity |]. now rewrite <- Hed.
Qed.
(** ** Instances of the further properties *)

Ltac distinct_keys :=
  repeat (constructor; [simpl; intuition discriminate |]); constructor.

Lemma evaluation_raises_only_value_or_zero_division_witness :
  let tg := graph_of one_edge_rows in
  let s := [("A", 1 # 2)] in
  wf_graph (G tg) /\
  plot_export_restriction_scenario s tg =
  Raise ZeroDivisionError
        (state_of (plot_export_restriction_scenario s tg)) /\
  (ZeroDivisionError = ZeroDivisionError \/
   exists z, In z (map fst s) /\ has_node (G tg) z = false /\
             ZeroDivisionError = ValueError (z ++ " is not in graph")%string).
Proof.
  intros tg s.
  assert (Hwf : wf_graph (G tg))
    by (apply (graph_of_wf one_edge_rows []); reflexivity).
  assert (E : plot_export_restriction_scenario s tg =
              Raise ZeroDivisionError
                    (state_of (plot_export_restriction_scenario s tg)))
    by (vm_compute; reflexivity).
  split; [exact Hwf |]. split; [exact E |].
  exact (evaluation_raises_only_value_or_zero_division s tg _ _ Hwf E).
Defined.

Lemma full_retention_gives_no_deficit_witness :
  let tg := graph_of shared_partner_rows in
  let s := [("A", 1); ("B", 1)] in
  wf_graph (G tg) /\ valid_scenario (G tg) s /\
  Forall (fun item => snd item == 1) s /\
  deficits_are (G (state_of (plot_export_restriction_scenario s tg)))
               (fun _ => 0).
Proof.
  intros tg s.
  assert (Hwf : wf_graph (G tg))
    by (apply (graph_of_wf shared_partner_rows []); reflexivity).
  assert (Hv : valid_scenario (G tg) s) by (repeat constructor).
  assert (H1 : Forall (fun item => snd item == 1) s)
    by (repeat constructor).
  split; [exact Hwf |]. split; [exact Hv |]. split; [exact H1 |].
  exact (proj1 (full_retention_gives_no_deficit s tg Hwf Hv H1)).
Defined.



Lemma apply_deficits_needs_deficit_attributes_witness :
  let tg := graph_of import_report_rows in
  NoDup (map fst (edges (G tg))) /\
  map snd (out_edges (G tg) "A") = [] ++ "B"%string :: [] /\
  (forall x, node_deficit (G tg) "B" <> Val x) /\
  apply_deficits "A" (1 # 5) tg = Raise (KeyError "B") tg.
Proof.
  intro tg.
  assert (Hnd : NoDup (map fst (edges (G tg)))).
  { apply (graph_of_wf import_report_rows []). reflexivity. }
  assert (Hout : map snd (out_edges (G tg) "A") = [] ++ "B"%string :: [])
    by reflexivity.
  assert (Hmiss : forall x, node_deficit (G tg) "B" <> Val x)
    by (intros x H; vm_compute in H; discriminate H).
  split; [exact Hnd |]. split; [exact Hout |]. split; [exact Hmiss |].
  apply (apply_deficits_needs_deficit_attributes
           tg "A" (1 # 5) [] [] "B" Hnd Hout); [intros p [] | exact Hmiss].
Defined.

Lemma single_source_matches_get_relative_deficit_witness :
  let tg := graph_of two_way_rows in
  wf_graph (G tg) /\ has_node (G tg) "A" = true /\
  get_edge_data (G tg) "A" "B" = Some 100 /\
  exists t q self',
    plot_export_restriction_scenario [("A", 4 # 5)] tg = Ok (t, q) self' /\
    exists x data y,
      get_relative_deficit (G tg) "A" "B" (1 - (4 # 5)) = Val x /\
      node_data (G self') "B" = Some data /\
      deficit_relative data = Some y /\ x == y.
Proof.
  intro tg.
  assert (Hwf : wf_graph (G tg))
    by (apply (graph_of_wf two_way_rows []); reflexivity).
  split; [exact Hwf |]. split; [reflexivity |]. split; [reflexivity |].
  do 3 eexists. split; [vm_compute; reflexivity |].
  eapply (single_source_matches_get_relative_deficit
            "A" "B" (4 # 5) 100 _ _ tg _ Hwf eq_refl eq_refl).
  vm_compute. reflexivity.
Defined.

Lemma construction_key_error_names_first_missing_partner_witness :
  unique (map partner example_rows) = ["B"%string] ++ "C"%string :: [] /\
  "C"%string <> unspecified_area /\ iso_without_C "C" = None /\
  __init__ iso_without_C example_centroid example_rows =
  (Exc (KeyError "C"), []).
Proof.
  assert (Hu : unique (map partner example_rows) =
               ["B"%string] ++ "C"%string :: []) by reflexivity.
  assert (Hc : "C"%string <> unspecified_area) by discriminate.
  split; [exact Hu |]. split; [exact Hc |]. split; [reflexivity |].
  apply (construction_key_error_names_first_missing_partner
           iso_without_C example_centroid example_rows ["B"%string] [] "C" Hu).
  - intros b [<- | []]. right. split; discriminate.
  - exact Hc.
  - now left.
Defined.

Lemma nodes_of_constructed_graph_witness :
  let tg := graph_of import_report_rows in
  __init__ example_iso example_centroid import_report_rows = (Val tg, []) /\
  ~ In unspecified_area (node_names (G tg)) /\
  (In "B"%string (node_names (G tg)) <->
   (In "B"%string (map partner import_report_rows) /\
    "B"%string <> unspecified_area) \/
   exists row u v, In row import_report_rows /\ kept_pair row u v /\
                   ("B"%string = u \/ "B"%string = v)).
Proof.
  intro tg.
  assert (E : __init__ example_iso example_centroid import_report_rows =
              (Val tg, [])) by reflexivity.
  destruct (nodes_of_constructed_graph example_iso example_centroid
              import_report_rows tg [] E) as [H1 [H2 _]].
  split; [exact E |]. split; [exact H2 | apply H1].
Defined.

Lemma edge_iff_reported_witness :
  let tg := graph_of three_reports in
  __init__ example_iso example_centroid three_reports = (Val tg, []) /\
  (has_edge (G tg) "A" "B" = true <->
   exists row, In row three_reports /\ kept_pair row "A" "B").
Proof.
  intro tg.
  assert (E : __init__ example_iso example_centroid three_reports =
              (Val tg, [])) by reflexivity.
  split; [exact E |].
  exact (edge_iff_reported example_iso example_centroid
           three_reports tg [] "A" "B" E).
Defined.

Lemma attributes_of_constructed_nodes_witness :
  let tg := graph_of import_report_rows in
  __init__ example_iso example_centroid import_report_rows = (Val tg, []) /\
  Forall (attributes_as_constructed example_iso example_centroid
                                    (map partner import_report_rows))
         (nodes (G tg)).
Proof.
  intro tg.
  assert (E : __init__ example_iso example_centroid import_report_rows =
              (Val tg, [])) by reflexivity.
  split; [exact E |].
  exact (attributes_of_constructed_nodes example_iso example_centroid
           import_report_rows tg [] E).
Defined.

Lemma amounts_of_constructed_graph_nonneg_witness :
  let tg := graph_of three_reports in
  Forall (fun row => 0 <= value row) three_reports /\
  __init__ example_iso example_centroid three_reports = (Val tg, []) /\
  Forall (fun e => 0 <= amount e) (edges (G tg)) /\ 0 <= sum_of_trade tg.
Proof.
  intro tg.
  assert (Hrows : Forall (fun row => 0 <= value row) three_reports)
    by (repeat constructor; simpl; lra).
  assert (E : __init__ example_iso example_centroid three_reports =
              (Val tg, [])) by reflexivity.
  split; [exact Hrows |]. split; [exact E |].
  exact (amounts_of_constructed_graph_nonneg example_iso example_centroid
           three_reports tg [] Hrows E).
Defined.

Lemma reports_without_conflict_keep_value_and_order_witness :
  let tg := graph_of shared_partner_rows in
  __init__ example_iso example_centroid shared_partner_rows = (Val tg, []) /\
  NoDup (map fst (reports shared_partner_rows)) /\
  get_edge_data (G tg) "B" "C" = Some 60 /\
  out_edges (G tg) "C" = [("C", "A"); ("C", "B")]%string /\
  in_edges (G tg) "C" = [("A", "C"); ("B", "C")]%string.
Proof.
  intro tg.
  assert (E : __init__ example_iso example_centroid shared_partner_rows =
              (Val tg, [])) by reflexivity.
  assert (Hnd : NoDup (map fst (reports shared_partner_rows)))
    by distinct_keys.
  destruct (reports_without_conflict_keep_value_and_order
              example_iso example_centroid shared_partner_rows tg [] E Hnd)
    as [H1 [H2 H3]].
  assert (Hc : In "C"%string (node_names (G tg))) by now left.
  split; [exact E |]. split; [exact Hnd |]. split; [| split].
  - apply (H1 (mkRow "C" "B" "Export Quantity" 60) "B"%string "C"%string).
    + right. now left.
    + repeat split; discriminate.
  - exact (H2 "C"%string Hc).
  - exact (H3 "C"%string Hc).
Defined.

Lemma export_and_import_dicts_mirror_the_edges_witness :
  let g := G (graph_of shared_partner_rows) in
  has_node g "A" = true /\ has_node g "C" = true /\
  NoDup (map fst (edges g)) /\
  exists exports imports,
    get_export_dict g "A" = Val exports /\
    get_import_dict g "C" = Val imports /\
    (forall w, dict_get w exports = get_edge_data g "A" w) /\
    (forall w, dict_get w imports = get_edge_data g w "C") /\
    dict_get "C" exports = dict_get "A" imports.
Proof.
  intro g.
  assert (Hnd : NoDup (map fst (edges g))).
  { apply (graph_of_wf shared_partner_rows []). reflexivity. }
  split; [reflexivity |]. split; [reflexivity |]. split; [exact Hnd |].
  exact (export_and_import_dicts_mirror_the_edges
           g "A" "C" eq_refl eq_refl Hnd).
Defined.

Lemma sums_are_sums_of_dict_values_witness :
  let g := G (graph_of shared_partner_rows) in
  has_node g "C" = true /\
  NoDup (map fst (edges g)) /\
  exists exports imports,
    get_export_dict g "C" = Val exports /\
    get_import_dict g "C" = Val imports /\
    get_export_sum g "C" = Val (py_sum (map snd exports)) /\
    get_import_sum g "C" = Val (py_sum (map snd imports)).
Proof.
  intro g.
  assert (Hnd : NoDup (map fst (edges g))).
  { apply (graph_of_wf shared_partner_rows []). reflexivity. }
  split; [reflexivity |]. split; [exact Hnd |].
  exact (sums_are_sums_of_dict_values g "C" eq_refl Hnd).
Defined.

Lemma overall_widths_are_at_least_the_minimum_witness :
  let g := G (graph_of example_rows) in
  py_max (map amount (edges_data g)) = Val 100 /\ ~ 100 == 0 /\
  exists weights,
    plot_overall_trade_graph g = Val weights /\
    Forall2 (fun e w =>
               w = py_max2 (50 * amount e / 100) (5 # 1000) /\
               5 # 1000 <= w)
            (edges_data g) weights.
Proof.
  intro g.
  assert (Hmax : py_max (map amount (edges_data g)) = Val 100) by reflexivity.
  assert (Hnz : ~ 100 == 0) by (intro H; vm_compute in H; discriminate H).
  split; [exact Hmax |]. split; [exact Hnz |].
  exact (proj2 (proj2 (overall_widths_are_at_least_the_minimum g 100 Hmax Hnz))).
Defined.

Lemma lines_follow_the_restricted_edges_witness :
  let tg := graph_of two_way_rows in
  let s := [("A", 4 # 5)] in
  wf_graph (G tg) /\
  exists totals self' traces,
    plot_export_restriction_scenario s tg = Ok totals self' /\
    plot_export_restriction_scenario_lines example_centroid s tg =
    Ok (totals, traces) self' /\
    Forall2 (fun e tr =>
               exists a b,
                 example_centroid (src e) = Some a /\
                 example_centroid (dst e) = Some b /\
                 lon tr = (fst a, fst b) /\ lat tr = (snd a, snd b) /\
                 line_width tr = py_max2 (amount e / 1000000) (1 # 100) /\
                 1 # 100 <= line_width tr)
            (filter (fun e => in_scenario s (src e)) (edges_data (G tg)))
            traces.
Proof.
  intros tg s.
  assert (Hwf : wf_graph (G tg))
    by (apply (graph_of_wf two_way_rows []); reflexivity).
  split; [exact Hwf |].
  assert (Hres : forall e, In e (edges_data (G tg)) ->
                           in_scenario s (src e) = true ->
                           example_centroid (src e) <> None /\
                           example_centroid (dst e) <> None)
    by (intros e _ _; split; discriminate).
  pose proof (lines_follow_the_restricted_edges example_centroid s tg Hwf Hres)
    as H.
  destruct (plot_export_restriction_scenario s tg) as [totals self' | e self']
    eqn:E.
  - destruct H as [traces [H1 H2]]. exists totals, self', traces.
    split; [reflexivity |]. split; [exact H1 | exact H2].
  - vm_compute in E. discriminate E.
Defined.

Lemma update_relative_deficits_needs_deficit_attributes_witness :
  let tg := graph_of reporter_only_rows in
  node_names (G tg) = ["A"%string] ++ "C"%string :: [] /\
  node_data (G tg) "C" = Some no_attributes /\
  deficit no_attributes = None /\
  exists self',
    update_relative_deficits tg = Raise (KeyError "deficit") self' /\
    for_each ["A"%string] update_relative_deficit tg = Ok tt self'.
Proof.
  intro tg.
  assert (Hn : node_names (G tg) = ["A"%string] ++ "C"%string :: [])
    by reflexivity.
  assert (Hc : node_data (G tg) "C" = Some no_attributes) by reflexivity.
  split; [exact Hn |]. split; [exact Hc |]. split; [reflexivity |].
  apply (update_relative_deficits_needs_deficit_attributes
           tg ["A"%string] [] "C" no_attributes Hn); [| exact Hc | reflexivity].
  intros b [<- | []]. eexists. vm_compute. reflexivity.
Defined.

Lemma get_relative_deficit_is_defined_on_edges_witness :
  let g := G (graph_of shared_partner_rows) in
  wf_graph g /\ Forall (fun e => 0 < amount e) (edges g) /\
  In ("A"%string, "C"%string, 100) (edges g) /\
  exists s,
    get_import_sum g "C" = Val s /\ 0 < s /\
    get_relative_deficit g "A" "C" (1 # 5) = Val (100 * (1 # 5) / s * 100).
Proof.
  intro g.
  assert (Hwf : wf_graph g)
    by (apply (graph_of_wf shared_partner_rows []); reflexivity).
  assert (Hpos : Forall (fun e => 0 < amount e) (edges g))
    by (repeat constructor).
  assert (He : In ("A"%string, "C"%string, 100) (edges g)) by now left.
  split; [exact Hwf |]. split; [exact Hpos |]. split; [exact He |].
  exact (get_relative_deficit_is_defined_on_edges
           g ("A"%string, "C"%string, 100) (1 # 5) Hwf Hpos He).
Defined.
Lemma no_trade_cannot_be_evaluated_witness :
  let tg := graph_of [] in
  wf_graph (G tg) /\ valid_scenario (G tg) [] /\ sum_of_trade tg == 0 /\
  exists self',
    plot_export_restriction_scenario [] tg = Raise ZeroDivisionError self'.
Proof.
  intro tg.
  assert (Hwf : wf_graph (G tg)) by (apply (graph_of_wf [] []); reflexivity).
  assert (Hv : valid_scenario (G tg) []) by constructor.
  assert (H0 : sum_of_trade tg == 0) by reflexivity.
  split; [exact Hwf |]. split; [exact Hv |]. split; [exact H0 |].
  exact (no_trade_cannot_be_evaluated [] tg Hwf Hv H0).
Defined.

(** * The sums, term by term *)

(** ** The terms that an evaluation adds *)

Lemma deficits_exactly_ext g delta delta' :
  (forall n, delta n = delta' n) -> deficits_exactly g delta ->
  deficits_exactly g delta'.
Proof.
  intros He Hd. unfold deficits_exactly in *.
  eapply Forall_impl; [| exact Hd]. simpl. intros p Hp. now rewrite <- He.
Qed.

Lemma node_deficit_exact g delta n :
  deficits_exactly g delta -> In n (node_names g) ->
  node_deficit g n = Val (delta n).
Proof.
  intros Hd Hin. destruct (node_data_in g n Hin) as [d [E Hp]].
  unfold deficits_exactly in Hd. rewrite Forall_forall in Hd.
  specialize (Hd _ Hp). simpl in Hd. unfold node_deficit. now rewrite E, Hd.
Qed.

(** The items of the dictionary comprehension of [apply_deficits], with the
    numbers as they are computed. *)
Lemma deficit_items_exact g delta s r (L : list Edge) :
  NoDup (map fst (edges g)) -> deficits_exactly g delta ->
  Forall (fun e => In e (edges g) /\ src e = s /\ In (dst e) (node_names g)) L ->
  deficit_items g s r (map fst L) =
  Val (map (fun e => (dst e, delta (dst e) + amount e * r)) L).
Proof.
  intros Hnd Hd. induction 1 as [| e L [Hin [Hs Hn]] _ IH]; simpl;
    [reflexivity |].
  change (snd (fst e)) with (dst e).
  rewrite (node_deficit_exact g delta (dst e) Hd Hn). simpl.
  unfold get_absolute_deficit, edge_amount.
  rewrite <- Hs, (get_edge_data_in g e Hnd Hin). simpl.
  rewrite Hs, IH. reflexivity.
Qed.

(** The deficit a node ends with when the items are assigned in order. *)
Lemma fold_items_exact (F : Edge -> Q) (n : string) (L : list Edge) :
  NoDup (map dst L) ->
  forall d,
    deficit (fold_left (fun d' kv => if n =? fst kv
                                     then set_deficit (snd kv) d' else d')
                       (map (fun e => (dst e, F e)) L) d) =
    match find (fun e => dst e =? n) L with
    | Some e => Some (F e)
    | None => deficit d
    end.
Proof.
  induction L as [| e L IH]; intros Hnd d; simpl; [reflexivity |].
  inversion Hnd as [| k ks Hk Hnd']; subst. rewrite (IH Hnd').
  rewrite (String.eqb_sym n (dst e)).
  destruct (String.eqb_spec (dst e) n) as [En | En]; [| reflexivity].
  destruct (find (fun e0 => dst e0 =? n) L) as [e' |] eqn:E; [| reflexivity].
  exfalso. apply find_some in E. destruct E as [Hin E].
  apply String.eqb_eq in E. apply Hk. rewrite En, <- E. now apply in_map.
Qed.

Lemma find_out_edge (es : list Edge) (s n : string) :
  find (fun e => dst e =? n) (filter (fun e => src e =? s) es) =
  find (edge_is s n) es.
Proof.
  induction es as [| e es IH]; simpl; [reflexivity |].
  unfold edge_is at 1. destruct (src e =? s); simpl; [| exact IH].
  destruct (dst e =? n); [reflexivity | exact IH].
Qed.

(** What [apply_deficits] adds to the deficit of every node. *)
Lemma apply_deficits_exact self delta s r :
  wf_graph (G self) -> deficits_exactly (G self) delta ->
  exists self',
    apply_deficits s r self = Ok tt self' /\
    deficits_exactly (G self')
      (fun n => match get_edge_data (G self) s n with
                | Some a => delta n + a * r
                | None => delta n
                end).
Proof.
  intros [Hnn [Hne Hends]] Hd.
  set (g := G self) in *.
  set (L := filter (fun e => src e =? s) (edges g)).
  assert (HL : Forall (fun e => In e (edges g) /\ src e = s /\
                                 In (dst e) (node_names g)) L).
  { apply Forall_forall. intros e He. apply filter_In in He.
    destruct He as [He Es]. apply String.eqb_eq in Es.
    rewrite Forall_forall in Hends. split; [exact He |].
    split; [exact Es | now apply Hends]. }
  pose proof (deficit_items_exact g delta s r L Hne Hd HL) as E.
  unfold apply_deficits, bind, query, update, out_edges. fold g. fold L.
  rewrite E. eexists. split; [reflexivity |]. simpl.
  assert (HndL : NoDup (map dst L)).
  { apply (NoDup_dst_of_source s).
    - now apply filter_keys_NoDup.
    - eapply Forall_impl; [| exact HL]. simpl. tauto. }
  unfold deficits_exactly, set_node_deficits.
  rewrite (nodes_fold_set_node fst (fun kv => set_deficit (snd kv))).
  apply Forall_forall. intros p' Hp'. apply in_map_iff in Hp'.
  destruct Hp' as [p [<- Hp]]. simpl.
  unfold deficits_exactly in Hd. rewrite Forall_forall in Hd.
  rewrite (fold_items_exact (fun e => delta (dst e) + amount e * r)
                            (fst p) L HndL (snd p)).
  unfold L. rewrite find_out_edge. unfold get_edge_data.
  destruct (find (edge_is s (fst p)) (edges g)) as [e |] eqn:Ef; simpl.
  - apply find_some in Ef. destruct Ef as [_ Ef]. apply edge_is_true in Ef.
    destruct Ef as [_ Ef]. now rewrite Ef.
  - now apply Hd.
Qed.

Lemma deficit_terms_static g g' (scenario : Scenario) n :
  skeleton g' = skeleton g ->
  deficit_terms g' scenario n = deficit_terms g scenario n.
Proof.
  intro H. destruct (skeleton_names_edges _ _ H) as [_ He].
  unfold deficit_terms, get_edge_data. now rewrite He.
Qed.

(** The loop over the sources adds the terms of a node in the order of the
    scenario. *)
Lemma for_each_restrict_exact (scenario : Scenario) :
  forall self delta,
    wf_graph (G self) -> valid_scenario (G self) scenario ->
    deficits_exactly (G self) delta ->
    exists self',
      for_each scenario restrict_source self = Ok tt self' /\
      deficits_exactly (G self')
        (fun n => fold_left Qplus (deficit_terms (G self) scenario n) (delta n)).
Proof.
  induction scenario as [| [s f] scenario IH]; intros self delta Hwf Hv Hd.
  - exists self. split; [reflexivity | exact Hd].
  - inversion Hv as [| item items Hs Hv']; subst. simpl in Hs.
    destruct (apply_deficits_exact self delta s (1 - f) Hwf Hd)
      as [self1 [E1 Hd1]].
    assert (Hst : same_static self self1).
    { generalize (preserves_apply_deficits s (1 - f) self). now rewrite E1. }
    destruct (proj1 (same_static_fields _ _) Hst) as [Hsk Hsum].
    destruct (IH self1 _ (wf_graph_static _ _ Hsk Hwf)
                (valid_scenario_static _ _ _ Hsk Hv') Hd1)
      as [self2 [E2 Hd2]].
    exists self2. split.
    + simpl. unfold bind. rewrite Hs, E1. exact E2.
    + eapply deficits_exactly_ext; [| exact Hd2]. intro n. simpl.
      rewrite (deficit_terms_static _ _ _ _ Hsk).
      unfold deficit_terms at 2. simpl. rewrite fold_left_app.
      fold (deficit_terms (G self) scenario n).
      now destruct (get_edge_data (G self) s n).
Qed.

Lemma deficits_exactly_reset g :
  deficits_exactly
    (set_all_nodes (set_deficit_relative 0) (set_all_nodes (set_deficit 0) g))
    (fun _ => 0).
Proof.
  unfold deficits_exactly, set_all_nodes. simpl. rewrite map_map.
  apply Forall_forall. intros p Hp. apply in_map_iff in Hp.
  now destruct Hp as [q [<- _]].
Qed.

Lemma deficits_exactly_view self self' delta :
  deficit_view self' = deficit_view self ->
  deficits_exactly (G self) delta -> deficits_exactly (G self') delta.
Proof.
  unfold deficit_view, deficits_exactly. intros Hv Hd.
  assert (H : forall l : list (string * NodeData),
             Forall (fun p => deficit (snd p) = Some (delta (fst p))) l <->
             Forall (fun q => snd q = Some (delta (fst q)))
                    (map (fun p => (fst p, deficit (snd p))) l)).
  { intro l. rewrite Forall_map. reflexivity. }
  apply H. rewrite Hv. now apply H.
Qed.

(** The deficits an evaluation ends with, returned or raised, on a
    well-formed graph and a scenario whose sources are nodes: every deficit
    is the sum of its terms, added from 0 in the order of the scenario. *)
Lemma plot_deficit_terms (scenario : Scenario) (self : TradeGraph) :
  wf_graph (G self) -> valid_scenario (G self) scenario ->
  deficits_exactly
    (G (state_of (plot_export_restriction_scenario scenario self)))
    (fun n => py_sum (deficit_terms (G self) scenario n)).
Proof.
  intros Hwf Hv.
  destruct (scenario_totals_spec scenario self Hwf Hv)
    as [self1 [Hst [_ [E1 E]]]].
  pose proof (preserves_reset_deficits self) as Hst0.
  assert (E0 : state_of (reset_deficits self) =
               mkTradeGraph (set_all_nodes (set_deficit_relative 0)
                               (set_all_nodes (set_deficit 0) (G self)))
                            (sum_of_trade self)) by reflexivity.
  apply same_static_fields in Hst0. destruct Hst0 as [Hsk0 _].
  destruct (for_each_restrict_exact scenario (state_of (reset_deficits self))
              (fun _ => 0)
              (wf_graph_static _ _ Hsk0 Hwf)
              (valid_scenario_static _ _ _ Hsk0 Hv))
    as [self1' [E1' Hd1]].
  { rewrite E0. apply deficits_exactly_reset. }
  rewrite E1 in E1'. injection E1' as <-.
  assert (Hd : deficits_exactly (G self1)
                 (fun n => py_sum (deficit_terms (G self) scenario n))).
  { eapply deficits_exactly_ext; [| exact Hd1]. intro n. simpl.
    now rewrite (deficit_terms_static _ _ _ _ Hsk0). }
  unfold plot_export_restriction_scenario. unfold bind at 1. rewrite E.
  destruct (py_div _ (sum_of_trade self)) as [q | e]; [| exact Hd].
  apply (deficits_exactly_view self1); [| exact Hd].
  transitivity (deficit_view (state_of (update_relative_deficits self1))).
  - unfold bind, ret. now destruct (update_relative_deficits self1).
  - apply keeps_deficits_update_relative_deficits.
Qed.

Lemma list_node_deficits_exact g delta :
  deficits_exactly g delta ->
  list_node_deficits g = map delta (node_names g).
Proof.
  unfold deficits_exactly, list_node_deficits, node_names.
  induction 1 as [| p l Hp _ IH]; simpl; [reflexivity |].
  now rewrite Hp, IH.
Qed.

Lemma list_node_deficits_view self self' :
  deficit_view self' = deficit_view self ->
  list_node_deficits (G self') = list_node_deficits (G self).
Proof.
  unfold deficit_view, list_node_deficits. intro H.
  assert (K : forall l : list (string * NodeData),
             flat_map (fun p => match deficit (snd p) with
                                | Some x => [x]
                                | None => []
                                end) l =
             flat_map (fun q : string * option Q =>
                         match snd q with
                         | Some x => [x]
                         | None => []
                         end)
                      (map (fun p => (fst p, deficit (snd p))) l)).
  { induction l as [| p l IH]; simpl; [reflexivity | now rewrite IH]. }
  now rewrite !K, H.
Qed.

(** The total that an evaluation returns is the sum of the deficits that it
    leaves in the nodes, added in node order. *)
Lemma returned_total (scenario : Scenario) (self self' : TradeGraph) (t q : Q) :
  plot_export_restriction_scenario scenario self = Ok (t, q) self' ->
  t = py_sum (list_node_deficits (G self')).
Proof.
  unfold plot_export_restriction_scenario, scenario_totals, bind, ret.
  destruct (reset_deficits self) as [[] self0 | e self0]; [| discriminate].
  destruct (for_each scenario restrict_source self0) as [[] self1 | e self1];
    [| discriminate].
  destruct (py_div (py_sum (list_node_deficits (G self1))) (sum_of_trade self1))
    as [q1 | e]; [| discriminate].
  pose proof (keeps_deficits_update_relative_deficits self1) as Hv.
  destruct (update_relative_deficits self1) as [[] self2 | e self2];
    [| discriminate].
  intro E. injection E as <- _ <-. simpl in Hv.
  now rewrite (list_node_deficits_view _ _ Hv).
Qed.

(** ** Sums that add the same terms *)

Lemma flat_map_split_perm {A} (f h : string -> list A) (names : list string) :
  Permutation (flat_map (fun n => f n ++ h n) names)
              (flat_map f names ++ flat_map h names).
Proof.
  induction names as [| n names IH]; simpl; [constructor |].
  rewrite <- !app_assoc. apply Permutation_app_head.
  eapply Permutation_trans; [apply Permutation_app_head, IH |].
  apply Permutation_app_swap_app.
Qed.

Lemma flat_map_no_terms {A} (names : list string) :
  flat_map (fun _ : string => @nil A) names = [].
Proof. induction names as [| n names IH]; simpl; [reflexivity | exact IH]. Qed.

(** One group per name: the names are distinct and [x] is one of them. *)
Lemma flat_map_indicator {A} (names : list string) (x : string) (t : list A) :
  NoDup names -> In x names ->
  flat_map (fun n => if x =? n then t else []) names = t.
Proof.
  assert (Hnone : forall l, ~ In x l ->
                            flat_map (fun n => if x =? n then t else []) l = []).
  { induction l as [| y l IH]; intro Hn; simpl; [reflexivity |].
    destruct (String.eqb_spec x y) as [-> | _]; [elim Hn; now left |].
    apply IH. intro H. apply Hn. now right. }
  induction 1 as [| y names Hy Hnd IH]; intro Hin; [destruct Hin |].
  simpl. destruct (String.eqb_spec x y) as [-> | Hne].
  - rewrite (Hnone _ Hy). apply app_nil_r.
  - destruct Hin as [-> | Hin]; [contradiction | now apply IH].
Qed.

(** Grouping the edges by one of their end points rearranges them. *)
Lemma group_by_end_point {A} (key : Edge -> string) (h : Edge -> A)
      (names : list string) (es : list Edge) :
  NoDup names -> Forall (fun e => In (key e) names) es ->
  Permutation
    (flat_map (fun n => map h (filter (fun e => key e =? n) es)) names)
    (map h es).
Proof.
  intros Hnd. induction 1 as [| e es He _ IH]; simpl.
  - now rewrite flat_map_no_terms.
  - rewrite (flat_map_ext _
      (fun n => (if key e =? n then [h e] else []) ++
                map h (filter (fun e' => key e' =? n) es))).
    + eapply Permutation_trans; [apply flat_map_split_perm |].
      rewrite (flat_map_indicator names (key e) [h e] Hnd He). simpl.
      now constructor.
    + intro n. now destruct (key e =? n).
Qed.

Lemma map_amount_flat_map {A} (f : A -> list Edge) (l : list A) :
  map amount (flat_map f l) = flat_map (fun x => map amount (f x)) l.
Proof.
  induction l as [| x l IH]; simpl; [reflexivity |].
  now rewrite map_app, IH.
Qed.

Lemma flat_map_names {A} (f : string -> list A) (l : list (string * NodeData)) :
  flat_map (fun p => f (fst p)) l = flat_map f (map fst l).
Proof.
  induction l as [| p l IH]; simpl; [reflexivity | now rewrite IH].
Qed.

(** [G.edges(data=True)] lists the outgoing amounts of the nodes, node after
    node. *)
Lemma edges_data_out_amounts g :
  map amount (edges_data g) = flat_map (out_amounts g) (node_names g).
Proof.
  unfold edges_data, node_names. rewrite map_amount_flat_map.
  apply (flat_map_names (out_amounts g)).
Qed.

Lemma out_amounts_rearrange g :
  wf_graph g ->
  Permutation (flat_map (out_amounts g) (node_names g)) (map amount (edges g)).
Proof.
  intros [Hnn [_ Hends]]. apply (group_by_end_point src amount); [exact Hnn |].
  eapply Forall_impl; [| exact Hends]. simpl. tauto.
Qed.

Lemma in_amounts_rearrange g :
  wf_graph g ->
  Permutation (flat_map (in_amounts g) (node_names g)) (map amount (edges g)).
Proof.
  intros [Hnn [_ Hends]]. apply (group_by_end_point dst amount); [exact Hnn |].
  eapply Forall_impl; [| exact Hends]. simpl. tauto.
Qed.

(** The one term that a source with an edge to [n] contributes. *)
Lemma term_of_edge (c : Q -> Q) (es : list Edge) (s n : string) :
  NoDup (map fst es) ->
  match option_map amount (find (edge_is s n) es) with
  | Some a => [c a]
  | None => []
  end =
  map (fun e => c (amount e))
      (filter (fun e => dst e =? n) (filter (fun e => src e =? s) es)).
Proof.
  induction es as [| e es IH]; intro Hnd; simpl; [reflexivity |].
  inversion Hnd as [| k ks Hk Hnd']; subst. specialize (IH Hnd').
  unfold edge_is at 1.
  destruct (String.eqb_spec (src e) s) as [Es | Es]; simpl; [| exact IH].
  destruct (String.eqb_spec (dst e) n) as [En | En]; simpl; [| exact IH].
  rewrite <- IH.
  destruct (find (edge_is s n) es) as [e' |] eqn:E; simpl; [| reflexivity].
  exfalso. apply find_some in E. destruct E as [Hin E].
  apply edge_is_true in E. destruct E as [E1 E2]. apply Hk.
  rewrite (edge_key e), Es, En, <- E1, <- E2, <- edge_key.
  now apply in_map.
Qed.

(** The terms added to the deficits of all the nodes are the terms withheld
    on the outgoing edges of the sources, one for each edge. *)
Lemma deficit_terms_rearrange g (scenario : Scenario) :
  wf_graph g ->
  Permutation (flat_map (deficit_terms g scenario) (node_names g))
              (flat_map (withheld_terms g) scenario).
Proof.
  intros [Hnn [Hne Hends]].
  induction scenario as [| [s f] scenario IH]; simpl.
  - unfold deficit_terms. simpl. now rewrite flat_map_no_terms.
  - eapply Permutation_trans.
    + apply (flat_map_split_perm
               (fun n => match get_edge_data g s n with
                         | Some a => [a * (1 - f)]
                         | None => []
                         end)
               (deficit_terms g scenario)).
    + apply Permutation_app; [| exact IH].
      unfold withheld_terms, out_amounts. simpl. rewrite map_map.
      rewrite (flat_map_ext _
        (fun n => map (fun e => amount e * (1 - f))
                      (filter (fun e => dst e =? n)
                              (filter (fun e => src e =? s) (edges g))))).
      * apply (group_by_end_point dst); [exact Hnn |].
        apply Forall_forall. intros e He. apply filter_In in He.
        rewrite Forall_forall in Hends. now apply Hends.
      * intro n. unfold get_edge_data.
        apply (term_of_edge (fun a => a * (1 - f)) (edges g) s n Hne).
Qed.

(** A term withheld on an edge lies between 0 and the amount of the edge. *)
Lemma withheld_terms_bounds g (item : string * Q) :
  Forall (fun e => 0 <= amount e) (edges g) ->
  0 < snd item -> snd item <= 1 ->
  Forall2 (fun a t => t = a * (1 - snd item) /\ 0 <= t /\ t <= a)
          (out_amounts g (fst item)) (withheld_terms g item).
Proof.
  intros Hpos H0 H1. unfold withheld_terms.
  assert (Ha : Forall (fun a => 0 <= a) (out_amounts g (fst item))).
  { unfold out_amounts. apply Forall_map. apply Forall_forall. intros e He.
    apply filter_In in He. rewrite Forall_forall in Hpos. now apply Hpos. }
  induction Ha as [| a l Ha _ IH]; simpl; constructor; [| exact IH].
  split; [reflexivity |]. split; nra.
Qed.

(** C7.  On a well-formed graph and a scenario whose sources are nodes, an
    evaluation changes no edge, and it leaves every node with the deficit
    obtained by adding from 0, in the order of the scenario, one term for
    every source that has an edge to the node: the amount of that edge, as
    it is in the graph before the evaluation, times the share withheld.  An
    evaluation of the same items in another order adds the same terms in
    that other order. *)
Theorem deficits_add_the_terms_in_scenario_order
        (scenario scenario' : Scenario) (self : TradeGraph) :
  wf_graph (G self) -> valid_scenario (G self) scenario ->
  Permutation scenario scenario' ->
  let g1 := G (state_of (plot_export_restriction_scenario scenario self)) in
  let g2 := G (state_of (plot_export_restriction_scenario scenario' self)) in
  (forall u v, get_edge_data g1 u v = get_edge_data (G self) u v) /\
  (forall u v, get_edge_data g2 u v = get_edge_data (G self) u v) /\
  (forall n, In n (node_names (G self)) ->
     node_deficit g1 n = Val (py_sum (deficit_terms (G self) scenario n)) /\
     node_deficit g2 n = Val (py_sum (deficit_terms (G self) scenario' n)) /\
     Permutation (deficit_terms (G self) scenario n)
                 (deficit_terms (G self) scenario' n)).
Proof.
  intros Hwf Hv Hp g1 g2.
  assert (Hv' : valid_scenario (G self) scenario').
  { unfold valid_scenario in *. now rewrite <- Hp. }
  assert (Hframe : forall sc,
             node_names (G (state_of (plot_export_restriction_scenario sc self)))
             = node_names (G self) /\
             forall u v,
               get_edge_data
                 (G (state_of (plot_export_restriction_scenario sc self))) u v =
               get_edge_data (G self) u v).
  { intro sc. pose proof (preserves_plot sc self) as S1.
    apply same_static_fields in S1.
    destruct (skeleton_names_edges _ _ (proj1 S1)) as [N1 E1].
    split; [exact N1 |]. intros u v. unfold get_edge_data. now rewrite E1. }
  split; [apply Hframe |]. split; [apply Hframe |].
  intros n Hn. split; [| split].
  - apply (node_deficit_exact g1 _ n (plot_deficit_terms scenario self Hwf Hv)).
    subst g1. now rewrite (proj1 (Hframe scenario)).
  - apply (node_deficit_exact g2 _ n (plot_deficit_terms scenario' self Hwf Hv')).
    subst g2. now rewrite (proj1 (Hframe scenario')).
  - unfold deficit_terms. now apply Permutation_flat_map.
Qed.

(** C8.  On a well-formed graph with non-negative amounts and a scenario
    whose sources are nodes and whose values lie in (0, 1]: the total that
    an evaluation returns is the sum of the deficits it leaves in the
    nodes, each of them the sum of its terms; these terms are, rearranged,
    the terms withheld on the outgoing edges of the sources, one for every
    edge; each of them is the amount of its edge times the share withheld
    and lies between 0 and that amount; and [get_export_sum] adds these
    very amounts. *)
Theorem total_deficit_is_made_of_withheld_exports
        (scenario : Scenario) (self : TradeGraph) :
  wf_graph (G self) ->
  Forall (fun e => 0 <= amount e) (edges (G self)) ->
  valid_scenario (G self) scenario ->
  Forall (fun item => 0 < snd item /\ snd item <= 1) scenario ->
  let after := state_of (plot_export_restriction_scenario scenario self) in
  (forall t q self',
      plot_export_restriction_scenario scenario self = Ok (t, q) self' ->
      t = py_sum (list_node_deficits (G after))) /\
  list_node_deficits (G after) =
  map (fun n => py_sum (deficit_terms (G self) scenario n))
      (node_names (G self)) /\
  Permutation (flat_map (deficit_terms (G self) scenario) (node_names (G self)))
              (flat_map (withheld_terms (G self)) scenario) /\
  Forall (fun item =>
            get_export_sum (G self) (fst item) =
            Val (py_sum (out_amounts (G self) (fst item))) /\
            Forall2 (fun a t => t = a * (1 - snd item) /\ 0 <= t /\ t <= a)
                    (out_amounts (G self) (fst item))
                    (withheld_terms (G self) item))
         scenario.
Proof.
  intros Hwf Hpos Hv Hf after. split; [| split; [| split]].
  - intros t q self' E. subst after. rewrite E. simpl.
    exact (returned_total scenario self self' t q E).
  - subst after.
    rewrite (list_node_deficits_exact _ _ (plot_deficit_terms scenario self Hwf Hv)).
    pose proof (preserves_plot scenario self) as S1.
    apply same_static_fields in S1.
    destruct (skeleton_names_edges _ _ (proj1 S1)) as [N1 _].
    now rewrite N1.
  - now apply deficit_terms_rearrange.
  - eapply Forall_impl; [| exact Hf]. simpl. intros item [H0 H1]. split.
    + apply get_export_sum_val. apply Hwf.
    + now apply withheld_terms_bounds.
Qed.

(** C10.  In a graph that [__init__] returns, [sum_of_trade] is the sum of
    the amounts of [G.edges(data=True)]; the import sum of a node is the sum
    of the amounts on its incoming edges and its export sum the sum of the
    amounts on its outgoing edges; and over all the nodes the outgoing
    amounts are the amounts of [G.edges(data=True)] in that order, the
    incoming amounts the same amounts rearranged: every edge is a term of
    one import sum and of one export sum. *)
Theorem import_and_export_terms_are_the_edge_amounts
        (name_to_iso_alpha : string -> option string)
        (name_to_centroid : string -> option (Q * Q))
        (trade_data : list TradeRow) (tg : TradeGraph) (out : list string) :
  __init__ name_to_iso_alpha name_to_centroid trade_data = (Val tg, out) ->
  sum_of_trade tg = py_sum (map amount (edges_data (G tg))) /\
  (forall c, In c (node_names (G tg)) ->
             get_import_sum (G tg) c = Val (py_sum (in_amounts (G tg) c)) /\
             get_export_sum (G tg) c = Val (py_sum (out_amounts (G tg) c))) /\
  flat_map (out_amounts (G tg)) (node_names (G tg)) =
  map amount (edges_data (G tg)) /\
  Permutation (flat_map (in_amounts (G tg)) (node_names (G tg)))
              (map amount (edges_data (G tg))).
Proof.
  intro E. destruct (init_returns _ _ _ _ _ E) as [Hwf Hsum].
  split; [exact Hsum |]. split; [| split].
  - intros c _. split.
    + apply get_import_sum_val. apply Hwf.
    + apply get_export_sum_val. apply Hwf.
  - symmetry. apply edges_data_out_amounts.
  - rewrite edges_data_out_amounts.
    eapply Permutation_trans; [now apply in_amounts_rearrange |].
    symmetry. now apply out_amounts_rearrange.
Qed.

(** ** The amount that the reports of a pair leave on its edge *)

Lemma reports_on_kept (u v : string) (row : TradeRow) :
  reports_on u v row = true <-> kept_pair row u v.
Proof.
  unfold reports_on, kept_pair.
  destruct (reported_pair row) as [[x y] |]; [| split; [discriminate | now intros [H _]]].
  rewrite !andb_true_iff, negb_true_iff, specified_neq, !String.eqb_eq.
  split.
  - intros [[-> ->] H]. now split.
  - intros [H [Hu Hv]]. injection H as -> ->. now repeat split.
Qed.

Lemma edge_is_other u v x y (a : Q) :
  (x, y) <> (u, v) -> edge_is u v (x, y, a) = false.
Proof.
  intro H. unfold edge_is, src, dst. simpl.
  destruct (String.eqb_spec x u) as [-> | _]; [| reflexivity].
  destruct (String.eqb_spec y v) as [-> | _]; [now elim H | reflexivity].
Qed.

Lemma find_other_replaced u v x y a (l : list Edge) :
  (x, y) <> (u, v) ->
  find (edge_is u v) (map (fun e => if edge_is x y e then (x, y, a) else e) l) =
  find (edge_is u v) l.
Proof.
  intro H. induction l as [| e l IH]; simpl; [reflexivity |].
  destruct (edge_is x y e) eqn:E.
  - rewrite (edge_is_other u v x y a H).
    apply edge_is_true in E. destruct E as [E1 E2].
    destruct (edge_is u v e) eqn:E'; [| exact IH].
    apply edge_is_true in E'. destruct E' as [E3 E4]. elim H. congruence.
  - now rewrite IH.
Qed.

Lemma find_other_appended u v x y a (l : list Edge) :
  (x, y) <> (u, v) ->
  find (edge_is u v) (l ++ [(x, y, a)]) = find (edge_is u v) l.
Proof.
  intro H. induction l as [| e l IH]; simpl.
  - now rewrite (edge_is_other u v x y a H).
  - now rewrite IH.
Qed.

Lemma get_edge_data_add_edge_other g x y a u v :
  (x, y) <> (u, v) ->
  get_edge_data (add_edge g x y a) u v = get_edge_data g u v.
Proof.
  intro H. unfold add_edge, get_edge_data.
  destruct (has_edge (ensure_node (ensure_node g x) y) x y); simpl;
    rewrite !ensure_node_edges.
  - now rewrite find_other_replaced.
  - now rewrite find_other_appended.
Qed.

Lemma merge_reports_cons (start : option Q) (b : Q) (values : list Q) :
  merge_reports start (b :: values) =
  merge_reports (match start with
                 | Some a => Some ((a + b) / 2)
                 | None => Some b
                 end) values.
Proof. reflexivity. Qed.

(** The loop over the rows merges, pair by pair, the values that the rows
    report, whatever rows on other pairs come in between. *)
Lemma add_trade_rows_merges (rows : list TradeRow) :
  forall g out g' out',
    add_trade_rows rows g out = (Val g', out') ->
    forall u v,
      get_edge_data g' u v =
      merge_reports (get_edge_data g u v) (reported_values rows u v).
Proof.
  induction rows as [| row rows IH]; intros g out g' out' E u v.
  - simpl in E. now injection E as <- _.
  - rewrite add_trade_rows_cons in E.
    destruct (create_nx_edge_from_trade_row row) as [[[x y] |] printed] eqn:Er;
      [| discriminate E].
    pose proof (created_pair _ _ _ _ Er) as Hp.
    unfold reported_values. simpl filter. unfold reports_on at 1. rewrite Hp.
    fold (reported_values rows u v).
    destruct ((unspecified_area =? x) || (unspecified_area =? y)) eqn:Eu.
    + rewrite andb_false_r. now apply (IH _ _ _ _ E).
    + rewrite andb_true_r.
      destruct (String.eqb_spec x u) as [Ex | Ex];
        [destruct (String.eqb_spec y v) as [Ey | Ey] |]; simpl andb; cbv iota.
      * subst x y. change (map value (row :: filter (reports_on u v) rows))
          with (value row :: reported_values rows u v).
        rewrite merge_reports_cons.
        destruct (has_edge g u v) eqn:Eh.
        -- apply has_edge_get_edge_data in Eh. destruct Eh as [a Ea].
           unfold get_combined_trade_estimate in E. rewrite Ea in E.
           rewrite Ea, (IH _ _ _ _ E u v). now rewrite get_edge_data_add_edge.
        -- assert (Ea : get_edge_data g u v = None).
           { destruct (get_edge_data g u v) as [a |] eqn:Ea; [| reflexivity].
             assert (H : has_edge g u v = true)
               by (apply has_edge_get_edge_data; now exists a).
             congruence. }
           rewrite Ea, (IH _ _ _ _ E u v). now rewrite get_edge_data_add_edge.
      * assert (Hne : (x, y) <> (u, v)) by congruence.
        destruct (has_edge g x y).
        -- destruct (get_combined_trade_estimate g x y (value row)) as [a |];
             [| discriminate E].
           rewrite (IH _ _ _ _ E u v).
           now rewrite get_edge_data_add_edge_other.
        -- rewrite (IH _ _ _ _ E u v).
           now rewrite get_edge_data_add_edge_other.
      * assert (Hne : (x, y) <> (u, v)) by congruence.
        destruct (has_edge g x y).
        -- destruct (get_combined_trade_estimate g x y (value row)) as [a |];
             [| discriminate E].
           rewrite (IH _ _ _ _ E u v).
           now rewrite get_edge_data_add_edge_other.
        -- rewrite (IH _ _ _ _ E u v).
           now rewrite get_edge_data_add_edge_other.
Qed.

(** The amount on every pair of a graph that [__init__] returns. *)
Lemma init_merges
      (name_to_iso_alpha : string -> option string)
      (name_to_centroid : string -> option (Q * Q))
      (trade_data : list TradeRow) (tg : TradeGraph) (out : list string)
      (u v : string) :
  __init__ name_to_iso_alpha name_to_centroid trade_data = (Val tg, out) ->
  get_edge_data (G tg) u v =
  merge_reports None (reported_values trade_data u v).
Proof.
  unfold __init__. intro E.
  destruct (add_country_nodes _ _ _ empty_graph) as [g0 |] eqn:E0;
    [| discriminate E].
  destruct (add_trade_rows trade_data g0 []) as [[g |] out1] eqn:E1;
    [| discriminate E].
  injection E as <- _. simpl.
  rewrite (add_trade_rows_merges _ _ _ _ _ E1 u v).
  unfold get_edge_data at 1.
  now rewrite (add_country_nodes_edges _ _ _ _ _ E0).
Qed.

(** [G.edges()] lists no pair of countries twice. *)
Lemma edges_data_keys_NoDup g : wf_graph g -> NoDup (map fst (edges_data g)).
Proof.
  intros [Hnn [Hne _]]. unfold edges_data, node_names in *.
  induction (nodes g) as [| p l IH]; simpl; [constructor |].
  inversion Hnn as [| n ns Hn Hnn']; subst.
  rewrite map_app. apply NoDup_app.
  - now apply filter_keys_NoDup.
  - now apply IH.
  - intros k Hk Hk'. apply in_map_iff in Hk. destruct Hk as [e [<- He]].
    apply filter_In in He. destruct He as [_ Es]. apply String.eqb_eq in Es.
    apply in_map_iff in Hk'. destruct Hk' as [e' [Ek He']].
    apply in_flat_map in He'. destruct He' as [q [Hq He']].
    apply filter_In in He'. destruct He' as [_ Es']. apply String.eqb_eq in Es'.
    apply Hn. apply in_map_iff. exists q. split; [| exact Hq].
    rewrite <- Es', <- Es. rewrite (edge_key e), (edge_key e') in Ek.
    now injection Ek.
Qed.

(** C5.  A graph that [__init__] returns has one edge at most for an
    ordered pair of countries, in its adjacency and in what [G.edges()]
    lists.  The amount on a pair is what the kept rows reporting that pair
    leave, taken in row order whatever rows on other pairs stand in
    between: the first value as it is, every later one averaged with the
    amount reached so far.  Two reports [a], [b] leave [(a + b) / 2], three
    reports [a], [b], [c] leave [((a + b) / 2 + c) / 2], which is not the
    mean of the three in general. *)
Theorem built_amounts_are_running_means
        (name_to_iso_alpha : string -> option string)
        (name_to_centroid : string -> option (Q * Q))
        (trade_data : list TradeRow) (tg : TradeGraph) (out : list string) :
  __init__ name_to_iso_alpha name_to_centroid trade_data = (Val tg, out) ->
  NoDup (map fst (edges (G tg))) /\
  NoDup (map fst (edges_data (G tg))) /\
  (forall u v,
      get_edge_data (G tg) u v =
      merge_reports None (reported_values trade_data u v)) /\
  (forall u v a b,
      reported_values trade_data u v = [a; b] ->
      get_edge_data (G tg) u v = Some ((a + b) / 2)) /\
  (forall u v a b c,
      reported_values trade_data u v = [a; b; c] ->
      get_edge_data (G tg) u v = Some (((a + b) / 2 + c) / 2)) /\
  (exists a b c, ~ ((a + b) / 2 + c) / 2 == (a + b + c) / 3).
Proof.
  intro E. destruct (init_returns _ _ _ _ _ E) as [Hwf _].
  split; [apply Hwf |]. split; [now apply edges_data_keys_NoDup |].
  split; [| split; [| split]].
  - intros u v. exact (init_merges _ _ _ _ _ u v E).
  - intros u v a b H. now rewrite (init_merges _ _ _ _ _ u v E), H.
  - intros u v a b c H. now rewrite (init_merges _ _ _ _ _ u v E), H.
  - exists 0, 0, 6. intro H. vm_compute in H. discriminate H.
Qed.

(** ** Instances *)

Lemma built_amounts_are_running_means_witness :
  let tg := graph_of interleaved_reports in
  __init__ example_iso example_centroid interleaved_reports = (Val tg, []) /\
  reported_values interleaved_reports "A" "B" = [100; 50; 30] /\
  get_edge_data (G tg) "A" "B" = Some (((100 + 50) / 2 + 30) / 2) /\
  NoDup (map fst (edges_data (G tg))).
Proof.
  intro tg.
  assert (E : __init__ example_iso example_centroid interleaved_reports =
              (Val tg, [])) by reflexivity.
  destruct (built_amounts_are_running_means
              example_iso example_centroid interleaved_reports tg [] E)
    as [_ [H2 [_ [_ [H5 _]]]]].
  split; [exact E |]. split; [reflexivity |].
  split; [apply H5; reflexivity | exact H2].
Defined.

Lemma deficits_add_the_terms_in_scenario_order_witness :
  let tg := graph_of shared_partner_rows in
  let s1 := [("A", 4 # 5); ("B", 1 # 2)] in
  let s2 := [("B", 1 # 2); ("A", 4 # 5)] in
  wf_graph (G tg) /\ valid_scenario (G tg) s1 /\ Permutation s1 s2 /\
  In "C"%string (node_names (G tg)) /\
  deficit_terms (G tg) s1 "C" = [100 * (1 - (4 # 5)); 60 * (1 - (1 # 2))] /\
  deficit_terms (G tg) s2 "C" = [60 * (1 - (1 # 2)); 100 * (1 - (4 # 5))] /\
  node_deficit (G (state_of (plot_export_restriction_scenario s1 tg))) "C" =
  Val (py_sum (deficit_terms (G tg) s1 "C")) /\
  node_deficit (G (state_of (plot_export_restriction_scenario s2 tg))) "C" =
  Val (py_sum (deficit_terms (G tg) s2 "C")).
Proof.
  intros tg s1 s2.
  assert (Hwf : wf_graph (G tg))
    by (apply (graph_of_wf shared_partner_rows []); reflexivity).
  assert (Hv : valid_scenario (G tg) s1) by (repeat constructor).
  assert (Hp : Permutation s1 s2) by apply perm_swap.
  assert (Hc : In "C"%string (node_names (G tg))) by now left.
  split; [exact Hwf |]. split; [exact Hv |]. split; [exact Hp |].
  split; [exact Hc |]. split; [reflexivity |]. split; [reflexivity |].
  destruct (deficits_add_the_terms_in_scenario_order s1 s2 tg Hwf Hv Hp)
    as [_ [_ H]].
  destruct (H "C"%string Hc) as [H1 [H2 _]].
  split; [exact H1 | exact H2].
Defined.

Lemma total_deficit_is_made_of_withheld_exports_witness :
  let tg := graph_of shared_partner_rows in
  let s := [("A", 4 # 5); ("B", 1 # 2)] in
  wf_graph (G tg) /\
  Forall (fun e => 0 <= amount e) (edges (G tg)) /\
  valid_scenario (G tg) s /\
  Forall (fun item => 0 < snd item /\ snd item <= 1) s /\
  flat_map (withheld_terms (G tg)) s = [100 * (1 - (4 # 5)); 60 * (1 - (1 # 2))] /\
  list_node_deficits (G (state_of (plot_export_restriction_scenario s tg))) =
  map (fun n => py_sum (deficit_terms (G tg) s n)) (node_names (G tg)) /\
  Permutation (flat_map (deficit_terms (G tg) s) (node_names (G tg)))
              (flat_map (withheld_terms (G tg)) s).
Proof.
  intros tg s.
  assert (Hwf : wf_graph (G tg))
    by (apply (graph_of_wf shared_partner_rows []); reflexivity).
  assert (Hpos : Forall (fun e => 0 <= amount e) (edges (G tg))).
  { apply (init_amounts_nonneg example_iso example_centroid
             shared_partner_rows tg []); [| reflexivity].
    repeat constructor; simpl; lra. }
  assert (Hv : valid_scenario (G tg) s) by (repeat constructor).
  assert (Hf : Forall (fun item => 0 < snd item /\ snd item <= 1) s)
    by (repeat constructor; simpl; lra).
  split; [exact Hwf |]. split; [exact Hpos |]. split; [exact Hv |].
  split; [exact Hf |]. split; [reflexivity |].
  destruct (total_deficit_is_made_of_withheld_exports s tg Hwf Hpos Hv Hf)
    as [_ [H2 [H3 _]]].
  split; [exact H2 | exact H3].
Defined.

Lemma import_and_export_terms_are_the_edge_amounts_witness :
  let tg := graph_of shared_partner_rows in
  __init__ example_iso example_centroid shared_partner_rows = (Val tg, []) /\
  map amount (edges_data (G tg)) = [10; 20; 100; 60] /\
  flat_map (in_amounts (G tg)) (node_names (G tg)) = [100; 60; 10; 20] /\
  Permutation (flat_map (in_amounts (G tg)) (node_names (G tg)))
              (map amount (edges_data (G tg))).
Proof.
  intro tg.
  assert (H : __init__ example_iso example_centroid shared_partner_rows =
              (Val tg, [])) by reflexivity.
  split; [exact H |]. split; [reflexivity |]. split; [reflexivity |].
  exact (proj2 (proj2 (proj2
           (import_and_export_terms_are_the_edge_amounts
              example_iso example_centroid shared_partner_rows tg [] H)))).
Defined.

(** ** The program on binary64 numbers *)

#[local] Set Warnings "-inexact-float".

Section Binary64Evaluation.

Import Binary64.

Local Open Scope float_scope.

(** C4.  In binary64, on the graph of the example and the scenario
    {A: 0.8}: the share withheld, [1 - 0.8], is rounded, and the first half
    of the evaluation gives B the deficit 19.999999999999996 and C the
    deficit 9.999999999999998, the total 29.999999999999993 and the
    shortfall [total / 150 * 100], which is 19.999999999999996;
    [get_relative_deficit] gives 19.999999999999996 for what A withholds
    from B.  The evaluation itself sets the relative deficit of B to
    19.999999999999996, then reaches A, whose import sum is 0, and raises
    [ZeroDivisionError] with the deficits in place.  None of these numbers
    is the 20, 10 or 30 of exact arithmetic. *)
Theorem example_scenario_in_binary64 :
  let tg := graph_of example_rows in
  edges_data (G tg) = [("A", "B", 100); ("A", "C", 50)]%string /\
  sum_of_trade tg = 150 /\
  (exists self1,
      scenario_totals [("A"%string, 0.8)] tg =
      Ok (29.999999999999993, 19.999999999999996) self1 /\
      node_deficit (G self1) "B" = Val 19.999999999999996 /\
      node_deficit (G self1) "C" = Val 9.999999999999998) /\
  get_relative_deficit (G tg) "A" "B" (1 - 0.8) = Val 19.999999999999996 /\
  (exists self' data,
      plot_export_restriction_scenario [("A"%string, 0.8)] tg =
      Raise ZeroDivisionError self' /\
      get_import_sum (G tg) "A" = Val 0 /\
      node_deficit (G self') "B" = Val 19.999999999999996 /\
      node_deficit (G self') "C" = Val 9.999999999999998 /\
      node_data (G self') "B" = Some data /\
      deficit_relative data = Some 19.999999999999996) /\
  (19.999999999999996 <? 20) = true /\
  (9.999999999999998 <? 10) = true /\
  (29.999999999999993 <? 30) = true.
Proof.
  intro tg. split; [reflexivity |]. split; [reflexivity |].
  split; [| split; [| split]].
  - eexists. split; [vm_compute; reflexivity |]. split; reflexivity.
  - reflexivity.
  - do 2 eexists. split; [vm_compute; reflexivity |].
    repeat split; reflexivity.
  - repeat split; reflexivity.
Qed.

(** C7, as the specification has it, fails in binary64: S1, S2 and S3 each
    export 100 to P and retain 0.9, 0.8 and 0.75 of it.  Both evaluations
    return; in the order S1, S2, S3 they leave P with the deficit
    54.99999999999999, in the order S3, S2, S1 with 55.0.  Each deficit is
    the sum of the three terms, added to 0 in the order of the scenario. *)
Lemma binary64_deficit_depends_on_the_order :
  let tg := graph_of three_sources_rows in
  let s1 := [("S1", 0.9); ("S2", 0.8); ("S3", 0.75)]%string in
  let s2 := [("S3", 0.75); ("S2", 0.8); ("S1", 0.9)]%string in
  Permutation s1 s2 /\
  (exists t q self1,
      plot_export_restriction_scenario s1 tg = Ok (t, q) self1 /\
      node_deficit (G self1) "P" = Val 54.99999999999999) /\
  (exists t q self2,
      plot_export_restriction_scenario s2 tg = Ok (t, q) self2 /\
      node_deficit (G self2) "P" = Val 55) /\
  py_sum [100 * (1 - 0.9); 100 * (1 - 0.8); 100 * (1 - 0.75)] =
  54.99999999999999 /\
  py_sum [100 * (1 - 0.75); 100 * (1 - 0.8); 100 * (1 - 0.9)] = 55 /\
  (54.99999999999999 =? 55) = false.
Proof.
  intros tg s1 s2. split; [exact (Permutation_rev s1) |].
  split; [| split; [| repeat split; reflexivity]].
  - do 3 eexists. split; [vm_compute; reflexivity | reflexivity].
  - do 3 eexists. split; [vm_compute; reflexivity | reflexivity].
Qed.

(** C8, as the specification has it, fails in binary64: A exports 0.3, 0.2
    and 0.1 and retains the fraction 1e-17 of it, which lies in (0, 1].
    The evaluation returns the total deficit 0.6000000000000001, the sum of
    the deficits in node order, whereas [get_export_sum] adds the same
    amounts in edge order to 0.6. *)
Lemma binary64_total_exceeds_the_export_sum :
  let tg := graph_of rounding_rows in
  (0 <? 1e-17) = true /\ (1e-17 <=? 1) = true /\
  map fst (nodes (G tg)) = ["D"; "B"; "C"; "A"]%string /\
  out_edges (G tg) "A" = [("A", "D"); ("A", "C"); ("A", "B")]%string /\
  get_export_sum (G tg) "A" = Val 0.6 /\
  (exists q self',
      plot_export_restriction_scenario [("A"%string, 1e-17)] tg =
      Ok (0.6000000000000001, q) self') /\
  (0.6 <? 0.6000000000000001) = true.
Proof.
  intro tg. do 5 (split; [reflexivity |]). split; [| reflexivity].
  do 2 eexists. vm_compute. reflexivity.
Qed.

(** C10, as the specification has it, fails in binary64: A exports 0.3 to P
    and 0.2 to R, and B exports 0.1 to P.  [sum_of_trade] is 0.6; the import
    sums are 0.4 for P and 0.2 for R, and 0 for A and B, and they add up to
    0.6000000000000001, in whatever order 0.4 and 0.2 are added. *)
Lemma binary64_import_sums_miss_sum_of_trade :
  let tg := graph_of grouping_rows in
  map fst (nodes (G tg)) = ["P"; "R"; "A"; "B"]%string /\
  sum_of_trade tg = 0.6 /\
  map (get_import_sum (G tg)) ["P"; "R"; "A"; "B"]%string =
  [Val 0.4; Val 0.2; Val 0; Val 0] /\
  py_sum [0.4; 0.2; 0; 0] = 0.6000000000000001 /\
  0.4 + 0.2 = 0.6000000000000001 /\ 0.2 + 0.4 = 0.6000000000000001 /\
  (0.6000000000000001 =? 0.6) = false.
Proof. intro tg. repeat split; reflexivity. Qed.

End Binary64Evaluation.
